(** * diffchecker: the structural comparison engine

    A shallow embedding of [src/utils/semanticDiff.ts] (the semantic diff
    engine: [compareDeep], [computeSemanticDiff]) and of [src/utils/diff.ts]
    (the canonicalizer [normalizeContent] and the textual diff adapter
    [computeDiff], [computeWordDiff]), with the properties the specification
    states about them; and of [formatValue], of the second comparison
    [getSemanticDiff], [compareObjects] and of the editor, history and
    snapshot actions of the store, with further properties of the code.

    Conventions of the embedding.
    - A JavaScript string is a [string]: a sequence of code units, here the
      code units 0..255.
    - A JavaScript number is a [JsNumber]: an integral number or [NaN]; [===]
      is equality on the integral numbers and fails on [NaN]. An integral
      number is printed digit by digit, as [JSON.stringify] prints it below
      [1e21] ([plainNumbers]).
    - A parsed document is a [Value]; an object is the list of its own
      enumerable properties in enumeration order. An object built by
      assignments lists its keys in the order of their creation, which is
      the enumeration order of JavaScript for keys that are not array
      indices, and keeps no record of a prototype installed through the key
      [__proto__]: where a statement depends on the order of enumeration or
      on inherited properties it is about objects with ordinary keys
      ([ordinaryKeys], [representable]).
    - What the code sees at type [unknown] is an [Unknown]: a [Value],
      [undefined], or something read through the prototype chain of a plain
      object.
    - The libraries the code calls ([JSON.parse], [yaml.load],
      [String.prototype.localeCompare], [diff.diffLines], [diff.diffWords])
      are parameters of the sections that use them. [yaml.load] answers
      [undefined] for a text without a document; a call that throws is a
      [Throw].
    - [changes.push(...)] on the accumulator threaded through [compareDeep]
      is a writer effect: a computation yields the records it pushed, in
      order. *)

From Stdlib Require Import ZArith List String Ascii Bool Lia PeanoNat.
From Stdlib Require Import Permutation DecimalString Sorted RelationClasses.
From Stdlib Require DecimalFacts DecimalPos.
Import ListNotations.
Set Warnings "-register-all".
Open Scope string_scope.
Open Scope list_scope.
Open Scope nat_scope.

(** ** JavaScript strings *)

Module JsString.

Definition code (c : ascii) : nat := nat_of_ascii c.

Definition LF : ascii := ascii_of_nat 10.
Definition newline : string := String LF EmptyString.

(** [WhiteSpace] and [LineTerminator] of ECMAScript: what [trim] strips
    and what the regular expression class [\s] matches. *)
Definition isWhiteSpace (c : ascii) : bool :=
  let n := code c in
  ((9 <=? n) && (n <=? 13)) || (n =? 32) || (n =? 160).

Fixpoint trimStart (s : string) : string :=
  match s with
  | EmptyString => EmptyString
  | String c s' => if isWhiteSpace c then trimStart s' else s
  end.

Fixpoint trimEnd (s : string) : string :=
  match s with
  | EmptyString => EmptyString
  | String c s' =>
      match trimEnd s' with
      | EmptyString => if isWhiteSpace c then EmptyString else String c EmptyString
      | t => String c t
      end
  end.

Definition trim (s : string) : string := trimEnd (trimStart s).

(** [s.replace(/\s+/g, ' ')]: every maximal run of white space becomes one
    space. [in_run] tells that the previous code unit was white space. *)
Fixpoint replaceRuns (in_run : bool) (s : string) : string :=
  match s with
  | EmptyString => EmptyString
  | String c s' =>
      if isWhiteSpace c
      then if in_run then replaceRuns true s' else String " " (replaceRuns true s')
      else String c (replaceRuns false s')
  end.

Definition collapseWhiteSpace (s : string) : string := replaceRuns false s.

Definition lowerChar (c : ascii) : ascii :=
  let n := code c in
  if ((65 <=? n) && (n <=? 90))
     || ((192 <=? n) && (n <=? 222) && negb (n =? 215))
  then ascii_of_nat (n + 32)
  else c.

Fixpoint toLowerCase (s : string) : string :=
  match s with
  | EmptyString => EmptyString
  | String c s' => String (lowerChar c) (toLowerCase s')
  end.

Definition startsWith (s p : string) : bool := String.prefix p s.

Fixpoint endsWith (s : string) (c : ascii) : bool :=
  match s with
  | EmptyString => false
  | String d EmptyString => Ascii.eqb d c
  | String _ s' => endsWith s' c
  end.

(** [s.split(sep)] for a separator of one code unit. *)
Fixpoint split (sep : ascii) (s : string) : list string :=
  match s with
  | EmptyString => [EmptyString]
  | String c s' =>
      if Ascii.eqb c sep then EmptyString :: split sep s'
      else match split sep s' with
           | h :: t => String c h :: t
           | [] => [String c EmptyString]
           end
  end.

Definition isEmpty (s : string) : bool :=
  match s with EmptyString => true | _ => false end.

(** An empty or white-space-only text. *)
Fixpoint whiteSpaceOnly (s : string) : bool :=
  match s with
  | EmptyString => true
  | String c s' => isWhiteSpace c && whiteSpaceOnly s'
  end.

(** [`${i}`] for an array index. *)
Definition ofNat (i : nat) : string := NilZero.string_of_uint (Nat.to_uint i).

(** [`${n}`] for an integral number. *)
Definition ofZ (n : Z) : string := NilZero.string_of_int (Z.to_int n).

Fixpoint join (sep : string) (l : list string) : string :=
  match l with
  | [] => EmptyString
  | [s] => s
  | s :: l' => s ++ sep ++ join sep l'
  end.

End JsString.

(** ** Values *)

(** A JavaScript number: an integral number, or [NaN], which [yaml.load]
    gives for [.nan]. *)
Inductive JsNumber : Type :=
| Finite (z : Z)
| NaN.

Coercion Finite : Z >-> JsNumber.
Bind Scope Z_scope with JsNumber.

(** [x === y] on numbers: [NaN] is not equal to itself. *)
Definition numberEq (x y : JsNumber) : bool :=
  match x, y with
  | Finite a, Finite b => Z.eqb a b
  | _, _ => false
  end.

(** The same number: [NaN] is the same as [NaN]. *)
Definition sameNumber (x y : JsNumber) : bool :=
  match x, y with
  | Finite a, Finite b => Z.eqb a b
  | NaN, NaN => true
  | _, _ => false
  end.

Inductive Value : Type :=
| VNull
| VBool (b : bool)
| VNumber (n : JsNumber)
| VString (s : string)
| VArray (items : list Value)
| VObject (props : list (string * Value)).

(** What a variable of type [unknown] holds in this code. Apart from parsed
    values: [undefined] (an empty document, an index or key that is not
    there), and what a property read finds on [Object.prototype] when the
    object has no own property of that name. *)
Inductive Unknown : Type :=
| Undefined
| Val (v : Value)
| InheritedFunction (name : string)
| ObjectPrototype.

Coercion Val : Value >-> Unknown.

Fixpoint depth (v : Value) : nat :=
  match v with
  | VArray items => S (fold_right (fun x d => Nat.max (depth x) d) 0 items)
  | VObject props => S (fold_right (fun kv d => Nat.max (depth (snd kv)) d) 0 props)
  | _ => 0
  end.

(** A bound on the call depth of [compareDeep] at [u]: [Object.prototype]
    is read from an object and holds no parsed object itself. *)
Definition depthU (u : Unknown) : nat :=
  match u with
  | Val v => 2 * depth v
  | ObjectPrototype => 1
  | _ => 0
  end.

(** *** Arrays *)

Module JsArray.

(** [arr[i]] *)
Definition get (arr : list Value) (i : nat) : Unknown :=
  match nth_error arr i with
  | Some v => Val v
  | None => Undefined
  end.

Section Sort.
Context {A : Type} (cmp : A -> A -> comparison).

Fixpoint insert (x : A) (l : list A) : list A :=
  match l with
  | [] => [x]
  | y :: l' =>
      match cmp x y with
      | Gt => y :: insert x l'
      | _ => x :: l
      end
  end.

(** [arr.sort(cmp)], a stable sort; [cmp a b] stands for the sign of the
    number the comparator returns. *)
Fixpoint sort (l : list A) : list A :=
  match l with
  | [] => []
  | x :: l' => insert x (sort l')
  end.
End Sort.

(** Sortedness, as far as a comparator without further laws gives it: no
    element is followed by one that must precede it. *)
Inductive ordered {A : Type} (cmp : A -> A -> comparison) : list A -> Prop :=
| ordered_nil : ordered cmp []
| ordered_one x : ordered cmp [x]
| ordered_cons x y l :
    cmp x y <> Gt -> ordered cmp (y :: l) -> ordered cmp (x :: y :: l).

(** [new Set(l)] followed by iteration: the distinct elements in order of
    first occurrence. *)
Fixpoint distinct (seen l : list string) : list string :=
  match l with
  | [] => []
  | k :: l' =>
      if existsb (String.eqb k) seen then distinct seen l'
      else k :: distinct (k :: seen) l'
  end.

End JsArray.

(** *** Objects *)

Module JsObject.

Definition Props := list (string * Value).

Fixpoint own (props : Props) (key : string) : option Value :=
  match props with
  | [] => None
  | (k, v) :: props' => if String.eqb k key then Some v else own props' key
  end.

Definition hasOwn (props : Props) (key : string) : bool :=
  match own props key with Some _ => true | None => false end.

(** The function-valued properties of [Object.prototype]. *)
Definition prototypeFunctions : list string :=
  [ "constructor"; "hasOwnProperty"; "isPrototypeOf"; "propertyIsEnumerable";
    "toLocaleString"; "toString"; "valueOf";
    "__defineGetter__"; "__defineSetter__"; "__lookupGetter__"; "__lookupSetter__" ].

Definition isPrototypeFunction (key : string) : bool :=
  existsb (String.eqb key) prototypeFunctions.

Definition onPrototype (key : string) : bool :=
  isPrototypeFunction key || String.eqb key "__proto__".

(** [Object.keys(obj)] for [obj] with [typeof obj === 'object'], not an
    array and not [null]. *)
Definition keys (obj : Unknown) : list string :=
  match obj with
  | Val (VObject props) => map fst props
  | _ => []
  end.

(** [key in obj]: own properties first, then the prototype chain. *)
Definition has (key : string) (obj : Unknown) : bool :=
  match obj with
  | Val (VObject props) => hasOwn props key || onPrototype key
  | ObjectPrototype => onPrototype key
  | _ => false
  end.

(** [obj[key]] *)
Definition get (obj : Unknown) (key : string) : Unknown :=
  match obj with
  | Val (VObject props) =>
      match own props key with
      | Some v => Val v
      | None =>
          if isPrototypeFunction key then InheritedFunction key
          else if String.eqb key "__proto__" then ObjectPrototype
          else Undefined
      end
  | ObjectPrototype =>
      if isPrototypeFunction key then InheritedFunction key
      else if String.eqb key "__proto__" then Val VNull
      else Undefined
  | _ => Undefined
  end.

(** [CreateDataProperty]: the own property is overwritten in place when
    it is there and appended otherwise. JavaScript enumerates a key that
    is an array index before the other keys, in numeric order: with such
    keys the list is not in enumeration order, and the statements about
    the order of keys leave them out ([ordinaryKey]). *)
Fixpoint define (props : Props) (key : string) (v : Value) : Props :=
  match props with
  | [] => [(key, v)]
  | (k, w) :: props' =>
      if String.eqb k key then (k, v) :: props'
      else (k, w) :: define props' key v
  end.

(** [obj[key] = v] on a plain object the code is building. The key
    [__proto__] reaches the setter inherited from [Object.prototype] and
    creates no own property. The prototype that setter installs when [v]
    is an object is not recorded: what is read from the built object
    through it is outside the embedding, and the statements about reading
    from key-sorted objects leave the key out ([ordinaryKey]). *)
Definition assign (props : Props) (key : string) (v : Value) : Props :=
  if String.eqb key "__proto__" then props else define props key v.

(** [keys.forEach((key) => { target[key] = f(key) })] *)
Definition assignEach (keys : list string) (f : string -> Value) (target : Props) : Props :=
  fold_left (fun acc key => assign acc key (f key)) keys target.

End JsObject.

(** ** [JSON.stringify] *)

Module Json.

Definition hexDigit (n : nat) : ascii :=
  if n <? 10 then ascii_of_nat (48 + n) else ascii_of_nat (87 + n).

Definition dquote : string := String (ascii_of_nat 34) EmptyString.
Definition backslash : ascii := ascii_of_nat 92.

Definition quoteChar (c : ascii) : string :=
  let n := JsString.code c in
  if n =? 34 then String backslash dquote
  else if n =? 92 then "\\"
  else if n =? 8 then "\b"
  else if n =? 9 then "\t"
  else if n =? 10 then "\n"
  else if n =? 12 then "\f"
  else if n =? 13 then "\r"
  else if n <? 32 then ("\u00" ++ String (hexDigit (n / 16)) (String (hexDigit (n mod 16)) EmptyString))%string
  else String c EmptyString.

Fixpoint quoteBody (s : string) : string :=
  match s with
  | EmptyString => EmptyString
  | String c s' => (quoteChar c ++ quoteBody s')%string
  end.

(** [QuoteJSONString] *)
Definition quote (s : string) : string := (dquote ++ quoteBody s ++ dquote)%string.

(** [SerializeJSONProperty] with the gap [gap] at the indentation
    [indent]: [gap] is empty for [JSON.stringify(v)] and two spaces for
    [JSON.stringify(v, null, 2)]. A number is printed digit by digit,
    which is what JavaScript prints for an integral number below [1e21],
    and [NaN] as [null]. *)
Fixpoint serialize (gap indent : string) (v : Value) : string :=
  let inner := (indent ++ gap)%string in
  let wrap (opening closing : string) (parts : list string) : string :=
    if JsString.isEmpty gap
    then (opening ++ JsString.join "," parts ++ closing)%string
    else (opening ++ JsString.newline ++ inner
          ++ JsString.join ("," ++ JsString.newline ++ inner) parts
          ++ JsString.newline ++ indent ++ closing)%string in
  match v with
  | VNull => "null"
  | VBool true => "true"
  | VBool false => "false"
  | VNumber (Finite n) => JsString.ofZ n
  | VNumber NaN => "null"
  | VString s => quote s
  | VArray [] => "[]"
  | VArray items => wrap "[" "]" (map (serialize gap inner) items)
  | VObject [] => "{}"
  | VObject props =>
      wrap "{" "}"
        (map (fun kv : string * Value =>
                let (k, x) := kv in
                (quote k ++ (if JsString.isEmpty gap then ":" else ": ")
                 ++ serialize gap inner x)%string) props)
  end.

(** [JSON.stringify(v)] *)
Definition stringify (v : Value) : string := serialize EmptyString EmptyString v.

(** [JSON.stringify(v, null, 2)] *)
Definition stringify2 (v : Value) : string := serialize "  " EmptyString v.

End Json.

(** ** Shared types ([src/types]) *)

Inductive FormatType : Type := json | yaml | auto.

Record DiffOptions : Type := {
  ignoreKeyOrder : bool;
  ignoreWhitespace : bool;
  ignoreCase : bool;
  ignoreArrayOrder : bool;
  syncScroll : bool;
  showWordDiff : bool
}.

(** The options the store starts with. *)
Definition defaultOptions : DiffOptions :=
  {| ignoreKeyOrder := false; ignoreWhitespace := false; ignoreCase := false;
     ignoreArrayOrder := false; syncScroll := true; showWordDiff := false |}.

(** How a call into a library ends. *)
Inductive Completion (A : Type) : Type :=
| Normal (a : A)
| Throw (message : string).
Arguments Normal {A} a.
Arguments Throw {A} message.

(** What [yaml.load] answers is a document, or [undefined] for a text that
    holds none (a blank text, or one of comments only): [None] here. *)
Definition documentOf (loaded : option Value) : Unknown :=
  match loaded with
  | Some v => Val v
  | None => Undefined
  end.

(** ** The semantic diff engine ([src/utils/semanticDiff.ts]) *)

Module SemanticDiff.

Inductive SemanticChangeType : Type := added | removed | modified | type_changed.

Record SemanticChange : Type := {
  path : string;
  type : SemanticChangeType;
  oldValue : option Unknown;
  newValue : option Unknown;
  oldType : option string;
  newType : option string
}.

Record Summary : Type := {
  s_added : nat;
  s_removed : nat;
  s_modified : nat;
  s_typeChanged : nat;
  s_total : nat
}.

Record SemanticDiffResult : Type := {
  changes : list SemanticChange;
  summary : Summary;
  isIdentical : bool
}.

(** *** The accumulator [changes] as a writer effect *)

Definition Effect := option (list SemanticChange).

Definition skip : Effect := Some [].
Definition push (c : SemanticChange) : Effect := Some [c].
Definition andThen (a b : Effect) : Effect :=
  match a, b with
  | Some xs, Some ys => Some (xs ++ ys)
  | _, _ => None
  end.

Fixpoint forEach {A : Type} (l : list A) (body : A -> Effect) : Effect :=
  match l with
  | [] => skip
  | x :: l' => andThen (body x) (forEach l' body)
  end.

Definition getType (value : Unknown) : string :=
  match value with
  | Val VNull => "null"
  | Val (VArray _) => "array"
  | Undefined => "undefined"
  | Val (VBool _) => "boolean"
  | Val (VNumber _) => "number"
  | Val (VString _) => "string"
  | Val (VObject _) => "object"
  | InheritedFunction _ => "function"
  | ObjectPrototype => "object"
  end.

(** [typeof value === 'object'] *)
Definition typeofObject (value : Unknown) : bool :=
  match value with
  | Val VNull | Val (VArray _) | Val (VObject _) | ObjectPrototype => true
  | _ => false
  end.

(** [obj.map(sortObject)] on the items and [sortObject(obj[key])] on the
    property values are computed first; the object case then assigns, for
    each key of the sorted key list, the sorted value found under it. *)
Fixpoint sortObjectValue (obj : Value) : Value :=
  match obj with
  | VArray items => VArray (map sortObjectValue items)
  | VObject props =>
      let values := map (fun kv : string * Value =>
                           let (k, x) := kv in (k, sortObjectValue x)) props in
      VObject (JsObject.assignEach
                 (JsArray.sort String.compare (map fst props))
                 (fun key => match JsObject.own values key with
                             | Some x => x
                             | None => VNull
                             end)
                 [])
  | _ => obj
  end.

Definition sortObject (obj : Unknown) : Unknown :=
  match obj with
  | Val v => Val (sortObjectValue v)
  | ObjectPrototype => Val (VObject [])
  | _ => obj
  end.

(** [a !== b] is [negb (strictEqual a b)]. Two objects or arrays are never
    compared with it by this code. *)
Definition strictEqual (a b : Unknown) : bool :=
  match a, b with
  | Undefined, Undefined => true
  | Val VNull, Val VNull => true
  | Val (VBool x), Val (VBool y) => Bool.eqb x y
  | Val (VNumber x), Val (VNumber y) => numberEq x y
  | Val (VString x), Val (VString y) => String.eqb x y
  | InheritedFunction x, InheritedFunction y => String.eqb x y
  | ObjectPrototype, ObjectPrototype => true
  | _, _ => false
  end.

Definition normalizeString (s : string) (options : DiffOptions) : string :=
  let normalized := s in
  let normalized :=
    if ignoreWhitespace options
    then JsString.collapseWhiteSpace (JsString.trim normalized)
    else normalized in
  let normalized :=
    if ignoreCase options then JsString.toLowerCase normalized else normalized in
  normalized.

Definition normalizeValue (value : Unknown) (options : DiffOptions) : Unknown :=
  match value with
  | Val (VString s) => Val (VString (normalizeString s options))
  | _ => value
  end.

(** [path || '$'] *)
Definition orRoot (path : string) : string :=
  if JsString.isEmpty path then "$" else path.

Definition itemPath (path : string) (i : nat) : string :=
  (path ++ "[" ++ JsString.ofNat i ++ "]")%string.

Definition keyPath (path key : string) : string :=
  if JsString.isEmpty path then key else (path ++ "." ++ key)%string.

Definition Added (p : string) (v : Unknown) : SemanticChange :=
  {| path := p; type := added; oldValue := None; newValue := Some v;
     oldType := None; newType := None |}.
Definition Removed (p : string) (v : Unknown) : SemanticChange :=
  {| path := p; type := removed; oldValue := Some v; newValue := None;
     oldType := None; newType := None |}.
Definition Modified (p : string) (old new : Unknown) : SemanticChange :=
  {| path := p; type := modified; oldValue := Some old; newValue := Some new;
     oldType := None; newType := None |}.
Definition TypeChanged (p : string) (old new : Unknown) : SemanticChange :=
  {| path := p; type := type_changed; oldValue := Some old; newValue := Some new;
     oldType := Some (getType old); newType := Some (getType new) |}.



(** The values [compareDeep] treats as objects. *)
Definition plainObject (u : Unknown) : Prop :=
  match u with
  | Val (VObject _) | ObjectPrototype => True
  | _ => False
  end.


Definition propsOf (v : Value) : JsObject.Props :=
  match v with
  | VObject props => props
  | _ => []
  end.

Definition otherSide (t : SemanticChangeType) : SemanticChangeType :=
  match t with
  | added => removed
  | removed => added
  | t => t
  end.

(** The record of the same change seen from the other side. *)
Definition swapSides (c : SemanticChange) : SemanticChange :=
  {| path := path c;
     type := match type c with
             | added => removed
             | removed => added
             | t => t
             end;
     oldValue := newValue c;
     newValue := oldValue c;
     oldType := newType c;
     newType := oldType c |}.


Section Engine.

(** [a.localeCompare(b)], by its sign. *)
Variable localeCompare : string -> string -> comparison.

Definition sortArray (arr : list Value) : list Value :=
  JsArray.sort
    (fun a b =>
       let aStr := Json.stringify a in
       let bStr := Json.stringify b in
       localeCompare aStr bStr)
    (map sortObjectValue arr).

(** The body of [compareDeep]; its first argument stands for the
    recursive calls. *)
Definition compareDeepBody
           (compareDeep : Unknown -> Unknown -> string -> DiffOptions -> Effect)
           (left right : Unknown) (path : string) (options : DiffOptions) : Effect :=
  let leftType := getType left in
  let rightType := getType right in
  if negb (String.eqb leftType rightType) then
    push (TypeChanged (orRoot path) left right)
  else
  match left, right with
  | Val VNull, _ | Undefined, _ =>
      if negb (strictEqual left right)
      then push (Modified (orRoot path) left right)
      else skip
  | Val (VArray leftItems), Val (VArray rightItems) =>
      let leftArr :=
        if ignoreArrayOrder options then sortArray leftItems else leftItems in
      let rightArr :=
        if ignoreArrayOrder options then sortArray rightItems else rightItems in
      let maxLength := Nat.max (List.length leftArr) (List.length rightArr) in
      forEach (seq 0 maxLength) (fun i =>
        let itemPath := itemPath path i in
        if List.length leftArr <=? i then
          push (Added itemPath (JsArray.get rightArr i))
        else if List.length rightArr <=? i then
          push (Removed itemPath (JsArray.get leftArr i))
        else
          compareDeep (JsArray.get leftArr i) (JsArray.get rightArr i) itemPath options)
  | _, _ =>
      if typeofObject left && typeofObject right then
        let leftObj := if ignoreKeyOrder options then sortObject left else left in
        let rightObj := if ignoreKeyOrder options then sortObject right else right in
        let allKeys :=
          JsArray.distinct [] (JsObject.keys leftObj ++ JsObject.keys rightObj) in
        forEach allKeys (fun key =>
          let keyPath := keyPath path key in
          let hasLeft := JsObject.has key leftObj in
          let hasRight := JsObject.has key rightObj in
          if negb hasLeft && hasRight then
            push (Added keyPath (JsObject.get rightObj key))
          else if hasLeft && negb hasRight then
            push (Removed keyPath (JsObject.get leftObj key))
          else
            compareDeep (JsObject.get leftObj key) (JsObject.get rightObj key)
                        keyPath options)
      else
        let normalizedLeft := normalizeValue left options in
        let normalizedRight := normalizeValue right options in
        if negb (strictEqual normalizedLeft normalizedRight)
        then push (Modified (orRoot path) left right)
        else skip
  end.

(** [compareDeep] with the call depth bounded by [fuel]; [None] when the
    bound is hit. *)
Fixpoint compareDeepFuel (fuel : nat) (left right : Unknown) (path : string)
         (options : DiffOptions) : Effect :=
  match fuel with
  | O => None
  | S fuel' => compareDeepBody (compareDeepFuel fuel') left right path options
  end.

(** The records [compareDeep(left, right, path, changes, options)]
    pushes: the call depth never exceeds the depth of [left]. *)
Definition compareDeep (left right : Unknown) (path : string)
           (options : DiffOptions) : list SemanticChange :=
  match compareDeepFuel (S (depthU left)) left right path options with
  | Some pushed => pushed
  | None => []
  end.

(** The records one call pushes, as a list, from the lists [records] of
    its recursive calls: the body of [compareDeep] read as a function
    that returns its changes instead of pushing them. *)
Definition pushedBy
           (records : Unknown -> Unknown -> string -> DiffOptions -> list SemanticChange)
           (left right : Unknown) (path : string) (options : DiffOptions)
  : list SemanticChange :=
  if negb (String.eqb (getType left) (getType right)) then
    [ TypeChanged (orRoot path) left right ]
  else
  match left, right with
  | Val VNull, _ | Undefined, _ =>
      if negb (strictEqual left right)
      then [ Modified (orRoot path) left right ]
      else []
  | Val (VArray leftItems), Val (VArray rightItems) =>
      let leftArr :=
        if ignoreArrayOrder options then sortArray leftItems else leftItems in
      let rightArr :=
        if ignoreArrayOrder options then sortArray rightItems else rightItems in
      flat_map (fun i =>
        if List.length leftArr <=? i then
          [ Added (itemPath path i) (JsArray.get rightArr i) ]
        else if List.length rightArr <=? i then
          [ Removed (itemPath path i) (JsArray.get leftArr i) ]
        else
          records (JsArray.get leftArr i) (JsArray.get rightArr i)
                  (itemPath path i) options)
        (seq 0 (Nat.max (List.length leftArr) (List.length rightArr)))
  | _, _ =>
      if typeofObject left && typeofObject right then
        let leftObj := if ignoreKeyOrder options then sortObject left else left in
        let rightObj := if ignoreKeyOrder options then sortObject right else right in
        flat_map (fun key =>
          if negb (JsObject.has key leftObj) && JsObject.has key rightObj then
            [ Added (keyPath path key) (JsObject.get rightObj key) ]
          else if JsObject.has key leftObj && negb (JsObject.has key rightObj) then
            [ Removed (keyPath path key) (JsObject.get leftObj key) ]
          else
            records (JsObject.get leftObj key) (JsObject.get rightObj key)
                    (keyPath path key) options)
          (JsArray.distinct [] (JsObject.keys leftObj ++ JsObject.keys rightObj))
      else
        if negb (strictEqual (normalizeValue left options) (normalizeValue right options))
        then [ Modified (orRoot path) left right ]
        else []
  end.

(** Pairing by index as the specification words it: the indices up to
    the longer length, an index only on the right is an addition, only
    on the left a removal, on both a comparison of the two elements. *)
Definition pairByIndex
           (compare : Value -> Value -> string -> list SemanticChange)
           (path : string) (leftArr rightArr : list Value) : list SemanticChange :=
  flat_map (fun i =>
    match nth_error leftArr i, nth_error rightArr i with
    | None, Some y => [ Added (itemPath path i) (Val y) ]
    | Some x, None => [ Removed (itemPath path i) (Val x) ]
    | Some x, Some y => compare x y (itemPath path i)
    | None, None => []
    end)
    (seq 0 (Nat.max (List.length leftArr) (List.length rightArr))).

(** The comparison of two maps as the specification words it: the
    union of the keys, the left keys first; a key only on the right is
    an addition, only on the left a removal, on both a comparison of the
    two values. *)
Definition unionByKey
           (compare : Value -> Value -> string -> list SemanticChange)
           (path : string) (leftProps rightProps : JsObject.Props)
  : list SemanticChange :=
  flat_map (fun key =>
    match JsObject.own leftProps key, JsObject.own rightProps key with
    | None, Some y => [ Added (keyPath path key) (Val y) ]
    | Some x, None => [ Removed (keyPath path key) (Val x) ]
    | Some x, Some y => compare x y (keyPath path key)
    | None, None => []
    end)
    (JsArray.distinct [] (map fst leftProps ++ map fst rightProps)).

Variable JSON_parse : string -> Completion Value.
Variable yaml_load : string -> Completion (option Value).

Definition parseContent (content : string) (format : FormatType) : Completion Unknown :=
  if JsString.isEmpty (JsString.trim content) then Normal Undefined
  else
    let actualFormat :=
      match format with
      | auto =>
          if JsString.startsWith (JsString.trim content) "{"
             || JsString.startsWith (JsString.trim content) "["
          then json else yaml
      | _ => format
      end in
    match actualFormat with
    | json =>
        match JSON_parse content with
        | Normal v => Normal (Val v)
        | Throw message => Throw message
        end
    | _ =>
        match yaml_load content with
        | Normal loaded => Normal (documentOf loaded)
        | Throw message => Throw message
        end
    end.

Definition isUndefined (value : Unknown) : bool :=
  match value with Undefined => true | _ => false end.

Definition hasType (t : SemanticChangeType) (c : SemanticChange) : bool :=
  match t, type c with
  | added, added | removed, removed | modified, modified
  | type_changed, type_changed => true
  | _, _ => false
  end.

Definition summarize (changes : list SemanticChange) : Summary :=
  {| s_added := List.length (filter (hasType added) changes);
     s_removed := List.length (filter (hasType removed) changes);
     s_modified := List.length (filter (hasType modified) changes);
     s_typeChanged := List.length (filter (hasType type_changed) changes);
     s_total := List.length changes |}.

(** The result the [catch] block returns. *)
Definition parseErrorResult (message : string) : SemanticDiffResult :=
  {| changes := [ Modified "$" (Val (VString ("Parse error: " ++ message)%string))
                           Undefined ];
     summary := {| s_added := 0; s_removed := 0; s_modified := 1;
                   s_typeChanged := 0; s_total := 1 |};
     isIdentical := false |}.

Definition computeSemanticDiff (leftContent rightContent : string)
           (leftFormat rightFormat : FormatType) (options : DiffOptions)
  : SemanticDiffResult :=
  match parseContent leftContent leftFormat with
  | Throw message => parseErrorResult message
  | Normal leftDoc =>
      match parseContent rightContent rightFormat with
      | Throw message => parseErrorResult message
      | Normal rightDoc =>
          if isUndefined leftDoc && isUndefined rightDoc then
            {| changes := [];
               summary := {| s_added := 0; s_removed := 0; s_modified := 0;
                             s_typeChanged := 0; s_total := 0 |};
               isIdentical := true |}
          else
            let changes :=
              if isUndefined leftDoc then [ Added "$" rightDoc ]
              else if isUndefined rightDoc then [ Removed "$" leftDoc ]
              else compareDeep leftDoc rightDoc EmptyString options in
            {| changes := changes;
               summary := summarize changes;
               isIdentical := List.length changes =? 0 |}
      end
  end.

End Engine.

End SemanticDiff.

(** ** The canonicalizer and the textual diff adapter ([src/utils/diff.ts]) *)

(** A hunk of the library [diff]: [{ value, added, removed }]. *)
Module Change.
Record t : Type := { value : string; added : bool; removed : bool }.
End Change.

Module TextDiff.

Inductive LineType : Type := unchanged | added | removed | modified.

Definition LineType_eqb (a b : LineType) : bool :=
  match a, b with
  | unchanged, unchanged | added, added | removed, removed
  | modified, modified => true
  | _, _ => false
  end.

Inductive WordType : Type := word_unchanged | word_added | word_removed.

Record WordDiff : Type := { value : string; wordType : WordType }.

Record DiffLine : Type := {
  lineNumber : nat;
  content : string;
  type : LineType;
  wordDiff : option (list WordDiff)
}.

Record DiffResult : Type := {
  left : list DiffLine;
  right : list DiffLine;
  hasDifferences : bool;
  addedCount : nat;
  removedCount : nat;
  modifiedCount : nat
}.

Definition sortObjectDeep (obj : Value) : Value := SemanticDiff.sortObjectValue obj.

(** [typeof parsed === 'object' && parsed !== null] *)
Definition isObjectNotNull (parsed : Value) : bool :=
  match parsed with
  | VArray _ | VObject _ => true
  | _ => false
  end.

(** [arr.filter((_, i, arr) => keep i arr)] *)
Fixpoint filterIndexed {A : Type} (keep : nat -> bool) (i : nat) (l : list A) : list A :=
  match l with
  | [] => []
  | x :: l' => if keep i then x :: filterIndexed keep (S i) l' else filterIndexed keep (S i) l'
  end.

(** [lines(change)] of [computeDiff]: the pieces of [change.value] between
    line feeds, without the last piece when the value ends with one. *)
Definition linesOf (change : Change.t) : list string :=
  let arr := JsString.split JsString.LF (Change.value change) in
  filterIndexed
    (fun i => (i <? List.length arr - 1)
              || negb (JsString.endsWith (Change.value change) JsString.LF))
    0 arr.

Definition mkLine (n : nat) (line : string) (t : LineType) : DiffLine :=
  {| lineNumber := n; content := line; type := t; wordDiff := None |}.

(** [line?.type === t] *)
Definition typeIs (t : LineType) (line : option DiffLine) : bool :=
  match line with
  | Some l => LineType_eqb (type l) t
  | None => false
  end.

Definition setWordDiff (line : DiffLine) (w : list WordDiff) : DiffLine :=
  {| lineNumber := lineNumber line; content := content line; type := type line;
     wordDiff := Some w |}.

(** [lines[i] = line], for [i] in range. *)
Fixpoint update (lines : list DiffLine) (i : nat) (line : DiffLine) : list DiffLine :=
  match lines, i with
  | [], _ => []
  | _ :: rest, O => line :: rest
  | l :: rest, S i' => l :: update rest i' line
  end.

(** A line without its word list. *)
Definition plain (line : DiffLine) : DiffLine :=
  {| lineNumber := lineNumber line; content := content line; type := type line;
     wordDiff := None |}.

Definition hasWords (line : DiffLine) : bool :=
  match wordDiff line with Some _ => true | None => false end.

Definition countType (t : LineType) (lines : list DiffLine) : nat :=
  List.length (filter (fun line => LineType_eqb (type line) t) lines).

(** A line as [computeDiff] pushes it: no word list yet. *)
Definition fresh (line : DiffLine) : Prop := wordDiff line = None.

(** The word list of the left line of a pair keeps the removed and the
    common pieces, that of the right line the added (and not removed) and
    the common pieces. *)
Definition leftWord (change : Change.t) : WordDiff :=
  {| value := Change.value change;
     wordType := if Change.removed change then word_removed else word_unchanged |}.
Definition rightWord (change : Change.t) : WordDiff :=
  {| value := Change.value change;
     wordType := if Change.added change then word_added else word_unchanged |}.
Definition onLeft (change : Change.t) : bool :=
  Change.removed change || negb (Change.added change).
Definition onRight (change : Change.t) : bool :=
  negb (Change.removed change).

(** The mutable variables of [computeDiff]. *)
Record Counters : Type := {
  leftLines : list DiffLine;
  rightLines : list DiffLine;
  leftLineNum : nat;
  rightLineNum : nat;
  added_ : nat;
  removed_ : nat;
  modified_ : nat
}.

(** What holds of the variables of [computeDiff] after every hunk. *)
Definition Built (st : Counters) : Prop :=
  Forall fresh (leftLines st) /\ Forall fresh (rightLines st)
  /\ added_ st = countType added (rightLines st)
  /\ removed_ st = countType removed (leftLines st)
  /\ modified_ st = 0.

Section Adapter.

Variable localeCompare : string -> string -> comparison.
Variable JSON_parse : string -> Completion Value.
Variable yaml_load : string -> Completion (option Value).
Variables diffLines diffWords : string -> string -> list Change.t.

Fixpoint sortArraysDeep (obj : Value) : Value :=
  match obj with
  | VArray items =>
      VArray (JsArray.sort
                (fun a b =>
                   let aStr := Json.stringify a in
                   let bStr := Json.stringify b in
                   localeCompare aStr bStr)
                (map sortArraysDeep items))
  | VObject props =>
      VObject (fold_left
                 (fun result (kv : string * Value) =>
                    let (key, value) := kv in
                    JsObject.assign result key (sortArraysDeep value))
                 props [])
  | _ => obj
  end.

(** The parser [normalizeContent] selects, and what it leaves in
    [parsed]. *)
Definition parse (content : string) (format : FormatType) : Completion Unknown :=
  if match format with
     | json => true
     | auto => JsString.startsWith (JsString.trim content) "{"
               || JsString.startsWith (JsString.trim content) "["
     | yaml => false
     end
  then
    match JSON_parse content with
    | Normal v => Normal (Val v)
    | Throw message => Throw message
    end
  else
    match yaml_load content with
    | Normal loaded => Normal (documentOf loaded)
    | Throw message => Throw message
    end.

(** The [catch] block of [normalizeContent]. *)
Definition caught (content : string) (options : DiffOptions) : string :=
  let result := content in
  let result :=
    if ignoreWhitespace options
    then JsString.collapseWhiteSpace result else result in
  let result :=
    if ignoreCase options then JsString.toLowerCase result else result in
  result.

(** [normalizeContent]; [None] is [undefined]. When [parsed] is not a
    value, [JSON.stringify(parsed, null, 2)] is [undefined]: [replace] or
    [toLowerCase] called on it throws a TypeError inside the [try] block,
    which the [catch] block takes over, and with neither option set
    [undefined] is returned as it is. *)
Definition normalizeContent (content : string) (format : FormatType)
           (options : DiffOptions) : option string :=
  match parse content format with
  | Normal (Val parsed) =>
      let parsed :=
        if ignoreKeyOrder options && isObjectNotNull parsed
        then sortObjectDeep parsed else parsed in
      let parsed :=
        if ignoreArrayOrder options && isObjectNotNull parsed
        then sortArraysDeep parsed else parsed in
      let normalized := Json.stringify2 parsed in
      let normalized :=
        if ignoreWhitespace options
        then JsString.collapseWhiteSpace normalized else normalized in
      let normalized :=
        if ignoreCase options then JsString.toLowerCase normalized else normalized in
      Some normalized
  | Normal _ =>
      if ignoreWhitespace options || ignoreCase options
      then Some (caught content options)
      else None
  | Throw _ => Some (caught content options)
  end.

(** The value [normalizeContent] serializes: the parsed value after the
    two optional sorting passes. *)
Definition canonicalValue (options : DiffOptions) (parsed : Value) : Value :=
  let parsed :=
    if ignoreKeyOrder options && isObjectNotNull parsed
    then sortObjectDeep parsed else parsed in
  if ignoreArrayOrder options && isObjectNotNull parsed
  then sortArraysDeep parsed else parsed.

(** The order [sortArraysDeep] sorts the items of an array by. *)
Definition bySerializedForm (a b : Value) : comparison :=
  localeCompare (Json.stringify a) (Json.stringify b).

(** Values in canonical form. Every object has distinct keys, none of them
    [__proto__], in sorted order when [keysSorted] is set; every array is in
    the order of [sortArraysDeep] when [arraysSorted] is set. *)
Fixpoint Canon (keysSorted arraysSorted : bool) (v : Value) : Prop :=
  match v with
  | VArray items =>
      (arraysSorted = true -> JsArray.ordered bySerializedForm items)
      /\ (fix all (l : list Value) : Prop :=
            match l with
            | [] => True
            | x :: l' => Canon keysSorted arraysSorted x /\ all l'
            end) items
  | VObject props =>
      NoDup (map fst props)
      /\ ~ In "__proto__" (map fst props)
      /\ (keysSorted = true -> JsArray.ordered String.compare (map fst props))
      /\ (fix all (l : list (string * Value)) : Prop :=
            match l with
            | [] => True
            | kv :: l' => Canon keysSorted arraysSorted (snd kv) /\ all l'
            end) props
  | _ => True
  end.

(** One iteration of [wordChanges.forEach] on the two lists under
    construction. *)
Definition wordStep (acc : list WordDiff * list WordDiff) (change : Change.t)
  : list WordDiff * list WordDiff :=
  let (leftWords, rightWords) := acc in
  if Change.removed change then
    (leftWords ++ [ {| value := Change.value change; wordType := word_removed |} ],
     rightWords)
  else if Change.added change then
    (leftWords,
     rightWords ++ [ {| value := Change.value change; wordType := word_added |} ])
  else
    (leftWords ++ [ {| value := Change.value change; wordType := word_unchanged |} ],
     rightWords ++ [ {| value := Change.value change; wordType := word_unchanged |} ]).

(** The two [wordDiff] arrays of a removed/added pair. *)
Definition wordDiffs (leftLine rightLine : DiffLine) : list WordDiff * list WordDiff :=
  let wordChanges := diffWords (content leftLine) (content rightLine) in
  fold_left wordStep wordChanges ([], []).

(** The walk of the specification over the lines not yet consumed: a
    removed line on the left facing an added line on the right is a
    pair, and both get their word lists; a removed line facing anything
    else is passed on the left, an added line facing anything else is
    passed on the right, and otherwise both sides move on. *)
Fixpoint greedyPairs (leftLines : list DiffLine) {struct leftLines}
  : list DiffLine -> list DiffLine * list DiffLine :=
  match leftLines with
  | [] => fun rightLines => ([], rightLines)
  | l :: leftRest =>
      fix facing (rightLines : list DiffLine) {struct rightLines}
        : list DiffLine * list DiffLine :=
        match rightLines with
        | [] => (l :: leftRest, [])
        | r :: rightRest =>
            if LineType_eqb (type l) removed && LineType_eqb (type r) added then
              let (leftWords, rightWords) := wordDiffs l r in
              let (ls, rs) := greedyPairs leftRest rightRest in
              (setWordDiff l leftWords :: ls, setWordDiff r rightWords :: rs)
            else if LineType_eqb (type l) removed then
              let (ls, rs) := greedyPairs leftRest rightLines in
              (l :: ls, rs)
            else if LineType_eqb (type r) added then
              let (ls, rs) := facing rightRest in
              (ls, r :: rs)
            else
              let (ls, rs) := greedyPairs leftRest rightRest in
              (l :: ls, r :: rs)
        end
  end.

(** The [while] loop of [computeWordDiff], at most [fuel] iterations;
    the lines are updated in place. *)
Fixpoint wordDiffLoop (fuel : nat) (leftIndex rightIndex : nat)
         (leftLines rightLines : list DiffLine)
  : option (list DiffLine * list DiffLine) :=
  if (leftIndex <? List.length leftLines) || (rightIndex <? List.length rightLines) then
    match fuel with
    | O => None
    | S fuel' =>
        let leftLine := nth_error leftLines leftIndex in
        let rightLine := nth_error rightLines rightIndex in
        match leftLine, rightLine with
        | Some l, Some r =>
            if typeIs removed leftLine && typeIs added rightLine then
              let (leftWords, rightWords) := wordDiffs l r in
              wordDiffLoop fuel' (S leftIndex) (S rightIndex)
                           (update leftLines leftIndex (setWordDiff l leftWords))
                           (update rightLines rightIndex (setWordDiff r rightWords))
            else if typeIs removed leftLine then
              wordDiffLoop fuel' (S leftIndex) rightIndex leftLines rightLines
            else if typeIs added rightLine then
              wordDiffLoop fuel' leftIndex (S rightIndex) leftLines rightLines
            else
              wordDiffLoop fuel' (S leftIndex) (S rightIndex) leftLines rightLines
        | _, _ =>
            if typeIs removed leftLine then
              wordDiffLoop fuel' (S leftIndex) rightIndex leftLines rightLines
            else if typeIs added rightLine then
              wordDiffLoop fuel' leftIndex (S rightIndex) leftLines rightLines
            else
              wordDiffLoop fuel' (S leftIndex) (S rightIndex) leftLines rightLines
        end
    end
  else Some (leftLines, rightLines).

(** [computeWordDiff(leftLines, rightLines)]: every iteration advances an
    index that is in range or ends the loop, so the sum of the lengths
    bounds the iterations. *)
Definition computeWordDiff (leftLines rightLines : list DiffLine)
  : list DiffLine * list DiffLine :=
  match wordDiffLoop (List.length leftLines + List.length rightLines) 0 0
                     leftLines rightLines with
  | Some lines => lines
  | None => (leftLines, rightLines)
  end.

(** One iteration of [changes.forEach] in [computeDiff]. *)
Definition changeStep (st : Counters) (change : Change.t) : Counters :=
  let lines := linesOf change in
  if Change.added change then
    fold_left (fun st line =>
      let rightLineNum := S (rightLineNum st) in
      {| leftLines := leftLines st;
         rightLines := rightLines st ++ [ mkLine rightLineNum line added ];
         leftLineNum := leftLineNum st;
         rightLineNum := rightLineNum;
         added_ := S (added_ st);
         removed_ := removed_ st;
         modified_ := modified_ st |}) lines st
  else if Change.removed change then
    fold_left (fun st line =>
      let leftLineNum := S (leftLineNum st) in
      {| leftLines := leftLines st ++ [ mkLine leftLineNum line removed ];
         rightLines := rightLines st;
         leftLineNum := leftLineNum;
         rightLineNum := rightLineNum st;
         added_ := added_ st;
         removed_ := S (removed_ st);
         modified_ := modified_ st |}) lines st
  else
    fold_left (fun st line =>
      let leftLineNum := S (leftLineNum st) in
      let rightLineNum := S (rightLineNum st) in
      {| leftLines := leftLines st ++ [ mkLine leftLineNum line unchanged ];
         rightLines := rightLines st ++ [ mkLine rightLineNum line unchanged ];
         leftLineNum := leftLineNum;
         rightLineNum := rightLineNum;
         added_ := added_ st;
         removed_ := removed_ st;
         modified_ := modified_ st |}) lines st.

Definition initial : Counters :=
  {| leftLines := []; rightLines := []; leftLineNum := 0; rightLineNum := 0;
     added_ := 0; removed_ := 0; modified_ := 0 |}.

(** The line arrays [computeDiff] has built from the two normalized texts
    when the hunks are consumed. *)
Definition builtLines (normalizedLeft normalizedRight : string) : Counters :=
  fold_left changeStep (diffLines normalizedLeft normalizedRight) initial.

(** What [diff.diffLines] throws when a text is [undefined]: it starts by
    splitting both texts into lines. Only that it is thrown matters
    here, the message is the engine's. *)
Definition typeError : string := "TypeError".

(** [diff.diffLines(normalizedLeft, normalizedRight)] on what
    [normalizeContent] returned. *)
Definition callDiffLines (normalizedLeft normalizedRight : option string)
  : Completion (list Change.t) :=
  match normalizedLeft, normalizedRight with
  | Some l, Some r => Normal (diffLines l r)
  | _, _ => Throw typeError
  end.

(** [computeDiff] has no [try] block: what [diffLines] throws reaches the
    caller. *)
Definition computeDiff (leftContent rightContent : string)
           (leftFormat rightFormat : FormatType) (options : DiffOptions)
  : Completion DiffResult :=
  let normalizedLeft := normalizeContent leftContent leftFormat options in
  let normalizedRight := normalizeContent rightContent rightFormat options in
  match callDiffLines normalizedLeft normalizedRight with
  | Throw message => Throw message
  | Normal changes =>
      let st := fold_left changeStep changes initial in
      let (leftLines, rightLines) :=
        if showWordDiff options
        then computeWordDiff (leftLines st) (rightLines st)
        else (leftLines st, rightLines st) in
      Normal
        {| left := leftLines;
           right := rightLines;
           hasDifferences :=
             (0 <? added_ st) || (0 <? removed_ st) || (0 <? modified_ st);
           addedCount := added_ st;
           removedCount := removed_ st;
           modifiedCount := modified_ st |}
  end.

End Adapter.

End TextDiff.

(** ** A reader for JSON text

    [JSON.parse] on the texts the examples use: the JSON grammar with
    integral numbers and code units 0..255. Other texts (fractions,
    exponents, escapes of higher code units) are outside this reader. *)

Module JsonReader.

Definition isSpace (c : ascii) : bool :=
  let n := JsString.code c in
  (n =? 32) || (n =? 9) || (n =? 10) || (n =? 13).

Fixpoint skipSpace (s : string) : string :=
  match s with
  | EmptyString => EmptyString
  | String c s' => if isSpace c then skipSpace s' else s
  end.

(** [s] without the prefix [lit]. *)
Fixpoint expect (lit s : string) : option string :=
  match lit, s with
  | EmptyString, _ => Some s
  | String a lit', String b s' => if Ascii.eqb a b then expect lit' s' else None
  | _, _ => None
  end.

Definition digit (c : ascii) : option Z :=
  let n := JsString.code c in
  if (48 <=? n) && (n <=? 57) then Some (Z.of_nat (n - 48)) else None.

Definition hexValue (c : ascii) : option nat :=
  let n := JsString.code c in
  if (48 <=? n) && (n <=? 57) then Some (n - 48)
  else if (97 <=? n) && (n <=? 102) then Some (n - 87)
  else if (65 <=? n) && (n <=? 70) then Some (n - 55)
  else None.

Fixpoint readDigits (acc : Z) (count : nat) (s : string) : Z * nat * string :=
  match s with
  | EmptyString => (acc, count, s)
  | String c s' =>
      match digit c with
      | Some d => readDigits (10 * acc + d)%Z (S count) s'
      | None => (acc, count, s)
      end
  end.

Definition startsFraction (s : string) : bool :=
  match s with
  | String c _ =>
      let n := JsString.code c in (n =? 46) || (n =? 101) || (n =? 69)
  | EmptyString => false
  end.

Definition readNumber (s : string) : option (Z * string) :=
  let (negative, body) :=
    match s with
    | String c s' => if JsString.code c =? 45 then (true, s') else (false, s)
    | EmptyString => (false, s)
    end in
  let leadingZero :=
    match body with
    | String c _ => JsString.code c =? 48
    | EmptyString => false
    end in
  match readDigits 0%Z 0 body with
  | (n, count, rest) =>
      if (count =? 0) || (leadingZero && (1 <? count)) || startsFraction rest
      then None
      else Some (if negative then (- n)%Z else n, rest)
  end.

(** The characters of a string literal after its opening quote. *)
Fixpoint readString (s : string) : option (string * string) :=
  let continue (c : ascii) (rest : string) :=
    match readString rest with
    | Some (body, after) => Some (String c body, after)
    | None => None
    end in
  match s with
  | EmptyString => None
  | String c s' =>
      let n := JsString.code c in
      if n =? 34 then Some (EmptyString, s')
      else if n <? 32 then None
      else if n =? 92 then
        match s' with
        | String e s'' =>
            let m := JsString.code e in
            if (m =? 34) || (m =? 92) || (m =? 47) then continue e s''
            else if m =? 98 then continue (ascii_of_nat 8) s''
            else if m =? 102 then continue (ascii_of_nat 12) s''
            else if m =? 110 then continue (ascii_of_nat 10) s''
            else if m =? 114 then continue (ascii_of_nat 13) s''
            else if m =? 116 then continue (ascii_of_nat 9) s''
            else if m =? 117 then
              match s'' with
              | String h1 (String h2 (String h3 (String h4 rest))) =>
                  match hexValue h1, hexValue h2, hexValue h3, hexValue h4 with
                  | Some 0, Some 0, Some a, Some b => continue (ascii_of_nat (16 * a + b)) rest
                  | _, _, _, _ => None
                  end
              | _ => None
              end
            else None
        | EmptyString => None
        end
      else continue c s'
  end.

Fixpoint readValue (fuel : nat) (s : string) {struct fuel} : option (Value * string) :=
  match fuel with
  | O => None
  | S fuel' =>
      match skipSpace s with
      | EmptyString => None
      | String c s' as text =>
          let n := JsString.code c in
          if n =? 34 then
            match readString s' with
            | Some (body, rest) => Some (VString body, rest)
            | None => None
            end
          else if n =? 91 then
            match skipSpace s' with
            | String d rest as items =>
                if JsString.code d =? 93 then Some (VArray [], rest)
                else match readItems fuel' items [] with
                     | Some (vs, rest') => Some (VArray vs, rest')
                     | None => None
                     end
            | EmptyString => None
            end
          else if n =? 123 then
            match skipSpace s' with
            | String d rest as members =>
                if JsString.code d =? 125 then Some (VObject [], rest)
                else match readMembers fuel' members [] with
                     | Some (props, rest') => Some (VObject props, rest')
                     | None => None
                     end
            | EmptyString => None
            end
          else if n =? 110 then
            option_map (fun rest => (VNull, rest)) (expect "null" text)
          else if n =? 116 then
            option_map (fun rest => (VBool true, rest)) (expect "true" text)
          else if n =? 102 then
            option_map (fun rest => (VBool false, rest)) (expect "false" text)
          else
            match readNumber text with
            | Some (z, rest) => Some (VNumber z, rest)
            | None => None
            end
      end
  end

with readItems (fuel : nat) (s : string) (acc : list Value) {struct fuel}
     : option (list Value * string) :=
  match fuel with
  | O => None
  | S fuel' =>
      match readValue fuel' s with
      | Some (v, rest) =>
          match skipSpace rest with
          | String c rest' =>
              if JsString.code c =? 44 then readItems fuel' rest' (acc ++ [v])
              else if JsString.code c =? 93 then Some (acc ++ [v], rest')
              else None
          | EmptyString => None
          end
      | None => None
      end
  end

with readMembers (fuel : nat) (s : string) (acc : JsObject.Props) {struct fuel}
     : option (JsObject.Props * string) :=
  match fuel with
  | O => None
  | S fuel' =>
      match skipSpace s with
      | String q s' =>
          if JsString.code q =? 34 then
            match readString s' with
            | Some (key, rest) =>
                match skipSpace rest with
                | String colon rest' =>
                    if JsString.code colon =? 58 then
                      match readValue fuel' rest' with
                      | Some (v, rest'') =>
                          match skipSpace rest'' with
                          | String c after =>
                              if JsString.code c =? 44
                              then readMembers fuel' after (JsObject.define acc key v)
                              else if JsString.code c =? 125
                              then Some (JsObject.define acc key v, after)
                              else None
                          | EmptyString => None
                          end
                      | None => None
                      end
                    else None
                | EmptyString => None
                end
            | None => None
            end
          else None
      | EmptyString => None
      end
  end.

Definition parse (text : string) : Completion Value :=
  match readValue (2 * String.length text + 2) text with
  | Some (v, rest) =>
      if JsString.isEmpty (skipSpace rest) then Normal v
      else Throw "Unexpected non-whitespace character after JSON"
  | None => Throw "Unexpected token in JSON"
  end.

(** [yaml.load] on the texts the examples use: a blank text holds no
    document, and a JSON text is a YAML document in flow style. *)
Definition load (text : string) : Completion (option Value) :=
  if JsString.isEmpty (JsString.trim text) then Normal None
  else
    match parse text with
    | Normal v => Normal (Some v)
    | Throw message => Throw message
    end.

End JsonReader.

(** ** Notions used in the statements *)

Definition maxOf {A : Type} (f : A -> nat) (l : list A) : nat :=
  fold_right (fun x d => Nat.max (f x) d) 0 l.

(** The order of [keys.sort()]. *)
Definition keyLe (x y : string) : Prop := String.compare x y <> Gt.

(** Distinct keys, none of them [__proto__]. *)
Definition cleanKeys (keys : list string) : Prop :=
  NoDup keys /\ ~ In "__proto__" keys.

(** [Object.entries(obj).forEach(([key, value]) => { result[key] = g(value) })] *)
Definition assignProps (g : Value -> Value) (props target : JsObject.Props) : JsObject.Props :=
  fold_left (fun result (kv : string * Value) =>
               let (key, value) := kv in JsObject.assign result key (g value))
            props target.

(** ** Inputs of the examples *)

Definition arrayOrderIgnored : DiffOptions :=
  {| ignoreKeyOrder := false; ignoreWhitespace := false; ignoreCase := false;
     ignoreArrayOrder := true; syncScroll := true; showWordDiff := false |}.

Definition wordDiffShown : DiffOptions :=
  {| ignoreKeyOrder := false; ignoreWhitespace := false; ignoreCase := false;
     ignoreArrayOrder := false; syncScroll := true; showWordDiff := true |}.

(** The hunks of the texts [a b c] and [a x c], one word to a line, as
    [diff.diffLines] reports them. *)
Definition hunks_abc_axc : list Change.t :=
  [ {| Change.value := "a" ++ JsString.newline; Change.added := false; Change.removed := false |};
    {| Change.value := "b" ++ JsString.newline; Change.added := false; Change.removed := true |};
    {| Change.value := "x" ++ JsString.newline; Change.added := true; Change.removed := false |};
    {| Change.value := "c"; Change.added := false; Change.removed := false |} ]%string.

(** A word diff that reports the old text removed and the new text added. *)
Definition replaceWords (old new : string) : list Change.t :=
  [ {| Change.value := old; Change.added := false; Change.removed := true |};
    {| Change.value := new; Change.added := true; Change.removed := false |} ].

Definition caseIgnored : DiffOptions :=
  {| ignoreKeyOrder := false; ignoreWhitespace := false; ignoreCase := true;
     ignoreArrayOrder := false; syncScroll := true; showWordDiff := false |}.

Definition whitespaceIgnored : DiffOptions :=
  {| ignoreKeyOrder := false; ignoreWhitespace := true; ignoreCase := false;
     ignoreArrayOrder := false; syncScroll := true; showWordDiff := false |}.

(** The JSON text of an object with the keys [a  b] (two spaces) and [a b]. *)
Definition twoSpacedKeys : string :=
  Json.stringify (VObject [ ("a  b", VNumber 1); ("a b", VNumber 2) ]).

(** ** Notions used in the further properties *)

Definition isUnchanged (line : TextDiff.DiffLine) : bool :=
  TextDiff.LineType_eqb (TextDiff.type line) TextDiff.unchanged.

(** What holds of the line arrays of [computeDiff] after every hunk: the
    lines of each side are numbered from 1, the left side holds unchanged
    and removed lines, the right side unchanged and added lines, and the
    unchanged lines are the same texts on both sides. *)
Definition Numbered (st : TextDiff.Counters) : Prop :=
  map TextDiff.lineNumber (TextDiff.leftLines st)
  = seq 1 (List.length (TextDiff.leftLines st))
  /\ TextDiff.leftLineNum st = List.length (TextDiff.leftLines st)
  /\ map TextDiff.lineNumber (TextDiff.rightLines st)
     = seq 1 (List.length (TextDiff.rightLines st))
  /\ TextDiff.rightLineNum st = List.length (TextDiff.rightLines st)
  /\ Forall (fun l => TextDiff.type l = TextDiff.unchanged
                      \/ TextDiff.type l = TextDiff.removed) (TextDiff.leftLines st)
  /\ Forall (fun l => TextDiff.type l = TextDiff.unchanged
                      \/ TextDiff.type l = TextDiff.added) (TextDiff.rightLines st)
  /\ map TextDiff.content (filter isUnchanged (TextDiff.leftLines st))
     = map TextDiff.content (filter isUnchanged (TextDiff.rightLines st)).

(** The text a word list spells. *)
Definition spelled (words : list TextDiff.WordDiff) : string :=
  fold_right (fun w rest => (TextDiff.value w ++ rest)%string) EmptyString words.

(** The text the hunks of one side spell. *)
Definition hunkText (hunks : list Change.t) : string :=
  fold_right (fun c rest => (Change.value c ++ rest)%string) EmptyString hunks.

(** The hunks whose lines [computeDiff] pushes on the left, and on the
    right. *)
Definition leftHunk (change : Change.t) : bool := negb (Change.added change).
Definition rightHunk (change : Change.t) : bool :=
  Change.added change || negb (Change.removed change).

Definition isUnchangedWord (w : TextDiff.WordDiff) : bool :=
  match TextDiff.wordType w with TextDiff.word_unchanged => true | _ => false end.

(** The texts of the unchanged pieces of a word list, in order. *)
Definition unchangedTexts (words : list TextDiff.WordDiff) : list string :=
  map TextDiff.value (filter isUnchangedWord words).

(** A removed line and an added line that carry the two word lists of one
    word diff: the left list has no added piece, the right list no removed
    piece, and the unchanged pieces are the same texts on both sides. *)
Definition Paired (l r : TextDiff.DiffLine) : Prop :=
  TextDiff.type l = TextDiff.removed /\ TextDiff.type r = TextDiff.added
  /\ exists leftWords rightWords,
       TextDiff.wordDiff l = Some leftWords
       /\ TextDiff.wordDiff r = Some rightWords
       /\ Forall (fun w => TextDiff.wordType w <> TextDiff.word_added) leftWords
       /\ Forall (fun w => TextDiff.wordType w <> TextDiff.word_removed) rightWords
       /\ unchangedTexts leftWords = unchangedTexts rightWords.

(** A line diff that reports one common hunk: the left text. *)
Definition oneCommonHunk (old new : string) : list Change.t :=
  [ {| Change.value := old; Change.added := false; Change.removed := false |} ].

(** The shape of a change record: an addition has only a new value and a
    removal only an old value, and the value is a parsed one; a
    modification has two values of the same [getType] and no type names; a
    type change has two values of different [getType] and their type
    names. *)
Definition WellFormed (c : SemanticDiff.SemanticChange) : Prop :=
  match SemanticDiff.type c with
  | SemanticDiff.added =>
      SemanticDiff.oldValue c = None
      /\ (exists v : Value, SemanticDiff.newValue c = Some (Val v))
      /\ SemanticDiff.oldType c = None /\ SemanticDiff.newType c = None
  | SemanticDiff.removed =>
      (exists v : Value, SemanticDiff.oldValue c = Some (Val v))
      /\ SemanticDiff.newValue c = None
      /\ SemanticDiff.oldType c = None /\ SemanticDiff.newType c = None
  | SemanticDiff.modified =>
      (exists old new,
          SemanticDiff.oldValue c = Some old /\ SemanticDiff.newValue c = Some new
          /\ SemanticDiff.getType old = SemanticDiff.getType new)
      /\ SemanticDiff.oldType c = None /\ SemanticDiff.newType c = None
  | SemanticDiff.type_changed =>
      exists old new,
        SemanticDiff.oldValue c = Some old /\ SemanticDiff.newValue c = Some new
        /\ SemanticDiff.getType old <> SemanticDiff.getType new
        /\ SemanticDiff.oldType c = Some (SemanticDiff.getType old)
        /\ SemanticDiff.newType c = Some (SemanticDiff.getType new)
  end.

(** The path of an element or of a property below [path]. *)
Definition childPath (path path' : string) : Prop :=
  (exists i, path' = SemanticDiff.itemPath path i)
  \/ (exists key, path' = SemanticDiff.keyPath path key).

(** The result for two documents without a difference. *)
Definition identicalResult : SemanticDiff.SemanticDiffResult :=
  {| SemanticDiff.changes := [];
     SemanticDiff.summary :=
       {| SemanticDiff.s_added := 0; SemanticDiff.s_removed := 0;
          SemanticDiff.s_modified := 0; SemanticDiff.s_typeChanged := 0;
          SemanticDiff.s_total := 0 |};
     SemanticDiff.isIdentical := true |}.

Section Pairwise.
Context {A B : Type} (f : A -> B -> bool).

(** [f] holds of the elements of two lists of the same length, index by
    index. *)
Fixpoint allPairs (l : list A) (r : list B) : bool :=
  match l, r with
  | [], [] => true
  | x :: l', y :: r' => f x y && allPairs l' r'
  | _, _ => false
  end.
End Pairwise.

Fixpoint distinctKeys (keys : list string) : bool :=
  match keys with
  | [] => true
  | k :: keys' => negb (existsb (String.eqb k) keys') && distinctKeys keys'
  end.

(** Two values that differ at most in the order of the keys of their
    objects, at any depth: equal scalars, arrays of the same length that
    are so related index by index, objects with distinct keys and the same
    key set whose values under each key are so related. *)
Fixpoint sameUpToKeyOrder (a b : Value) : bool :=
  match a, b with
  | VNull, VNull => true
  | VBool x, VBool y => Bool.eqb x y
  | VNumber x, VNumber y => sameNumber x y
  | VString x, VString y => String.eqb x y
  | VArray l, VArray r => allPairs sameUpToKeyOrder l r
  | VObject l, VObject r =>
      distinctKeys (map fst l) && distinctKeys (map fst r)
      && (List.length l =? List.length r)
      && forallb (fun kv : string * Value =>
                    match JsObject.own r (fst kv) with
                    | Some y => sameUpToKeyOrder (snd kv) y
                    | None => false
                    end) l
  | _, _ => false
  end.

(** The same properties in two orders, with nested objects. *)
Definition nested_ab : Value :=
  VObject [ ("a", VNumber 1);
            ("b", VArray [ VObject [ ("x", VNull); ("y", VBool true) ] ]) ].
Definition nested_ba : Value :=
  VObject [ ("b", VArray [ VObject [ ("y", VBool true); ("x", VNull) ] ]);
            ("a", VNumber 1) ].

Definition keyOrderIgnored : DiffOptions :=
  {| ignoreKeyOrder := true; ignoreWhitespace := false; ignoreCase := false;
     ignoreArrayOrder := false; syncScroll := true; showWordDiff := false |}.

(** The value under a new key as a record reports it: key-sorted when
    [ignoreKeyOrder] is set. *)
Definition asCompared (options : DiffOptions) (v : Value) : Value :=
  if ignoreKeyOrder options then SemanticDiff.sortObjectValue v else v.

(** A document as a parser gives it: in every object the keys are
    distinct and none is [__proto__]. *)
Fixpoint cleanValue (v : Value) : bool :=
  match v with
  | VArray items => forallb cleanValue items
  | VObject props =>
      distinctKeys (map fst props)
      && negb (existsb (String.eqb "__proto__") (map fst props))
      && forallb (fun kv : string * Value => cleanValue (snd kv)) props
  | _ => true
  end.

(** A text in which all white space is single spaces between other code
    units: what [trim] and the replacement of white-space runs leave. *)
Fixpoint packed (s : string) : bool :=
  match s with
  | EmptyString => true
  | String c s' =>
      if JsString.isWhiteSpace c
      then Ascii.eqb c " "
           && match s' with
              | EmptyString => false
              | String d _ => negb (JsString.isWhiteSpace d)
              end
           && packed s'
      else packed s'
  end.

(** The text is empty or starts with a code unit that is not white space. *)
Definition headOk (s : string) : bool :=
  match s with
  | EmptyString => true
  | String c _ => negb (JsString.isWhiteSpace c)
  end.

(** ** [formatValue] ([src/utils/semanticDiff.ts])

    [str] is the value itself for a string and [JSON.stringify(value)]
    otherwise, which is [undefined] for a function: reading its [length]
    then throws. [maxLength] is a natural number. *)

Definition fullText (value : Unknown) : option string :=
  match value with
  | Val (VString s) => Some s
  | Val v => Some (Json.stringify v)
  | ObjectPrototype => Some "{}"
  | InheritedFunction _ => None
  | Undefined => None
  end.

Definition formatValue (value : Unknown) (maxLength : nat) : Completion string :=
  match value with
  | Undefined => Normal "undefined"
  | Val VNull => Normal "null"
  | _ =>
      match fullText value with
      | Some str =>
          if maxLength <? String.length str
          then Normal (String.substring 0 maxLength str ++ "...")%string
          else Normal str
      | None => Throw "TypeError: Cannot read properties of undefined (reading 'length')"
      end
  end.

(** ** [getSemanticDiff] and [compareObjects] ([src/utils/diff.ts])

    The second structural comparison of the code base, without options.
    [left === right] on two objects or arrays compares references: the two
    sides are parsed separately, so it does not hold of them. *)

Module Differences.

Inductive DifferenceType : Type := added | removed | modified.

Record Difference : Type := {
  path : string;
  leftValue : Unknown;
  rightValue : Unknown;
  type : DifferenceType
}.

(** [differences.push(...)] as a writer effect, as for [compareDeep]. *)
Definition Effect := option (list Difference).

Definition skip : Effect := Some [].
Definition push (d : Difference) : Effect := Some [d].
Definition andThen (a b : Effect) : Effect :=
  match a, b with
  | Some xs, Some ys => Some (xs ++ ys)
  | _, _ => None
  end.

Fixpoint forEach {A : Type} (l : list A) (body : A -> Effect) : Effect :=
  match l with
  | [] => skip
  | x :: l' => andThen (body x) (forEach l' body)
  end.

(** [typeof value] *)
Definition typeOf (value : Unknown) : string :=
  match value with
  | Undefined => "undefined"
  | Val (VBool _) => "boolean"
  | Val (VNumber _) => "number"
  | Val (VString _) => "string"
  | Val VNull | Val (VArray _) | Val (VObject _) | ObjectPrototype => "object"
  | InheritedFunction _ => "function"
  end.

Definition isArray (value : Unknown) : bool :=
  match value with Val (VArray _) => true | _ => false end.

Definition isNull (value : Unknown) : bool :=
  match value with Val VNull => true | _ => false end.

Definition items (value : Unknown) : list Value :=
  match value with Val (VArray l) => l | _ => [] end.

(** [path || '/'] *)
Definition orSlash (path : string) : string :=
  if JsString.isEmpty path then "/" else path.

(** The body of [compareObjects]; its first argument stands for the
    recursive calls. The object branch is reached by two values that are
    not arrays. *)
Definition compareObjectsBody
           (compareObjects : Unknown -> Unknown -> string -> Effect)
           (left right : Unknown) (path : string) : Effect :=
  if SemanticDiff.strictEqual left right then skip
  else if negb (String.eqb (typeOf left) (typeOf right))
          || negb (Bool.eqb (isArray left) (isArray right)) then
    push {| path := orSlash path; leftValue := left; rightValue := right;
            type := modified |}
  else if isArray left && isArray right then
    let leftItems := items left in
    let rightItems := items right in
    let maxLength := Nat.max (List.length leftItems) (List.length rightItems) in
    forEach (seq 0 maxLength) (fun i =>
      let itemPath := SemanticDiff.itemPath path i in
      if List.length leftItems <=? i then
        push {| path := itemPath; leftValue := Undefined;
                rightValue := JsArray.get rightItems i; type := added |}
      else if List.length rightItems <=? i then
        push {| path := itemPath; leftValue := JsArray.get leftItems i;
                rightValue := Undefined; type := removed |}
      else
        compareObjects (JsArray.get leftItems i) (JsArray.get rightItems i) itemPath)
  else if SemanticDiff.typeofObject left && negb (isNull left) && negb (isNull right) then
    let allKeys := JsArray.distinct [] (JsObject.keys left ++ JsObject.keys right) in
    forEach allKeys (fun key =>
      let keyPath := SemanticDiff.keyPath path key in
      if negb (JsObject.has key left) then
        push {| path := keyPath; leftValue := Undefined;
                rightValue := JsObject.get right key; type := added |}
      else if negb (JsObject.has key right) then
        push {| path := keyPath; leftValue := JsObject.get left key;
                rightValue := Undefined; type := removed |}
      else
        compareObjects (JsObject.get left key) (JsObject.get right key) keyPath)
  else if negb (SemanticDiff.strictEqual left right) then
    push {| path := orSlash path; leftValue := left; rightValue := right;
            type := modified |}
  else skip.

(** [compareObjects] with the call depth bounded by [fuel]; [None] when
    the bound is hit. *)
Fixpoint compareObjectsFuel (fuel : nat) (left right : Unknown) (path : string) : Effect :=
  match fuel with
  | O => None
  | S fuel' => compareObjectsBody (compareObjectsFuel fuel') left right path
  end.

(** The records [compareObjects(left, right, path, differences)] pushes:
    the call depth never exceeds the depth of [left]. *)
Definition compareObjects (left right : Unknown) (path : string) : list Difference :=
  match compareObjectsFuel (S (depthU left)) left right path with
  | Some pushed => pushed
  | None => []
  end.

Section Texts.

Variable JSON_parse : string -> Completion Value.
Variable yaml_load : string -> Completion (option Value).

(** A failure of either parser is caught, and nothing has been pushed
    then. *)
Definition getSemanticDiff (leftContent rightContent : string)
           (leftFormat rightFormat : FormatType) : list Difference :=
  match TextDiff.parse JSON_parse yaml_load leftContent leftFormat with
  | Throw _ => []
  | Normal leftParsed =>
      match TextDiff.parse JSON_parse yaml_load rightContent rightFormat with
      | Throw _ => []
      | Normal rightParsed => compareObjects leftParsed rightParsed EmptyString
      end
  end.

End Texts.

End Differences.

(** A change record of [compareDeep] and a difference of [compareObjects]
    that report the same: the same values, [undefined] for the side a
    record does not have; the same type, a type change being a
    modification for [compareObjects]; the same path, except that the root
    is [$] for one and [/] for the other. *)
Definition Agree (c : SemanticDiff.SemanticChange) (d : Differences.Difference) : Prop :=
  Differences.leftValue d
  = match SemanticDiff.oldValue c with Some v => v | None => Undefined end
  /\ Differences.rightValue d
     = match SemanticDiff.newValue c with Some v => v | None => Undefined end
  /\ Differences.type d
     = match SemanticDiff.type c with
       | SemanticDiff.added => Differences.added
       | SemanticDiff.removed => Differences.removed
       | _ => Differences.modified
       end
  /\ (Differences.path d = SemanticDiff.path c
      \/ (SemanticDiff.path c = "$" /\ Differences.path d = "/")).

(** No option of the comparison is set. *)
Definition plainOptions (options : DiffOptions) : Prop :=
  ignoreKeyOrder options = false /\ ignoreWhitespace options = false
  /\ ignoreCase options = false /\ ignoreArrayOrder options = false.

(** ** The store ([src/store/useAppStore.ts])

    The part of the state that the editors, the history, the snapshots and
    the privacy mode make, with the actions on it; the other fields of the
    state (theme, options, schema, transformer, ...) are changed by setters
    of their own and by no action modelled here. [generateId()] and
    [Date.now()] are read by the caller: an action takes the identifier and
    the time stamp as arguments. A view mode is its string. A store starts
    from [initialState]; the state put back from storage is not
    modelled. *)

Module HistoryItem.
Record t : Type := {
  id : string;
  content : string;
  format : FormatType;
  timestamp : Z
}.
End HistoryItem.

Module Snapshot.
Record t : Type := {
  id : string;
  name : string;
  timestamp : Z;
  leftContent : string;
  leftFormat : FormatType;
  rightContent : option string;
  rightFormat : option FormatType;
  viewMode : string
}.
End Snapshot.

Module Store.

Section Model.

Variable ValidationError : Type.

Record EditorState : Type := {
  content : string;
  format : FormatType;
  isValid : bool;
  errors : list ValidationError;
  lineCount : nat;
  size : nat
}.

Record AppState : Type := {
  viewMode : string;
  leftEditor : EditorState;
  rightEditor : EditorState;
  history : list HistoryItem.t;
  privacyMode : bool;
  snapshots : list Snapshot.t
}.

Definition initialEditorState : EditorState :=
  {| content := EmptyString; format := auto; isValid := true; errors := [];
     lineCount := 0; size := 0 |}.

Definition initialState : AppState :=
  {| viewMode := "format";
     leftEditor := initialEditorState;
     rightEditor := initialEditorState;
     history := [];
     privacyMode := false;
     snapshots := [] |}.

(** [new Blob([content]).size]: the length of the UTF-8 encoding. *)
Fixpoint blobSize (content : string) : nat :=
  match content with
  | EmptyString => 0
  | String c rest => (if JsString.code c <? 128 then 1 else 2) + blobSize rest
  end.

(** [content.split('\n').length] *)
Definition countLines (content : string) : nat :=
  List.length (JsString.split JsString.LF content).

(** [{ ...editor, content, lineCount: ..., size: ... }] *)
Definition withContent (editor : EditorState) (text : string) : EditorState :=
  {| content := text; format := format editor; isValid := isValid editor;
     errors := errors editor; lineCount := countLines text; size := blobSize text |}.

Definition setViewMode (mode : string) (state : AppState) : AppState :=
  {| viewMode := mode; leftEditor := leftEditor state; rightEditor := rightEditor state;
     history := history state; privacyMode := privacyMode state;
     snapshots := snapshots state |}.

Definition setLeftEditor (editor : EditorState) (state : AppState) : AppState :=
  {| viewMode := viewMode state; leftEditor := editor; rightEditor := rightEditor state;
     history := history state; privacyMode := privacyMode state;
     snapshots := snapshots state |}.

Definition setRightEditor (editor : EditorState) (state : AppState) : AppState :=
  {| viewMode := viewMode state; leftEditor := leftEditor state; rightEditor := editor;
     history := history state; privacyMode := privacyMode state;
     snapshots := snapshots state |}.

Definition setHistory (items : list HistoryItem.t) (state : AppState) : AppState :=
  {| viewMode := viewMode state; leftEditor := leftEditor state;
     rightEditor := rightEditor state; history := items;
     privacyMode := privacyMode state; snapshots := snapshots state |}.

Definition setSnapshots (items : list Snapshot.t) (state : AppState) : AppState :=
  {| viewMode := viewMode state; leftEditor := leftEditor state;
     rightEditor := rightEditor state; history := history state;
     privacyMode := privacyMode state; snapshots := items |}.

Definition setLeftContent (text : string) (state : AppState) : AppState :=
  setLeftEditor (withContent (leftEditor state) text) state.

Definition setRightContent (text : string) (state : AppState) : AppState :=
  setRightEditor (withContent (rightEditor state) text) state.

Definition withFormat (editor : EditorState) (f : FormatType) : EditorState :=
  {| content := content editor; format := f; isValid := isValid editor;
     errors := errors editor; lineCount := lineCount editor; size := size editor |}.

Definition setLeftFormat (f : FormatType) (state : AppState) : AppState :=
  setLeftEditor (withFormat (leftEditor state) f) state.

Definition setRightFormat (f : FormatType) (state : AppState) : AppState :=
  setRightEditor (withFormat (rightEditor state) f) state.

Definition withValidation (editor : EditorState) (valid : bool)
           (errs : list ValidationError) : EditorState :=
  {| content := content editor; format := format editor; isValid := valid;
     errors := errs; lineCount := lineCount editor; size := size editor |}.

Definition setLeftValidation (valid : bool) (errs : list ValidationError)
           (state : AppState) : AppState :=
  setLeftEditor (withValidation (leftEditor state) valid errs) state.

Definition setRightValidation (valid : bool) (errs : list ValidationError)
           (state : AppState) : AppState :=
  setRightEditor (withValidation (rightEditor state) valid errs) state.

Definition addToHistory (newId : string) (now : Z) (text : string) (f : FormatType)
           (state : AppState) : AppState :=
  if privacyMode state then state
  else
    let newItem := {| HistoryItem.id := newId; HistoryItem.content := text;
                      HistoryItem.format := f; HistoryItem.timestamp := now |} in
    let newHistory := firstn 10 (newItem :: history state) in
    setHistory newHistory state.

Definition clearHistory (state : AppState) : AppState := setHistory [] state.

Definition swapEditors (state : AppState) : AppState :=
  {| viewMode := viewMode state; leftEditor := rightEditor state;
     rightEditor := leftEditor state; history := history state;
     privacyMode := privacyMode state; snapshots := snapshots state |}.

Definition clearEditors (state : AppState) : AppState :=
  {| viewMode := viewMode state; leftEditor := initialEditorState;
     rightEditor := initialEditorState; history := history state;
     privacyMode := privacyMode state; snapshots := snapshots state |}.

Definition setPrivacyMode (enabled : bool) (state : AppState) : AppState :=
  if enabled then
    {| viewMode := viewMode state; leftEditor := leftEditor state;
       rightEditor := rightEditor state; history := [];
       privacyMode := true; snapshots := snapshots state |}
  else
    {| viewMode := viewMode state; leftEditor := leftEditor state;
       rightEditor := rightEditor state; history := history state;
       privacyMode := false; snapshots := snapshots state |}.

(** [text || undefined] *)
Definition orUndefined (text : string) : option string :=
  if JsString.isEmpty text then None else Some text.

Definition createSnapshot (newId : string) (now : Z) (label : string)
           (state : AppState) : AppState :=
  if privacyMode state then state
  else
    let newSnapshot :=
      {| Snapshot.id := newId;
         Snapshot.name := label;
         Snapshot.timestamp := now;
         Snapshot.leftContent := content (leftEditor state);
         Snapshot.leftFormat := format (leftEditor state);
         Snapshot.rightContent := orUndefined (content (rightEditor state));
         Snapshot.rightFormat := Some (format (rightEditor state));
         Snapshot.viewMode := viewMode state |} in
    let newSnapshots := firstn 30 (newSnapshot :: snapshots state) in
    setSnapshots newSnapshots state.

Definition deleteSnapshot (key : string) (state : AppState) : AppState :=
  setSnapshots
    (filter (fun s => negb (String.eqb (Snapshot.id s) key)) (snapshots state)) state.

(** [snapshot.rightContent ? ... : ...]: the text when it is there and not
    empty. *)
Definition truthy (text : option string) : option string :=
  match text with
  | Some t => if JsString.isEmpty t then None else Some t
  | None => None
  end.

Definition restoreSnapshot (key : string) (state : AppState) : AppState :=
  match find (fun s => String.eqb (Snapshot.id s) key) (snapshots state) with
  | None => state
  | Some snapshot =>
      {| viewMode := Snapshot.viewMode snapshot;
         leftEditor :=
           {| content := Snapshot.leftContent snapshot;
              format := Snapshot.leftFormat snapshot;
              isValid := isValid (leftEditor state);
              errors := errors (leftEditor state);
              lineCount := countLines (Snapshot.leftContent snapshot);
              size := blobSize (Snapshot.leftContent snapshot) |};
         rightEditor :=
           match truthy (Snapshot.rightContent snapshot) with
           | Some text =>
               {| content := text;
                  format := match Snapshot.rightFormat snapshot with
                            | Some f => f
                            | None => auto
                            end;
                  isValid := isValid (rightEditor state);
                  errors := errors (rightEditor state);
                  lineCount := countLines text;
                  size := blobSize text |}
           | None => rightEditor state
           end;
         history := history state;
         privacyMode := privacyMode state;
         snapshots := snapshots state |}
  end.

Definition renameSnapshot (key label : string) (state : AppState) : AppState :=
  setSnapshots
    (map (fun s =>
            if String.eqb (Snapshot.id s) key
            then {| Snapshot.id := Snapshot.id s;
                    Snapshot.name := label;
                    Snapshot.timestamp := Snapshot.timestamp s;
                    Snapshot.leftContent := Snapshot.leftContent s;
                    Snapshot.leftFormat := Snapshot.leftFormat s;
                    Snapshot.rightContent := Snapshot.rightContent s;
                    Snapshot.rightFormat := Snapshot.rightFormat s;
                    Snapshot.viewMode := Snapshot.viewMode s |}
            else s)
         (snapshots state))
    state.

Definition clearSnapshots (state : AppState) : AppState := setSnapshots [] state.

(** What [partialize] keeps of the history, the snapshots and the privacy
    mode for storage. *)
Definition persisted (state : AppState)
  : list HistoryItem.t * list Snapshot.t * bool :=
  if privacyMode state then ([], [], true)
  else (history state, snapshots state, privacyMode state).

(** The actions of the store on this part of the state. *)
Inductive Action : Type :=
| SetViewMode (mode : string)
| SetLeftContent (text : string)
| SetRightContent (text : string)
| SetLeftFormat (f : FormatType)
| SetRightFormat (f : FormatType)
| SetLeftValidation (valid : bool) (errs : list ValidationError)
| SetRightValidation (valid : bool) (errs : list ValidationError)
| AddToHistory (newId : string) (now : Z) (text : string) (f : FormatType)
| ClearHistory
| SwapEditors
| ClearEditors
| SetPrivacyMode (enabled : bool)
| CreateSnapshot (newId : string) (now : Z) (label : string)
| DeleteSnapshot (key : string)
| RestoreSnapshot (key : string)
| RenameSnapshot (key label : string)
| ClearSnapshots.

Definition act (action : Action) (state : AppState) : AppState :=
  match action with
  | SetViewMode mode => setViewMode mode state
  | SetLeftContent text => setLeftContent text state
  | SetRightContent text => setRightContent text state
  | SetLeftFormat f => setLeftFormat f state
  | SetRightFormat f => setRightFormat f state
  | SetLeftValidation valid errs => setLeftValidation valid errs state
  | SetRightValidation valid errs => setRightValidation valid errs state
  | AddToHistory newId now text f => addToHistory newId now text f state
  | ClearHistory => clearHistory state
  | SwapEditors => swapEditors state
  | ClearEditors => clearEditors state
  | SetPrivacyMode enabled => setPrivacyMode enabled state
  | CreateSnapshot newId now label => createSnapshot newId now label state
  | DeleteSnapshot key => deleteSnapshot key state
  | RestoreSnapshot key => restoreSnapshot key state
  | RenameSnapshot key label => renameSnapshot key label state
  | ClearSnapshots => clearSnapshots state
  end.

(** The state after a sequence of actions, the first of the list first. *)
Definition run (actions : list Action) (state : AppState) : AppState :=
  fold_left (fun s a => act a s) actions state.

End Model.

End Store.

(** What every state of the store satisfies: at most 10 history items and
    30 snapshots, and no history in privacy mode. *)
Definition StoreInvariant {E : Type} (state : Store.AppState E) : Prop :=
  List.length (Store.history E state) <= 10
  /\ List.length (Store.snapshots E state) <= 30
  /\ (Store.privacyMode E state = true -> Store.history E state = []).

(** A state of the store with two texts in the editors. *)
Definition twoTexts : Store.AppState nat :=
  Store.setRightContent nat "[2]" (Store.setLeftContent nat "[1]" (Store.initialState nat)).

(** What the comparison of arrays needs of the collation of texts: a text
    that comes after another does not come before it, and coming before or
    together is transitive.  Different texts may collate as equal. *)
Definition collation (cmp : string -> string -> comparison) : Prop :=
  (forall a b, cmp a b = Gt -> cmp b a <> Gt)
  /\ (forall a b c, cmp a b <> Gt -> cmp b c <> Gt -> cmp a c <> Gt).

(** The elements of the list are told apart by the collation of the
    serialized forms of their key-sorted copies: two elements that collate
    as equal have the same key-sorted copy. *)
Definition toldApart (cmp : string -> string -> comparison) (l : list Value) : Prop :=
  forall x y, In x l -> In y l ->
    cmp (Json.stringify (SemanticDiff.sortObjectValue x))
        (Json.stringify (SemanticDiff.sortObjectValue y)) <> Gt ->
    cmp (Json.stringify (SemanticDiff.sortObjectValue y))
        (Json.stringify (SemanticDiff.sortObjectValue x)) <> Gt ->
    SemanticDiff.sortObjectValue x = SemanticDiff.sortObjectValue y.

(** A value without [NaN] at any depth. *)
Fixpoint nanFree (v : Value) : bool :=
  match v with
  | VNumber NaN => false
  | VArray items => forallb nanFree items
  | VObject props => forallb (fun kv : string * Value => nanFree (snd kv)) props
  | _ => true
  end.

Definition nanFreeU (u : Unknown) : bool :=
  match u with
  | Val v => nanFree v
  | _ => true
  end.

(** A value whose numbers [JSON.stringify] prints digit by digit: none is
    [NaN] and none reaches [1e21], from where on a number is printed with
    an exponent. *)
Fixpoint plainNumbers (v : Value) : bool :=
  match v with
  | VNumber (Finite z) => Z.abs z <? 10 ^ 21
  | VNumber NaN => false
  | VArray items => forallb plainNumbers items
  | VObject props => forallb (fun kv : string * Value => plainNumbers (snd kv)) props
  | _ => true
  end%Z.

(** A key made of decimal digits only: among them are the array indices,
    which JavaScript enumerates before the other keys of an object. *)
Definition isDigit (c : ascii) : bool :=
  (48 <=? JsString.code c) && (JsString.code c <=? 57).

Fixpoint allDigits (k : string) : bool :=
  match k with
  | EmptyString => true
  | String c k' => isDigit c && allDigits k'
  end.

Definition digitsOnly (k : string) : bool := negb (JsString.isEmpty k) && allDigits k.

(** A key that an object built by assignment holds as the model has it: not
    [__proto__], whose assignment sets the prototype, and not made of
    digits only. *)
Definition ordinaryKey (k : string) : bool :=
  negb (String.eqb k "__proto__") && negb (digitsOnly k).

(** A value whose objects have ordinary keys only, at any depth. *)
Fixpoint ordinaryKeys (v : Value) : bool :=
  match v with
  | VArray items => forallb ordinaryKeys items
  | VObject props =>
      forallb (fun kv : string * Value => ordinaryKey (fst kv) && ordinaryKeys (snd kv)) props
  | _ => true
  end.

(** ** Notions of the reading back of serialized values *)

(** A value the embedding represents as JavaScript has it, at any depth:
    a number is [NaN] or an integer that a JavaScript number holds exactly
    (up to [Number.MAX_SAFE_INTEGER]), and the keys of an object are
    distinct and ordinary ones, which the object enumerates in the order
    of their creation. *)
Fixpoint representable (v : Value) : bool :=
  match v with
  | VNumber (Finite z) => (Z.abs z <=? 9007199254740991)%Z
  | VArray items => forallb representable items
  | VObject props =>
      distinctKeys (map fst props)
      && forallb (fun kv : string * Value =>
                    ordinaryKey (fst kv) && representable (snd kv)) props
  | _ => true
  end.

(** The first code unit of a number in decimal notation. *)
Definition numberHead (c : ascii) : bool :=
  (JsString.code c =? 45) || ((48 <=? JsString.code c) && (JsString.code c <=? 57)).

(** What the first code unit of a serialized value is: not white space,
    and not a closing bracket. *)
Definition opens (c : ascii) : bool :=
  negb (JsonReader.isSpace c) && negb (JsString.isWhiteSpace c)
  && negb (JsString.code c =? 93).

(** What is read back from the serialized form of a value: [NaN] was
    printed as [null]. *)
Fixpoint reread (v : Value) : Value :=
  match v with
  | VNumber NaN => VNull
  | VArray items => VArray (map reread items)
  | VObject props =>
      VObject (map (fun kv : string * Value => let (k, x) := kv in (k, reread x)) props)
  | _ => v
  end.

(** The recursion depth the reader needs on the serialized form of a
    value: one call per element or property read, nested as the value
    is. *)
Fixpoint cost (v : Value) : nat :=
  match v with
  | VArray items => S (fold_right (fun x c => S (Nat.max (cost x) c)) 0 items)
  | VObject props =>
      S (fold_right (fun (kv : string * Value) c => S (Nat.max (cost (snd kv)) c)) 0 props)
  | _ => 1
  end.

(** A text of spaces and line feeds: the indentation [JSON.stringify]
    prints. *)
Fixpoint blank (s : string) : bool :=
  match s with
  | EmptyString => true
  | String c s' => JsonReader.isSpace c && blank s'
  end.

(** What follows a serialized value in a serialized text: nothing, a
    comma or a line feed. *)
Definition delimited (rest : string) : bool :=
  match rest with
  | EmptyString => true
  | String c _ => (JsString.code c =? 44) || (JsString.code c =? 10)
  end.

(** The number a sequence of decimal digits denotes after the digits that
    gave [acc]. *)
Fixpoint digitsValue (acc : Z) (d : Decimal.uint) : Z :=
  match d with
  | Decimal.Nil => acc
  | Decimal.D0 d' => digitsValue (10 * acc) d'
  | Decimal.D1 d' => digitsValue (10 * acc + 1) d'
  | Decimal.D2 d' => digitsValue (10 * acc + 2) d'
  | Decimal.D3 d' => digitsValue (10 * acc + 3) d'
  | Decimal.D4 d' => digitsValue (10 * acc + 4) d'
  | Decimal.D5 d' => digitsValue (10 * acc + 5) d'
  | Decimal.D6 d' => digitsValue (10 * acc + 6) d'
  | Decimal.D7 d' => digitsValue (10 * acc + 7) d'
  | Decimal.D8 d' => digitsValue (10 * acc + 8) d'
  | Decimal.D9 d' => digitsValue (10 * acc + 9) d'
  end%Z.

(** * Properties *)

(** ** Values, lists and objects *)

Lemma Value_induction (P : Value -> Prop) :
  P VNull ->
  (forall b, P (VBool b)) ->
  (forall n, P (VNumber n)) ->
  (forall s, P (VString s)) ->
  (forall items, Forall P items -> P (VArray items)) ->
  (forall props, Forall (fun kv => P (snd kv)) props -> P (VObject props)) ->
  forall v, P v.
Proof.
  intros Hnull Hbool Hnum Hstr Harr Hobj.
  refine (fix IH (v : Value) : P v :=
            match v with
            | VNull => Hnull
            | VBool b => Hbool b
            | VNumber n => Hnum n
            | VString s => Hstr s
            | VArray items =>
                Harr items
                  ((fix all (l : list Value) : Forall P l :=
                      match l with
                      | [] => Forall_nil _
                      | x :: l' => Forall_cons x (IH x) (all l')
                      end) items)
            | VObject props =>
                Hobj props
                  ((fix all (l : list (string * Value))
                      : Forall (fun kv => P (snd kv)) l :=
                      match l with
                      | [] => Forall_nil _
                      | kv :: l' => Forall_cons kv (IH (snd kv)) (all l')
                      end) props)
            end).
Qed.

Section MaxFold.
Context {A : Type} (f : A -> nat).

Lemma maxOf_In x l : In x l -> f x <= maxOf f l.
Proof.
  induction l as [ | y l IH ]; simpl; [ tauto | ].
  intros [ -> | Hin ]; [ lia | specialize (IH Hin); lia ].
Qed.

Lemma maxOf_le n l : (forall x, In x l -> f x <= n) -> maxOf f l <= n.
Proof.
  induction l as [ | y l IH ]; simpl; intros H; [ lia | ].
  apply Nat.max_lub; [ apply H; now left | apply IH; intros; apply H; now right ].
Qed.
End MaxFold.

Lemma depth_item x items : In x items -> depth x < depth (VArray items).
Proof.
  intros Hin. simpl. apply (maxOf_In depth) in Hin. unfold maxOf in Hin. lia.
Qed.

Lemma depth_prop k x props : In (k, x) props -> depth x < depth (VObject props).
Proof.
  intros Hin. simpl.
  apply (maxOf_In (fun kv : string * Value => depth (snd kv))) in Hin.
  unfold maxOf in Hin. simpl in Hin. lia.
Qed.

Lemma depth_array_le items n :
  (forall x, In x items -> depth x <= n) -> depth (VArray items) <= S n.
Proof.
  intros H. simpl. apply le_n_S. now apply (maxOf_le depth).
Qed.

Lemma depth_object_le props n :
  (forall k x, In (k, x) props -> depth x <= n) -> depth (VObject props) <= S n.
Proof.
  intros H. simpl. apply le_n_S.
  apply (maxOf_le (fun kv : string * Value => depth (snd kv))).
  intros [k x] Hin. simpl. eauto.
Qed.

Section SortFacts.
Context {A : Type} (cmp : A -> A -> comparison).

Lemma insert_perm x l : Permutation (JsArray.insert cmp x l) (x :: l).
Proof.
  induction l as [ | y l IH ]; simpl; [ reflexivity | ].
  destruct (cmp x y); try reflexivity.
  rewrite IH. apply perm_swap.
Qed.

Lemma sort_perm l : Permutation (JsArray.sort cmp l) l.
Proof.
  induction l as [ | x l IH ]; simpl; [ reflexivity | ].
  rewrite insert_perm. now constructor.
Qed.

Lemma sort_length l : List.length (JsArray.sort cmp l) = List.length l.
Proof. apply Permutation_length, sort_perm. Qed.

Lemma sort_In x l : In x (JsArray.sort cmp l) <-> In x l.
Proof.
  split; apply Permutation_in; [ | symmetry ]; apply sort_perm.
Qed.

Lemma sort_ordered_id l : JsArray.ordered cmp l -> JsArray.sort cmp l = l.
Proof.
  induction 1 as [ | x | x y l Hxy Hord IH ]; simpl; try reflexivity.
  simpl in IH. rewrite IH. simpl.
  destruct (cmp x y); congruence.
Qed.

Hypothesis cmp_asym : forall a b, cmp a b = Gt -> cmp b a <> Gt.

Lemma insert_ordered x l :
  JsArray.ordered cmp l -> JsArray.ordered cmp (JsArray.insert cmp x l).
Proof.
  induction 1 as [ | y | y z l Hyz Hord IH ]; simpl.
  - constructor.
  - destruct (cmp x y) eqn:E; repeat constructor; try congruence.
    now apply cmp_asym.
  - destruct (cmp x y) eqn:E.
    + constructor; [ congruence | now constructor ].
    + constructor; [ congruence | now constructor ].
    + simpl in IH. destruct (cmp x z) eqn:E'.
      * constructor; [ now apply cmp_asym | exact IH ].
      * constructor; [ now apply cmp_asym | exact IH ].
      * constructor; [ exact Hyz | exact IH ].
Qed.

Lemma sort_ordered l : JsArray.ordered cmp (JsArray.sort cmp l).
Proof.
  induction l as [ | x l IH ]; simpl; [ constructor | now apply insert_ordered ].
Qed.

Lemma sort_idempotent l : JsArray.sort cmp (JsArray.sort cmp l) = JsArray.sort cmp l.
Proof. apply sort_ordered_id, sort_ordered. Qed.
End SortFacts.

Section ObjectFacts.
Import JsObject.

Lemma own_In props key v : own props key = Some v -> In (key, v) props.
Proof.
  induction props as [ | [k w] props IH ]; simpl; [ discriminate | ].
  destruct (String.eqb k key) eqn:E.
  - apply String.eqb_eq in E. intros [= ->]. left. now subst.
  - intros H. right. auto.
Qed.

Lemma own_None props key : own props key = None <-> ~ In key (map fst props).
Proof.
  induction props as [ | [k w] props IH ]; simpl; [ tauto | ].
  destruct (String.eqb k key) eqn:E.
  - apply String.eqb_eq in E. split; [ discriminate | intros H; exfalso; apply H; now left ].
  - apply String.eqb_neq in E. rewrite IH. tauto.
Qed.

Lemma define_In props key w k v :
  In (k, v) (define props key w) -> In (k, v) props \/ (k = key /\ v = w).
Proof.
  induction props as [ | [k' w'] props IH ]; simpl.
  - intros [ [= <- <-] | [] ]. now right.
  - destruct (String.eqb k' key) eqn:E; simpl.
    + apply String.eqb_eq in E. intros [ [= <- <-] | Hin ]; [ now right | left; now right ].
    + intros [ Heq | Hin ]; [ left; now left | ].
      destruct (IH Hin) as [ ? | ? ]; [ left; now right | now right ].
Qed.

Lemma assign_In props key w k v :
  In (k, v) (assign props key w) -> In (k, v) props \/ (k = key /\ v = w).
Proof.
  unfold assign. destruct (String.eqb key "__proto__"); [ now left | apply define_In ].
Qed.

Lemma assignEach_In keys f target k v :
  In (k, v) (assignEach keys f target) ->
  In (k, v) target \/ (In k keys /\ v = f k).
Proof.
  unfold assignEach. revert target.
  induction keys as [ | key keys IH ]; simpl; intros target Hin; [ now left | ].
  destruct (IH _ Hin) as [ Ht | [Hk Hv] ].
  - destruct (assign_In _ _ _ _ _ Ht) as [ ? | [-> ->] ]; [ now left | right; split; auto ].
  - right; split; auto.
Qed.
End ObjectFacts.

Lemma depth_sortObjectValue v : depth (SemanticDiff.sortObjectValue v) <= depth v.
Proof.
  induction v as [ | b | n | s | items IH | props IH ] using Value_induction;
    try (simpl; lia).
  - cbn [SemanticDiff.sortObjectValue].
    destruct (depth (VArray items)) as [ | d ] eqn:E; [ discriminate | ].
    apply depth_array_le. intros x Hin.
    apply in_map_iff in Hin. destruct Hin as (y & <- & Hy).
    rewrite Forall_forall in IH. specialize (IH y Hy).
    pose proof (depth_item y items Hy). lia.
  - cbn [SemanticDiff.sortObjectValue].
    destruct (depth (VObject props)) as [ | d ] eqn:E; [ discriminate | ].
    apply depth_object_le. intros k x Hin.
    apply assignEach_In in Hin. destruct Hin as [ [] | [_ ->] ].
    destruct (JsObject.own _ k) as [ y | ] eqn:Eo; [ | simpl; lia ].
    apply own_In in Eo. apply in_map_iff in Eo.
    destruct Eo as ([k' z] & [= <- <-] & Hz).
    rewrite Forall_forall in IH. specialize (IH _ Hz). simpl in IH.
    pose proof (depth_prop _ _ _ Hz). lia.
Qed.

(** ** Helpers of the semantic diff engine *)

Section HelperFacts.
Import SemanticDiff.

Lemma get_inherited_depth key :
  key <> "__proto__" -> depthU (JsObject.get (Val (VObject [])) key) = 0.
Proof.
  intros Hk. simpl. destruct (JsObject.isPrototypeFunction key); [ reflexivity | ].
  apply String.eqb_neq in Hk. now rewrite Hk.
Qed.

Lemma get_prop_depth obj key : plainObject obj -> depthU (JsObject.get obj key) < depthU obj.
Proof.
  destruct obj as [ | [ | | | | | props ] | | ]; try (simpl; tauto); intros _.
  - cbn [JsObject.get].
    destruct (JsObject.own props key) as [ v | ] eqn:E.
    + apply own_In in E. apply depth_prop in E. simpl in *. lia.
    + destruct (JsObject.isPrototypeFunction key); [ simpl; lia | ].
      destruct (String.eqb key "__proto__"); simpl; lia.
  - cbn [JsObject.get].
    destruct (JsObject.isPrototypeFunction key); [ simpl; lia | ].
    destruct (String.eqb key "__proto__"); simpl; lia.
Qed.

Lemma define_keys props key w k :
  In k (map fst (JsObject.define props key w)) <-> In k (map fst props) \/ k = key.
Proof.
  induction props as [ | [k' w'] props IH ]; simpl.
  - intuition.
  - destruct (String.eqb k' key) eqn:E; simpl.
    + apply String.eqb_eq in E. subst. intuition (subst; auto).
    + rewrite IH. tauto.
Qed.

Lemma assign_keys props key w k :
  In k (map fst (JsObject.assign props key w))
  <-> In k (map fst props) \/ (k = key /\ key <> "__proto__").
Proof.
  unfold JsObject.assign. destruct (String.eqb key "__proto__") eqn:E.
  - apply String.eqb_eq in E. intuition congruence.
  - apply String.eqb_neq in E. rewrite define_keys. intuition.
Qed.

Lemma assignEach_keys keys f target k :
  In k (map fst (JsObject.assignEach keys f target))
  <-> In k (map fst target) \/ (In k keys /\ k <> "__proto__").
Proof.
  unfold JsObject.assignEach. revert target.
  induction keys as [ | key keys IH ]; intros target; simpl; [ tauto | ].
  rewrite IH, assign_keys. intuition (subst; auto).
Qed.

Lemma sortObject_keys u key :
  In key (JsObject.keys (sortObject u)) ->
  In key (JsObject.keys u) /\ key <> "__proto__".
Proof.
  destruct u as [ | [ | | | | items | props ] | | ]; simpl; try tauto.
  intros Hin. change (In key (map fst (JsObject.assignEach
    (JsArray.sort String.compare (map fst props))
    (fun key => match JsObject.own
                        (map (fun kv : string * Value =>
                                let (k, x) := kv in (k, sortObjectValue x)) props) key with
                | Some x => x
                | None => VNull
                end) []))) in Hin.
  apply assignEach_keys in Hin. destruct Hin as [ [] | [Hin Hne] ].
  apply sort_In in Hin. tauto.
Qed.

Lemma sortObject_get_depth u key :
  plainObject u -> In key (JsObject.keys (sortObject u)) \/ key <> "__proto__" ->
  depthU (JsObject.get (sortObject u) key) < depthU u.
Proof.
  intros Hplain Hkey.
  destruct u as [ | [ | | | | | props ] | | ]; try (simpl in Hplain; tauto).
  - pose proof (get_prop_depth (sortObject (Val (VObject props))) key I) as H.
    pose proof (depth_sortObjectValue (VObject props)) as H'.
    change (depthU (sortObject (Val (VObject props))))
      with (2 * depth (sortObjectValue (VObject props))) in H.
    change (depthU (Val (VObject props))) with (2 * depth (VObject props)). lia.
  - change (sortObject ObjectPrototype) with (Val (VObject [])) in *.
    rewrite get_inherited_depth; [ simpl; lia | ].
    destruct Hkey as [ [] | Hne ]. exact Hne.
Qed.

Lemma distinct_In seen l k : In k (JsArray.distinct seen l) -> In k l.
Proof.
  revert seen. induction l as [ | x l IH ]; simpl; intros seen; [ tauto | ].
  destruct (existsb (String.eqb x) seen).
  - intros H. right. eauto.
  - intros [ -> | H ]; [ now left | right; eauto ].
Qed.

Lemma forEach_ext {A : Type} (l : list A) (f g : A -> Effect) :
  (forall x, In x l -> f x = g x) -> forEach l f = forEach l g.
Proof.
  induction l as [ | x l IH ]; simpl; intros H; [ reflexivity | ].
  rewrite (H x) by now left. rewrite IH; [ reflexivity | ].
  intros; apply H; now right.
Qed.

Lemma forEach_Some {A : Type} (l : list A) (g : A -> list SemanticChange) :
  forEach l (fun x => Some (g x)) = Some (flat_map g l).
Proof.
  induction l as [ | x l IH ]; simpl; [ reflexivity | ]. now rewrite IH.
Qed.

Lemma forEach_pushes {A : Type} (l : list A) (body : A -> Effect)
      (g : A -> list SemanticChange) :
  (forall x, In x l -> body x = Some (g x)) -> forEach l body = Some (flat_map g l).
Proof.
  intros H. rewrite <- forEach_Some. now apply forEach_ext.
Qed.


Lemma flat_map_ext_In {A B : Type} (f g : A -> list B) (l : list A) :
  (forall x, In x l -> f x = g x) -> flat_map f l = flat_map g l.
Proof.
  induction l as [ | x l IH ]; simpl; intros H; [ reflexivity | ].
  rewrite (H x) by now left. rewrite IH; [ reflexivity | ].
  intros; apply H; now right.
Qed.

Lemma distinct_In_iff seen l k :
  In k (JsArray.distinct seen l) <-> In k l /\ ~ In k seen.
Proof.
  revert seen. induction l as [ | x l IH ]; simpl; intros seen; [ tauto | ].
  destruct (existsb (String.eqb x) seen) eqn:E.
  - apply existsb_exists in E. destruct E as (y & Hy & Exy).
    apply String.eqb_eq in Exy. subst y. rewrite IH.
    intuition congruence.
  - assert (Hx : ~ In x seen).
    { intros Hin. enough (existsb (String.eqb x) seen = true) by congruence.
      apply existsb_exists. exists x. split; [ exact Hin | apply String.eqb_refl ]. }
    simpl. rewrite IH. simpl.
    destruct (string_dec x k) as [ -> | Hne ]; tauto.
Qed.

Lemma distinct_NoDup seen l : NoDup (JsArray.distinct seen l).
Proof.
  revert seen. induction l as [ | x l IH ]; simpl; intros seen; [ constructor | ].
  destruct (existsb (String.eqb x) seen); [ apply IH | ].
  constructor; [ | apply IH ].
  rewrite distinct_In_iff. simpl. tauto.
Qed.

Lemma distinct_app_comm a b :
  Permutation (JsArray.distinct [] (a ++ b)) (JsArray.distinct [] (b ++ a)).
Proof.
  apply NoDup_Permutation; try apply distinct_NoDup.
  intros k. rewrite !distinct_In_iff, !in_app_iff. simpl. tauto.
Qed.

Lemma strictEqual_sym a b : strictEqual a b = strictEqual b a.
Proof.
  destruct a as [ | [ | ? | ? | ? | ? | ? ] | ? | ];
    destruct b as [ | [ | ? | ? | ? | ? | ? ] | ? | ]; simpl; try reflexivity.
  - now destruct b, b0.
  - destruct n, n0; try reflexivity. apply Z.eqb_sym.
  - apply String.eqb_sym.
  - apply String.eqb_sym.
Qed.

Lemma map_flat_map {A B C : Type} (f : B -> C) (g : A -> list B) (l : list A) :
  map f (flat_map g l) = flat_map (fun x => map f (g x)) l.
Proof.
  induction l as [ | x l IH ]; simpl; [ reflexivity | ].
  now rewrite map_app, IH.
Qed.

Lemma Permutation_flat_map_pointwise {A B : Type} (f g : A -> list B) (l : list A) :
  (forall x, In x l -> Permutation (f x) (g x)) ->
  Permutation (flat_map f l) (flat_map g l).
Proof.
  induction l as [ | x l IH ]; simpl; intros H; [ constructor | ].
  apply Permutation_app; [ apply H; now left | apply IH; intros; apply H; now right ].
Qed.

Lemma filter_length_perm {A : Type} (f : A -> bool) (l l' : list A) :
  Permutation l l' -> List.length (filter f l) = List.length (filter f l').
Proof.
  induction 1 as [ | x l l' _ IH | x y l | l l' l'' _ IH1 _ IH2 ]; simpl.
  - reflexivity.
  - destruct (f x); simpl; congruence.
  - destruct (f x), (f y); reflexivity.
  - congruence.
Qed.

Lemma count_swapSides t cs :
  List.length (filter (hasType t) (map swapSides cs))
  = List.length (filter (hasType (otherSide t)) cs).
Proof.
  induction cs as [ | c cs IH ]; simpl; [ reflexivity | ].
  replace (hasType t (swapSides c)) with (hasType (otherSide t) c)
    by (unfold hasType, swapSides; destruct t, (type c); reflexivity).
  destruct (hasType (otherSide t) c); simpl; congruence.
Qed.

Lemma trimStart_whiteSpaceOnly s :
  JsString.whiteSpaceOnly s = true -> JsString.trimStart s = EmptyString.
Proof.
  induction s as [ | c s IH ]; simpl; [ reflexivity | ].
  destruct (JsString.isWhiteSpace c); simpl; [ exact IH | discriminate ].
Qed.

Lemma trimEnd_empty s :
  JsString.trimEnd s = EmptyString -> JsString.whiteSpaceOnly s = true.
Proof.
  induction s as [ | c s IH ]; simpl; [ reflexivity | ].
  destruct (JsString.trimEnd s) eqn:E; [ | discriminate ].
  destruct (JsString.isWhiteSpace c); [ intros _; now apply IH | discriminate ].
Qed.

Lemma trimStart_whiteSpaceOnly_inv s :
  JsString.whiteSpaceOnly (JsString.trimStart s) = true ->
  JsString.whiteSpaceOnly s = true.
Proof.
  induction s as [ | c s IH ]; simpl; [ reflexivity | ].
  destruct (JsString.isWhiteSpace c) eqn:E; simpl; [ exact IH | ].
  now rewrite E.
Qed.

(** [!content.trim()] holds exactly of the empty and white-space-only
    texts. *)
Lemma blank_iff content :
  JsString.isEmpty (JsString.trim content) = true
  <-> JsString.whiteSpaceOnly content = true.
Proof.
  unfold JsString.trim. split.
  - intros H. apply trimStart_whiteSpaceOnly_inv, trimEnd_empty.
    now destruct (JsString.trimEnd (JsString.trimStart content)).
  - intros H. now rewrite (trimStart_whiteSpaceOnly _ H).
Qed.

Lemma nanFree_sortObjectValue v :
  nanFree v = true -> nanFree (SemanticDiff.sortObjectValue v) = true.
Proof.
  induction v as [ | b | n | s | items IH | props IH ] using Value_induction;
    intros H; try exact H.
  - cbn [SemanticDiff.sortObjectValue nanFree] in *. rewrite forallb_forall in *.
    intros x Hx. apply in_map_iff in Hx. destruct Hx as (y & <- & Hy).
    rewrite Forall_forall in IH. apply (IH _ Hy), (H _ Hy).
  - cbn [SemanticDiff.sortObjectValue nanFree] in *. rewrite forallb_forall in *.
    intros [k x] Hin. cbn [snd]. apply assignEach_In in Hin.
    destruct Hin as [ [] | (_ & ->) ].
    destruct (JsObject.own _ k) as [ y | ] eqn:E; [ | reflexivity ].
    apply own_In, in_map_iff in E. destruct E as ([k' z] & [= <- <-] & Hz).
    rewrite Forall_forall in IH. apply (IH _ Hz), (H _ Hz).
Qed.

Lemma nanFree_sortObject u :
  nanFreeU u = true -> nanFreeU (SemanticDiff.sortObject u) = true.
Proof.
  destruct u as [ | v | f | ]; cbn; try reflexivity. apply nanFree_sortObjectValue.
Qed.

Lemma nanFree_get obj key : nanFreeU obj = true -> nanFreeU (JsObject.get obj key) = true.
Proof.
  destruct obj as [ | [ | b | n | s | items | props ] | f | ]; cbn [JsObject.get];
    try reflexivity.
  - intros H. destruct (JsObject.own props key) as [ v | ] eqn:E.
    + apply own_In in E. cbn in H. rewrite forallb_forall in H. apply (H _ E).
    + destruct (JsObject.isPrototypeFunction key); [ reflexivity | ].
      now destruct (String.eqb key "__proto__").
  - intros _. destruct (JsObject.isPrototypeFunction key); [ reflexivity | ].
    now destruct (String.eqb key "__proto__").
Qed.

Lemma nanFree_item items x :
  nanFree (VArray items) = true -> In x items -> nanFree x = true.
Proof. cbn. rewrite forallb_forall. auto. Qed.

End HelperFacts.

(** ** The semantic diff engine *)

Section EngineFacts.
Import SemanticDiff.

Variable localeCompare : string -> string -> comparison.

Local Abbreviation sortArray := (SemanticDiff.sortArray localeCompare).
Local Abbreviation compareDeepBody := (SemanticDiff.compareDeepBody localeCompare).
Local Abbreviation compareDeepFuel := (SemanticDiff.compareDeepFuel localeCompare).
Local Abbreviation compareDeep := (SemanticDiff.compareDeep localeCompare).


Lemma sortArray_In x l :
  In x (sortArray l) -> exists y, In y l /\ x = sortObjectValue y.
Proof.
  intros Hin. apply sort_In in Hin. apply in_map_iff in Hin.
  destruct Hin as (y & <- & Hy). eauto.
Qed.

Lemma sortArray_depth x l : In x (sortArray l) -> depth x < depth (VArray l).
Proof.
  intros Hin. apply sortArray_In in Hin. destruct Hin as (y & Hy & ->).
  pose proof (depth_sortObjectValue y). pose proof (depth_item _ _ Hy). lia.
Qed.

Lemma get_item_depth arr i d :
  (forall x, In x arr -> depth x < d) -> i < List.length arr ->
  depthU (JsArray.get arr i) < 2 * d.
Proof.
  intros H Hi. unfold JsArray.get.
  destruct (nth_error arr i) as [ x | ] eqn:E.
  - apply nth_error_In in E. apply H in E. simpl. lia.
  - apply nth_error_None in E. lia.
Qed.

(** The body of [compareDeep] asks its recursive calls only about values
    nested in [left]. *)
Lemma compareDeepBody_ext rec1 rec2 left right path options :
  (forall l r p, depthU l < depthU left -> rec1 l r p options = rec2 l r p options) ->
  compareDeepBody rec1 left right path options
  = compareDeepBody rec2 left right path options.
Proof.
  intros H. unfold SemanticDiff.compareDeepBody.
  destruct (negb (String.eqb (getType left) (getType right))) eqn:E; [ reflexivity | ].
  assert (Harr : forall a b,
             left = Val (VArray a) ->
             forEach (seq 0 (Nat.max (List.length (if ignoreArrayOrder options then sortArray a else a))
                                     (List.length (if ignoreArrayOrder options then sortArray b else b))))
               (fun i =>
                  if List.length (if ignoreArrayOrder options then sortArray a else a) <=? i
                  then push (Added (itemPath path i)
                               (JsArray.get (if ignoreArrayOrder options then sortArray b else b) i))
                  else if List.length (if ignoreArrayOrder options then sortArray b else b) <=? i
                  then push (Removed (itemPath path i)
                               (JsArray.get (if ignoreArrayOrder options then sortArray a else a) i))
                  else rec1 (JsArray.get (if ignoreArrayOrder options then sortArray a else a) i)
                            (JsArray.get (if ignoreArrayOrder options then sortArray b else b) i)
                            (itemPath path i) options)
             = forEach (seq 0 (Nat.max (List.length (if ignoreArrayOrder options then sortArray a else a))
                                     (List.length (if ignoreArrayOrder options then sortArray b else b))))
               (fun i =>
                  if List.length (if ignoreArrayOrder options then sortArray a else a) <=? i
                  then push (Added (itemPath path i)
                               (JsArray.get (if ignoreArrayOrder options then sortArray b else b) i))
                  else if List.length (if ignoreArrayOrder options then sortArray b else b) <=? i
                  then push (Removed (itemPath path i)
                               (JsArray.get (if ignoreArrayOrder options then sortArray a else a) i))
                  else rec2 (JsArray.get (if ignoreArrayOrder options then sortArray a else a) i)
                            (JsArray.get (if ignoreArrayOrder options then sortArray b else b) i)
                            (itemPath path i) options)).
  { intros a b ->.
    set (la := if ignoreArrayOrder options then sortArray a else a).
    set (lb := if ignoreArrayOrder options then sortArray b else b).
    apply forEach_ext. intros i _.
    destruct (List.length la <=? i) eqn:Ea; [ reflexivity | ].
    destruct (List.length lb <=? i) eqn:Eb; [ reflexivity | ].
    apply H. apply Nat.leb_gt in Ea.
    change (depthU (Val (VArray a))) with (2 * depth (VArray a)).
    apply get_item_depth; [ | exact Ea ].
    subst la. destruct (ignoreArrayOrder options); intros x Hx;
      [ now apply sortArray_depth | now apply depth_item ]. }
  assert (Hobj : plainObject left ->
             forEach (JsArray.distinct []
                        (JsObject.keys (if ignoreKeyOrder options then sortObject left else left)
                         ++ JsObject.keys (if ignoreKeyOrder options then sortObject right else right)))
               (fun key =>
                  if negb (JsObject.has key (if ignoreKeyOrder options then sortObject left else left))
                     && JsObject.has key (if ignoreKeyOrder options then sortObject right else right)
                  then push (Added (keyPath path key)
                               (JsObject.get (if ignoreKeyOrder options then sortObject right else right) key))
                  else if JsObject.has key (if ignoreKeyOrder options then sortObject left else left)
                          && negb (JsObject.has key (if ignoreKeyOrder options then sortObject right else right))
                  then push (Removed (keyPath path key)
                               (JsObject.get (if ignoreKeyOrder options then sortObject left else left) key))
                  else rec1 (JsObject.get (if ignoreKeyOrder options then sortObject left else left) key)
                            (JsObject.get (if ignoreKeyOrder options then sortObject right else right) key)
                            (keyPath path key) options)
             = forEach (JsArray.distinct []
                        (JsObject.keys (if ignoreKeyOrder options then sortObject left else left)
                         ++ JsObject.keys (if ignoreKeyOrder options then sortObject right else right)))
               (fun key =>
                  if negb (JsObject.has key (if ignoreKeyOrder options then sortObject left else left))
                     && JsObject.has key (if ignoreKeyOrder options then sortObject right else right)
                  then push (Added (keyPath path key)
                               (JsObject.get (if ignoreKeyOrder options then sortObject right else right) key))
                  else if JsObject.has key (if ignoreKeyOrder options then sortObject left else left)
                          && negb (JsObject.has key (if ignoreKeyOrder options then sortObject right else right))
                  then push (Removed (keyPath path key)
                               (JsObject.get (if ignoreKeyOrder options then sortObject left else left) key))
                  else rec2 (JsObject.get (if ignoreKeyOrder options then sortObject left else left) key)
                            (JsObject.get (if ignoreKeyOrder options then sortObject right else right) key)
                            (keyPath path key) options)).
  { intros Hplain.
    set (lo := if ignoreKeyOrder options then sortObject left else left).
    set (ro := if ignoreKeyOrder options then sortObject right else right).
    apply forEach_ext. intros key Hkey.
    destruct (negb (JsObject.has key lo) && JsObject.has key ro); [ reflexivity | ].
    destruct (JsObject.has key lo && negb (JsObject.has key ro)); [ reflexivity | ].
    apply H. subst lo ro.
    destruct (ignoreKeyOrder options).
    - apply sortObject_get_depth; [ exact Hplain | ].
      apply distinct_In, in_app_or in Hkey.
      destruct Hkey as [ Hkey | Hkey ]; [ now left | right ].
      now apply sortObject_keys in Hkey.
    - now apply get_prop_depth. }
  destruct left as [ | [ | ? | ? | ? | a | p ] | ? | ];
    destruct right as [ | [ | ? | ? | ? | a' | p' ] | ? | ];
    try reflexivity; try (simpl in E; discriminate).
  - now apply Harr.
  - now apply Hobj.
  - now apply Hobj.
  - now apply Hobj.
  - now apply Hobj.
Qed.

(** When the recursive calls return, so does the call, with the records
    [pushedBy] lists. *)
Lemma compareDeepBody_total records left right path options :
  compareDeepBody (fun l r p o => Some (records l r p o)) left right path options
  = Some (pushedBy localeCompare records left right path options).
Proof.
  unfold SemanticDiff.compareDeepBody, SemanticDiff.pushedBy.
  destruct (negb (String.eqb (getType left) (getType right))) eqn:E; [ reflexivity | ].
  assert (Hobj :
    forall lo ro,
      forEach (JsArray.distinct [] (JsObject.keys lo ++ JsObject.keys ro))
        (fun key =>
           if negb (JsObject.has key lo) && JsObject.has key ro
           then push (Added (keyPath path key) (JsObject.get ro key))
           else if JsObject.has key lo && negb (JsObject.has key ro)
           then push (Removed (keyPath path key) (JsObject.get lo key))
           else Some (records (JsObject.get lo key) (JsObject.get ro key)
                        (keyPath path key) options))
      = Some (flat_map (fun key =>
           if negb (JsObject.has key lo) && JsObject.has key ro
           then [ Added (keyPath path key) (JsObject.get ro key) ]
           else if JsObject.has key lo && negb (JsObject.has key ro)
           then [ Removed (keyPath path key) (JsObject.get lo key) ]
           else records (JsObject.get lo key) (JsObject.get ro key)
                  (keyPath path key) options)
          (JsArray.distinct [] (JsObject.keys lo ++ JsObject.keys ro)))).
  { intros lo ro. apply forEach_pushes. intros key _.
    destruct (negb (JsObject.has key lo) && JsObject.has key ro); [ reflexivity | ].
    destruct (JsObject.has key lo && negb (JsObject.has key ro)); reflexivity. }
  destruct left as [ | [ | ? | ? | ? | a | p ] | ? | ];
    destruct right as [ | [ | ? | ? | ? | a' | p' ] | ? | ];
    try reflexivity; try (simpl in E; discriminate);
    try (cbn [typeofObject andb]; apply Hobj).
  all: try (cbn [strictEqual normalizeValue typeofObject andb negb];
            match goal with |- context [ if ?c then _ else _ ] => destruct c end;
            reflexivity).
  set (la := if ignoreArrayOrder options then sortArray a else a).
  set (lb := if ignoreArrayOrder options then sortArray a' else a').
  apply forEach_pushes. intros i _.
  destruct (List.length la <=? i); [ reflexivity | ].
  destruct (List.length lb <=? i); reflexivity.
Qed.

Lemma compareDeepFuel_returns fuel :
  forall left right path options,
    depthU left < fuel -> compareDeepFuel fuel left right path options <> None.
Proof.
  induction fuel as [ | fuel IH ]; intros left right path options Hd; [ lia | ].
  cbn [SemanticDiff.compareDeepFuel].
  rewrite (compareDeepBody_ext _
             (fun l r p o => Some (match compareDeepFuel fuel l r p o with
                                   | Some cs => cs
                                   | None => []
                                   end))).
  - rewrite compareDeepBody_total. discriminate.
  - intros l r p Hl. specialize (IH l r p options ltac:(lia)).
    destruct (compareDeepFuel fuel l r p options); congruence.
Qed.

Lemma compareDeepFuel_irrelevant fuel :
  forall fuel' left right path options,
    depthU left < fuel -> depthU left < fuel' ->
    compareDeepFuel fuel left right path options
    = compareDeepFuel fuel' left right path options.
Proof.
  induction fuel as [ | fuel IH ]; intros [ | fuel' ] left right path options H H';
    try lia.
  cbn [SemanticDiff.compareDeepFuel].
  apply compareDeepBody_ext. intros l r p Hl. apply IH; lia.
Qed.

(** Enough fuel gives the result: the call returns, with the records
    [compareDeep] names. *)
Lemma compareDeepFuel_enough fuel left right path options :
  depthU left < fuel ->
  compareDeepFuel fuel left right path options
  = Some (compareDeep left right path options).
Proof.
  intros H. unfold SemanticDiff.compareDeep.
  rewrite (compareDeepFuel_irrelevant fuel (S (depthU left))) by lia.
  pose proof (compareDeepFuel_returns (S (depthU left)) left right path options) as Hr.
  destruct (compareDeepFuel (S (depthU left)) left right path options);
    [ reflexivity | exfalso; apply Hr; [ lia | reflexivity ] ].
Qed.

(** The equation of [compareDeep]. *)
Lemma compareDeep_eq left right path options :
  compareDeep left right path options
  = pushedBy localeCompare compareDeep left right path options.
Proof.
  pose proof (compareDeepFuel_enough (S (depthU left)) left right path options
                ltac:(lia)) as H.
  cbn [SemanticDiff.compareDeepFuel] in H.
  rewrite (compareDeepBody_ext _ (fun l r p o => Some (compareDeep l r p o))) in H.
  - rewrite compareDeepBody_total in H. now injection H as <-.
  - intros l r p Hl. now apply compareDeepFuel_enough.
Qed.

(** *** Kind mismatch *)


(** *** Scalars *)


(** *** Arrays *)

Lemma compareDeep_arrays (l r : list Value) (path : string) (options : DiffOptions) :
  compareDeep (VArray l) (VArray r) path options
  = pairByIndex (fun x y p => compareDeep x y p options) path
      (if ignoreArrayOrder options then sortArray l else l)
      (if ignoreArrayOrder options then sortArray r else r).
Proof.
  rewrite compareDeep_eq. unfold pushedBy, pairByIndex.
  change (negb (String.eqb (getType (Val (VArray l))) (getType (Val (VArray r)))))
    with false. cbv iota.
  set (la := if ignoreArrayOrder options then sortArray l else l).
  set (lb := if ignoreArrayOrder options then sortArray r else r).
  apply flat_map_ext_In. intros i Hi. apply in_seq in Hi.
  unfold JsArray.get.
  destruct (nth_error la i) as [ x | ] eqn:Ea;
    destruct (nth_error lb i) as [ y | ] eqn:Eb.
  - assert (i < List.length la) by (apply nth_error_Some; congruence).
    assert (i < List.length lb) by (apply nth_error_Some; congruence).
    destruct (List.length la <=? i) eqn:La; [ apply Nat.leb_le in La; lia | ].
    destruct (List.length lb <=? i) eqn:Lb; [ apply Nat.leb_le in Lb; lia | ].
    reflexivity.
  - assert (i < List.length la) by (apply nth_error_Some; congruence).
    apply nth_error_None in Eb.
    destruct (List.length la <=? i) eqn:La; [ apply Nat.leb_le in La; lia | ].
    destruct (List.length lb <=? i) eqn:Lb; [ reflexivity | apply Nat.leb_gt in Lb; lia ].
  - apply nth_error_None in Ea.
    destruct (List.length la <=? i) eqn:La; [ reflexivity | apply Nat.leb_gt in La; lia ].
  - apply nth_error_None in Ea, Eb. lia.
Qed.


(** *** Objects *)

Lemma compareDeep_objects left right path options :
  plainObject left -> plainObject right ->
  compareDeep left right path options
  = let leftObj := if ignoreKeyOrder options then sortObject left else left in
    let rightObj := if ignoreKeyOrder options then sortObject right else right in
    flat_map (fun key =>
      if negb (JsObject.has key leftObj) && JsObject.has key rightObj then
        [ Added (keyPath path key) (JsObject.get rightObj key) ]
      else if JsObject.has key leftObj && negb (JsObject.has key rightObj) then
        [ Removed (keyPath path key) (JsObject.get leftObj key) ]
      else
        compareDeep (JsObject.get leftObj key) (JsObject.get rightObj key)
                    (keyPath path key) options)
      (JsArray.distinct [] (JsObject.keys leftObj ++ JsObject.keys rightObj)).
Proof.
  intros Hl Hr. rewrite compareDeep_eq.
  destruct left as [ | [ | ? | ? | ? | a | p ] | ? | ]; try (simpl in Hl; tauto);
    destruct right as [ | [ | ? | ? | ? | a' | p' ] | ? | ]; try (simpl in Hr; tauto);
    reflexivity.
Qed.

Lemma object_child_depth left right options key :
  plainObject left ->
  In key (JsArray.distinct []
            (JsObject.keys (if ignoreKeyOrder options then sortObject left else left)
             ++ JsObject.keys (if ignoreKeyOrder options then sortObject right else right))) ->
  depthU (JsObject.get (if ignoreKeyOrder options then sortObject left else left) key)
  < depthU left.
Proof.
  intros Hplain Hkey. destruct (ignoreKeyOrder options).
  - apply sortObject_get_depth; [ exact Hplain | ].
    apply distinct_In, in_app_or in Hkey.
    destruct Hkey as [ Hkey | Hkey ]; [ now left | right ].
    now apply sortObject_keys in Hkey.
  - now apply get_prop_depth.
Qed.

(** *** Swapping the sides *)

Lemma compareDeep_swap fuel :
  forall left right path options,
    depthU left < fuel ->
    Permutation (compareDeep right left path options)
                (map swapSides (compareDeep left right path options)).
Proof.
  induction fuel as [ | fuel IH ]; intros left right path options Hd; [ lia | ].
  assert (Harr : forall a b, left = Val (VArray a) -> right = Val (VArray b) ->
             Permutation (compareDeep right left path options)
                         (map swapSides (compareDeep left right path options))).
  { intros a b -> ->.
    rewrite (compareDeep_eq (Val (VArray b))), (compareDeep_eq (Val (VArray a))).
    unfold pushedBy.
    change (negb (String.eqb (getType (Val (VArray b))) (getType (Val (VArray a)))))
      with false.
    change (negb (String.eqb (getType (Val (VArray a))) (getType (Val (VArray b)))))
      with false.
    cbv iota.
    set (la := if ignoreArrayOrder options then sortArray a else a).
    set (lb := if ignoreArrayOrder options then sortArray b else b).
    rewrite (Nat.max_comm (List.length lb)), map_flat_map.
    apply Permutation_flat_map_pointwise. intros i Hi. apply in_seq in Hi.
    destruct (List.length lb <=? i) eqn:Lb; destruct (List.length la <=? i) eqn:La;
      try reflexivity.
    - apply Nat.leb_le in La, Lb. lia.
    - apply IH. apply Nat.leb_gt in La.
      change (depthU (Val (VArray a))) with (2 * depth (VArray a)) in Hd.
      enough (depthU (JsArray.get la i) < 2 * depth (VArray a)) by lia.
      apply get_item_depth; [ | exact La ].
      subst la. destruct (ignoreArrayOrder options); intros x Hx;
        [ now apply sortArray_depth | now apply depth_item ]. }
  assert (Hobj : plainObject left -> plainObject right ->
             Permutation (compareDeep right left path options)
                         (map swapSides (compareDeep left right path options))).
  { intros Hl Hr. rewrite !compareDeep_objects by assumption. cbv zeta.
    set (lo := if ignoreKeyOrder options then sortObject left else left).
    set (ro := if ignoreKeyOrder options then sortObject right else right).
    rewrite map_flat_map.
    etransitivity; [ apply Permutation_flat_map, distinct_app_comm | ].
    apply Permutation_flat_map_pointwise. intros key Hkey.
    destruct (JsObject.has key lo) eqn:Hlo; destruct (JsObject.has key ro) eqn:Hro;
      try reflexivity; cbn [negb andb]; apply IH; subst lo ro;
      pose proof (object_child_depth left right options key Hl Hkey); lia. }
  destruct left as [ | [ | ? | ? | ? | a | p ] | ? | ];
    destruct right as [ | [ | ? | ? | ? | a' | p' ] | ? | ];
    try (now apply Hobj); try (now eapply Harr);
    rewrite !compareDeep_eq; unfold pushedBy;
    try reflexivity;
    cbn [getType String.eqb Ascii.eqb Bool.eqb negb typeofObject andb normalizeValue];
    rewrite strictEqual_sym;
    match goal with |- context [ if ?c then _ else _ ] => destruct c end;
    reflexivity.
Qed.

Lemma count_swapped t left right path options :
  List.length (filter (hasType t) (compareDeep right left path options))
  = List.length (filter (hasType (otherSide t)) (compareDeep left right path options)).
Proof.
  rewrite <- count_swapSides. apply filter_length_perm.
  apply (compareDeep_swap (S (depthU left))). lia.
Qed.

Variable JSON_parse : string -> Completion Value.
Variable yaml_load : string -> Completion (option Value).

Local Abbreviation parseContent := (SemanticDiff.parseContent JSON_parse yaml_load).
Local Abbreviation computeSemanticDiff :=
  (SemanticDiff.computeSemanticDiff localeCompare JSON_parse yaml_load).

(** C7. Swapping the two sides swaps the [added] and [removed] tallies and
    keeps the [modified] and [typeChanged] tallies, for the comparison of
    two values and for the result of [computeSemanticDiff] on two texts. *)
Theorem summary_symmetry (options : DiffOptions) :
  (forall (a b : Value) (path : string),
      let ab := summarize (compareDeep a b path options) in
      let ba := summarize (compareDeep b a path options) in
      s_added ab = s_removed ba /\ s_removed ab = s_added ba
      /\ s_modified ab = s_modified ba /\ s_typeChanged ab = s_typeChanged ba)
  /\ (forall (leftContent rightContent : string) (leftFormat rightFormat : FormatType),
         let ab := summary (computeSemanticDiff leftContent rightContent
                              leftFormat rightFormat options) in
         let ba := summary (computeSemanticDiff rightContent leftContent
                              rightFormat leftFormat options) in
         s_added ab = s_removed ba /\ s_removed ab = s_added ba
         /\ s_modified ab = s_modified ba /\ s_typeChanged ab = s_typeChanged ba).
Proof.
  assert (Hswap : forall (a b : Unknown) (path : string),
             let ab := summarize (compareDeep a b path options) in
             let ba := summarize (compareDeep b a path options) in
             s_added ab = s_removed ba /\ s_removed ab = s_added ba
             /\ s_modified ab = s_modified ba /\ s_typeChanged ab = s_typeChanged ba).
  { intros a b path. cbn [summarize s_added s_removed s_modified s_typeChanged].
    repeat split.
    - apply (count_swapped added b a).
    - apply (count_swapped removed b a).
    - apply (count_swapped modified b a).
    - apply (count_swapped type_changed b a). }
  split; [ intros a b path; apply Hswap | ].
  intros leftContent rightContent leftFormat rightFormat.
  unfold SemanticDiff.computeSemanticDiff.
  destruct (parseContent leftContent leftFormat) as [ l | ml ];
    destruct (parseContent rightContent rightFormat) as [ r | mr ];
    try (cbn; tauto).
  destruct l as [ | lv | lf | ]; destruct r as [ | rv | rf | ];
    cbn [isUndefined andb]; try (cbn; tauto);
    cbn [summary]; apply Hswap.
Qed.

(** *** Parse failure and absent documents *)

Lemma parseContent_blank content format :
  JsString.whiteSpaceOnly content = true -> parseContent content format = Normal Undefined.
Proof.
  intros H. apply blank_iff in H. unfold SemanticDiff.parseContent. now rewrite H.
Qed.

(** C5. When parsing either side throws, [computeSemanticDiff] returns the
    sentinel result: one [modified] record at [$] whose old value is the
    text [Parse error: ] followed by the message of the error, counts
    0, 0, 1, 0 and total 1, not identical; [compareDeep] is not called. *)
Theorem parse_failure_sentinel (leftContent rightContent : string)
        (leftFormat rightFormat : FormatType) (options : DiffOptions)
        (message : string) :
  parseContent leftContent leftFormat = Throw message
  \/ ((exists doc, parseContent leftContent leftFormat = Normal doc)
      /\ parseContent rightContent rightFormat = Throw message) ->
  computeSemanticDiff leftContent rightContent leftFormat rightFormat options
  = {| changes :=
         [ {| SemanticDiff.path := "$";
              type := modified;
              oldValue := Some (Val (VString ("Parse error: " ++ message)));
              newValue := Some Undefined;
              oldType := None;
              newType := None |} ];
       summary := {| s_added := 0; s_removed := 0; s_modified := 1;
                     s_typeChanged := 0; s_total := 1 |};
       isIdentical := false |}.
Proof.
  unfold SemanticDiff.computeSemanticDiff.
  intros [ -> | [ [doc ->] -> ] ]; reflexivity.
Qed.

(** C6. Two absent documents (empty or white-space-only texts) give the
    empty change list, identical, all counts zero; one absent document
    gives exactly one record at [$]: [added] with the whole right value
    when the left is absent, [removed] with the whole left value when the
    right is absent. *)
Theorem absent_documents (leftContent rightContent : string)
        (leftFormat rightFormat : FormatType) (options : DiffOptions) :
  (JsString.whiteSpaceOnly leftContent = true ->
   JsString.whiteSpaceOnly rightContent = true ->
   computeSemanticDiff leftContent rightContent leftFormat rightFormat options
   = {| changes := [];
        summary := {| s_added := 0; s_removed := 0; s_modified := 0;
                      s_typeChanged := 0; s_total := 0 |};
        isIdentical := true |})
  /\ (forall v : Value,
         JsString.whiteSpaceOnly leftContent = true ->
         parseContent rightContent rightFormat = Normal (Val v) ->
         computeSemanticDiff leftContent rightContent leftFormat rightFormat options
         = {| changes :=
                [ {| SemanticDiff.path := "$";
                     type := added;
                     oldValue := None;
                     newValue := Some (Val v);
                     oldType := None;
                     newType := None |} ];
              summary := {| s_added := 1; s_removed := 0; s_modified := 0;
                            s_typeChanged := 0; s_total := 1 |};
              isIdentical := false |})
  /\ (forall v : Value,
         parseContent leftContent leftFormat = Normal (Val v) ->
         JsString.whiteSpaceOnly rightContent = true ->
         computeSemanticDiff leftContent rightContent leftFormat rightFormat options
         = {| changes :=
                [ {| SemanticDiff.path := "$";
                     type := removed;
                     oldValue := Some (Val v);
                     newValue := None;
                     oldType := None;
                     newType := None |} ];
              summary := {| s_added := 0; s_removed := 1; s_modified := 0;
                            s_typeChanged := 0; s_total := 1 |};
              isIdentical := false |}).
Proof.
  unfold SemanticDiff.computeSemanticDiff. repeat split.
  - intros Hl Hr. now rewrite !parseContent_blank.
  - intros v Hl Hr. now rewrite (parseContent_blank _ _ Hl), Hr.
  - intros v Hl Hr. now rewrite Hl, (parseContent_blank _ _ Hr).
Qed.

End EngineFacts.

(** *** Maps *)

Section MapFacts.
Import SemanticDiff.

Variable localeCompare : string -> string -> comparison.

Local Abbreviation compareDeep := (SemanticDiff.compareDeep localeCompare).

(** C2, at an input on which the code departs from it. The key [toString]
    is an own key of the right map only, yet [key in leftObj] holds through
    the prototype chain: the code compares the inherited function with the
    right value and records a type change where the claim has an
    addition. *)
Theorem inherited_key_is_not_added (options : DiffOptions) :
  JsObject.hasOwn [] "toString" = false
  /\ JsObject.hasOwn [ ("toString", VNumber 1) ] "toString" = true
  /\ compareDeep (VObject []) (VObject [ ("toString", VNumber 1) ]) EmptyString options
     = [ {| SemanticDiff.path := "toString";
            type := type_changed;
            oldValue := Some (InheritedFunction "toString");
            newValue := Some (Val (VNumber 1));
            oldType := Some "function";
            newType := Some "number" |} ].
Proof.
  destruct options as [ ko ws cs ao ss wd ].
  repeat split; destruct ko; reflexivity.
Qed.

Lemma sortedOrNot_props (ko : bool) (props : JsObject.Props) :
  exists props',
    (if ko then sortObject (Val (VObject props)) else Val (VObject props))
    = Val (VObject props')
    /\ props' = propsOf (if ko then sortObjectValue (VObject props) else VObject props)
    /\ forall key, In key (map fst props') -> In key (map fst props).
Proof.
  destruct ko.
  - exists (propsOf (sortObjectValue (VObject props))).
    split; [ reflexivity | ]. split; [ reflexivity | ].
    intros key Hin.
    change (In key (JsObject.keys (sortObject (Val (VObject props))))) in Hin.
    apply sortObject_keys in Hin. apply Hin.
  - exists props. auto.
Qed.

(** Away from the names [Object.prototype] defines, the comparison of two
    maps is the comparison by key sets of the specification. *)
Lemma compareDeep_maps (l r : JsObject.Props) (path : string) (options : DiffOptions) :
  (forall key, In key (map fst l ++ map fst r) -> JsObject.onPrototype key = false) ->
  compareDeep (VObject l) (VObject r) path options
  = unionByKey (fun x y p => compareDeep x y p options) path
      (propsOf (if ignoreKeyOrder options then sortObjectValue (VObject l) else VObject l))
      (propsOf (if ignoreKeyOrder options then sortObjectValue (VObject r) else VObject r)).
Proof.
  intros Hproto. rewrite compareDeep_objects by exact I. cbv zeta.
  destruct (sortedOrNot_props (ignoreKeyOrder options) l) as (l' & -> & <- & Hl).
  destruct (sortedOrNot_props (ignoreKeyOrder options) r) as (r' & -> & <- & Hr).
  unfold unionByKey. cbn [JsObject.keys].
  apply flat_map_ext_In. intros key Hkey.
  apply distinct_In, in_app_or in Hkey.
  assert (Hp : JsObject.onPrototype key = false).
  { apply Hproto, in_or_app. destruct Hkey; [ left | right ]; auto. }
  cbn [JsObject.has JsObject.get]. unfold JsObject.hasOwn. rewrite Hp, !orb_false_r.
  destruct (JsObject.own l' key) as [ x | ] eqn:El;
    destruct (JsObject.own r' key) as [ y | ] eqn:Er; try reflexivity.
  exfalso. apply own_None in El, Er. tauto.
Qed.

Lemma flat_map_nil {A B : Type} (f : A -> list B) (l : list A) :
  (forall x, In x l -> f x = []) -> flat_map f l = [].
Proof.
  induction l as [ | x l IH ]; simpl; intros H; [ reflexivity | ].
  rewrite (H x) by now left. apply IH. intros; apply H; now right.
Qed.

(** Identity: a value without [NaN] compared with itself gives no
    record. *)
Lemma compareDeep_identity fuel :
  forall (u : Unknown) (path : string) (options : DiffOptions),
    depthU u < fuel -> nanFreeU u = true -> compareDeep u u path options = [].
Proof.
  induction fuel as [ | fuel IH ]; intros u path options Hd Hn; [ lia | ].
  assert (Hobj : plainObject u -> compareDeep u u path options = []).
  { intros Hp. rewrite compareDeep_objects by assumption. cbv zeta.
    apply flat_map_nil. intros key Hkey.
    assert (Hchild : nanFreeU (JsObject.get (if ignoreKeyOrder options
                                             then sortObject u else u) key) = true).
    { apply nanFree_get. destruct (ignoreKeyOrder options);
        [ now apply nanFree_sortObject | exact Hn ]. }
    destruct (JsObject.has key _); cbn [negb andb]; apply IH; try exact Hchild;
      pose proof (object_child_depth u u options key Hp Hkey); lia. }
  destruct u as [ | [ | b | n | s | a | p ] | f | ]; try (now apply Hobj).
  - reflexivity.
  - reflexivity.
  - rewrite compareDeep_eq. unfold pushedBy. cbn. now rewrite Bool.eqb_reflx.
  - destruct n as [ z | ]; [ | discriminate Hn ].
    rewrite compareDeep_eq. unfold pushedBy. cbn. now rewrite Z.eqb_refl.
  - rewrite compareDeep_eq. unfold pushedBy. cbn. now rewrite String.eqb_refl.
  - rewrite compareDeep_arrays. unfold pairByIndex.
    set (la := if ignoreArrayOrder options then SemanticDiff.sortArray localeCompare a else a).
    apply flat_map_nil. intros i Hi. apply in_seq in Hi.
    rewrite Nat.max_id in Hi.
    destruct (nth_error la i) as [ x | ] eqn:E;
      [ | apply nth_error_None in E; lia ].
    apply nth_error_In in E.
    assert (Hx : depth x < depth (VArray a) /\ nanFree x = true).
    { subst la. destruct (ignoreArrayOrder options).
      - split; [ now apply (sortArray_depth localeCompare) | ].
        apply (sortArray_In localeCompare) in E. destruct E as (y & Hy & ->).
        apply nanFree_sortObjectValue, (nanFree_item a), Hy. exact Hn.
      - split; [ now apply depth_item | apply (nanFree_item a), E; exact Hn ]. }
    apply IH; [ | apply Hx ].
    change (depthU (Val (VArray a))) with (2 * depth (VArray a)) in Hd.
    destruct Hx as (Hx & _). simpl. lia.
  - rewrite compareDeep_eq. unfold pushedBy. cbn. now rewrite String.eqb_refl.
Qed.

Lemma own_In_iff (l : JsObject.Props) k v :
  NoDup (map fst l) -> (JsObject.own l k = Some v <-> In (k, v) l).
Proof.
  intros Hnd. split; [ apply own_In | ].
  induction l as [ | [k' w] l IH ]; simpl; [ tauto | ].
  inversion Hnd as [ | ? ? Hnotin Hnd' ]; subst.
  intros [ [= -> ->] | Hin ].
  - now rewrite String.eqb_refl.
  - destruct (String.eqb k' k) eqn:E; [ | now apply IH ].
    apply String.eqb_eq in E. subst k'. exfalso. apply Hnotin.
    apply (in_map fst) in Hin. exact Hin.
Qed.

Lemma own_perm (l r : JsObject.Props) k :
  NoDup (map fst l) -> Permutation l r -> JsObject.own l k = JsObject.own r k.
Proof.
  intros Hnd Hperm.
  assert (Hnd' : NoDup (map fst r)).
  { eapply Permutation_NoDup; [ apply Permutation_map, Hperm | exact Hnd ]. }
  destruct (JsObject.own l k) as [ v | ] eqn:El.
  - symmetry. apply own_In_iff; [ exact Hnd' | ].
    apply (Permutation_in _ Hperm). now apply own_In.
  - destruct (JsObject.own r k) as [ w | ] eqn:Er; [ | reflexivity ].
    apply own_In in Er. apply (Permutation_in _ (Permutation_sym Hperm)) in Er.
    apply own_In_iff in Er; [ congruence | exact Hnd ].
Qed.

Lemma own_define props key v k :
  JsObject.own (JsObject.define props key v) k
  = if String.eqb key k then Some v else JsObject.own props k.
Proof.
  induction props as [ | [k' w] props IH ]; simpl.
  - reflexivity.
  - destruct (String.eqb k' key) eqn:E; simpl.
    + apply String.eqb_eq in E. subst k'. now destruct (String.eqb key k).
    + rewrite IH. destruct (String.eqb k' k) eqn:E'; [ | reflexivity ].
      apply String.eqb_eq in E'. subst k'. now rewrite String.eqb_sym, E.
Qed.

Lemma own_assignEach keys f target k :
  JsObject.own (JsObject.assignEach keys f target) k
  = if existsb (String.eqb k) keys && negb (String.eqb k "__proto__")
    then Some (f k) else JsObject.own target k.
Proof.
  unfold JsObject.assignEach. revert target.
  induction keys as [ | key keys IH ]; intros target; simpl; [ reflexivity | ].
  rewrite IH. unfold JsObject.assign.
  destruct (existsb (String.eqb k) keys && negb (String.eqb k "__proto__")) eqn:E.
  - now rewrite orb_true_r || (rewrite andb_true_iff in E; destruct E as [-> ->];
                               now rewrite orb_true_r).
  - destruct (String.eqb k key) eqn:Ek.
    + apply String.eqb_eq in Ek. subst key. cbn [orb andb].
      destruct (String.eqb k "__proto__"); cbn [negb]; [ reflexivity | ].
      now rewrite own_define, String.eqb_refl.
    + cbn [orb]. rewrite E.
      destruct (String.eqb key "__proto__"); [ reflexivity | ].
      now rewrite own_define, String.eqb_sym, Ek.
Qed.

Lemma existsb_perm (k : string) (l r : list string) :
  Permutation l r -> existsb (String.eqb k) l = existsb (String.eqb k) r.
Proof.
  induction 1 as [ | x l r _ IH | x y l | l m r _ IH1 _ IH2 ]; simpl.
  - reflexivity.
  - now rewrite IH.
  - now destruct (String.eqb k x), (String.eqb k y).
  - congruence.
Qed.

Lemma own_sorted_perm (l r : JsObject.Props) k :
  NoDup (map fst l) -> Permutation l r ->
  JsObject.own (propsOf (sortObjectValue (VObject l))) k
  = JsObject.own (propsOf (sortObjectValue (VObject r))) k.
Proof.
  intros Hnd Hperm. cbn [sortObjectValue propsOf].
  rewrite !own_assignEach.
  rewrite (existsb_perm k (JsArray.sort String.compare (map fst l))
             (JsArray.sort String.compare (map fst r))).
  - destruct (_ && _); [ | reflexivity ].
    rewrite (own_perm _ (map (fun kv : string * Value =>
                                let (k0, x) := kv in (k0, sortObjectValue x)) r)).
    + reflexivity.
    + rewrite map_map.
      erewrite map_ext; [ exact Hnd | ]. now intros [k0 x].
    + now apply Permutation_map.
  - rewrite !sort_perm. now apply Permutation_map.
Qed.

(** Two maps with the same entries in different key order give no record,
    whether [ignoreKeyOrder] is set or not. *)
Lemma compareDeep_permuted_maps (l r : JsObject.Props) (path : string)
      (options : DiffOptions) :
  NoDup (map fst l) -> Permutation l r -> nanFree (VObject l) = true ->
  compareDeep (VObject l) (VObject r) path options = [].
Proof.
  intros Hnd Hperm Hnan. rewrite compareDeep_objects by exact I. cbv zeta.
  destruct (sortedOrNot_props (ignoreKeyOrder options) l) as (l' & -> & El & _).
  destruct (sortedOrNot_props (ignoreKeyOrder options) r) as (r' & -> & Er & _).
  assert (Hr : nanFreeU (Val (VObject r')) = true).
  { assert (Hnr : nanFree (VObject r) = true).
    { cbn [nanFree] in *. rewrite forallb_forall in *. intros kv Hin.
      apply Hnan, (Permutation_in _ (Permutation_sym Hperm)), Hin. }
    subst r'. destruct (ignoreKeyOrder options);
      [ apply nanFree_sortObjectValue in Hnr;
        now destruct (sortObjectValue (VObject r)) | exact Hnr ]. }
  assert (Hown : forall k, JsObject.own l' k = JsObject.own r' k).
  { intros k. subst l' r'. destruct (ignoreKeyOrder options).
    - now apply own_sorted_perm.
    - now apply own_perm. }
  apply flat_map_nil. intros key _.
  cbn [JsObject.has JsObject.get]. unfold JsObject.hasOwn. rewrite Hown.
  destruct (match JsObject.own r' key with Some _ => true | None => false end
            || JsObject.onPrototype key); cbn [negb andb];
    apply (compareDeep_identity (S (depthU
             match JsObject.own r' key with
             | Some v => Val v
             | None =>
                 if JsObject.isPrototypeFunction key then InheritedFunction key
                 else if String.eqb key "__proto__" then ObjectPrototype
                 else Undefined
             end))); try lia; apply (nanFree_get (Val (VObject r')) key Hr).
Qed.
End MapFacts.

(** ** The textual diff adapter *)

Section LineFacts.
Import TextDiff.

Lemma suffix_Some {A : Type} (l : list A) (i : nat) (x : A) :
  nth_error l i = Some x ->
  skipn i l = x :: skipn (S i) l /\ firstn (S i) l = firstn i l ++ [x]
  /\ i < List.length l.
Proof.
  revert i. induction l as [ | y l IH ]; intros [ | i ]; simpl; try discriminate.
  - intros [= ->]. repeat split. lia.
  - intros H. destruct (IH i H) as (H1 & H2 & H3).
    repeat split; [ exact H1 | now rewrite <- H2 | lia ].
Qed.

Lemma suffix_None {A : Type} (l : list A) (i : nat) :
  nth_error l i = None ->
  skipn i l = [] /\ firstn i l = l /\ skipn (S i) l = [] /\ firstn (S i) l = l.
Proof.
  intros H. apply nth_error_None in H.
  repeat split; try (apply skipn_all2; lia); apply firstn_all2; lia.
Qed.

Lemma update_prefix (lines : list DiffLine) (i : nat) (line : DiffLine) :
  i < List.length lines ->
  firstn (S i) (update lines i line) = firstn i lines ++ [line]
  /\ skipn (S i) (update lines i line) = skipn (S i) lines.
Proof.
  revert i. induction lines as [ | l lines IH ]; intros [ | i ] H; simpl in *; try lia.
  - now split.
  - destruct (IH i ltac:(lia)) as [H1 H2]. simpl in H1. split; [ now rewrite H1 | exact H2 ].
Qed.

End LineFacts.

Section AdapterFacts.
Import TextDiff.

Variable diffWords : string -> string -> list Change.t.

Local Abbreviation wordDiffs := (TextDiff.wordDiffs diffWords).
Local Abbreviation greedyPairs := (TextDiff.greedyPairs diffWords).
Local Abbreviation wordDiffLoop := (TextDiff.wordDiffLoop diffWords).
Local Abbreviation computeWordDiff := (TextDiff.computeWordDiff diffWords).

Lemma greedyPairs_nil_r ls : greedyPairs ls [] = (ls, []).
Proof. now destruct ls. Qed.

Lemma greedyPairs_cons l ls r rs :
  greedyPairs (l :: ls) (r :: rs)
  = if LineType_eqb (type l) removed && LineType_eqb (type r) added then
      let (leftWords, rightWords) := wordDiffs l r in
      let (ls', rs') := greedyPairs ls rs in
      (setWordDiff l leftWords :: ls', setWordDiff r rightWords :: rs')
    else if LineType_eqb (type l) removed then
      let (ls', rs') := greedyPairs ls (r :: rs) in (l :: ls', rs')
    else if LineType_eqb (type r) added then
      let (ls', rs') := greedyPairs (l :: ls) rs in (ls', r :: rs')
    else
      let (ls', rs') := greedyPairs ls rs in (l :: ls', r :: rs').
Proof. reflexivity. Qed.

(** The loop of [computeWordDiff] returns, with the lines the walk of the
    specification gives from the two cursors on. *)
Lemma wordDiffLoop_greedy fuel :
  forall (li ri : nat) (L R : list DiffLine),
    List.length (skipn li L) + List.length (skipn ri R) <= fuel ->
    wordDiffLoop fuel li ri L R
    = Some (firstn li L ++ fst (greedyPairs (skipn li L) (skipn ri R)),
            firstn ri R ++ snd (greedyPairs (skipn li L) (skipn ri R))).
Proof.
  assert (Hstop : forall li ri (L R : list DiffLine),
             (li <? List.length L) || (ri <? List.length R) = false ->
             (firstn li L ++ fst (greedyPairs (skipn li L) (skipn ri R)),
              firstn ri R ++ snd (greedyPairs (skipn li L) (skipn ri R)))
             = (L, R)).
  { intros li ri L R Hc. apply orb_false_iff in Hc. destruct Hc as [Hl Hr].
    apply Nat.ltb_ge in Hl, Hr.
    rewrite (skipn_all2 L) by lia. rewrite (skipn_all2 R) by lia.
    rewrite (firstn_all2 L) by lia. rewrite (firstn_all2 R) by lia.
    cbn. now rewrite !app_nil_r. }
  induction fuel as [ | fuel IH ]; intros li ri L R Hfuel.
  - cbn [TextDiff.wordDiffLoop].
    destruct ((li <? List.length L) || (ri <? List.length R)) eqn:Hc.
    + exfalso. apply orb_true_iff in Hc.
      rewrite !length_skipn in Hfuel.
      destruct Hc as [Hc | Hc]; apply Nat.ltb_lt in Hc; lia.
    + now rewrite Hstop.
  - cbn [TextDiff.wordDiffLoop].
    destruct ((li <? List.length L) || (ri <? List.length R)) eqn:Hc;
      [ | now rewrite Hstop ].
    destruct (nth_error L li) as [ l | ] eqn:El;
      destruct (nth_error R ri) as [ r | ] eqn:Er.
    + destruct (suffix_Some _ _ _ El) as (Sl & Fl & Ll).
      destruct (suffix_Some _ _ _ Er) as (Sr & Fr & Lr).
      rewrite Sl, Sr in Hfuel |- *. cbn [List.length] in Hfuel.
      rewrite greedyPairs_cons. cbn [typeIs].
      destruct (LineType_eqb (type l) removed) eqn:Tl;
        destruct (LineType_eqb (type r) added) eqn:Tr; cbn [andb].
      * destruct (wordDiffs l r) as [lw rw] eqn:Ew.
        rewrite IH.
        -- destruct (update_prefix L li (setWordDiff l lw) Ll) as [-> ->].
           destruct (update_prefix R ri (setWordDiff r rw) Lr) as [-> ->].
           destruct (greedyPairs (skipn (S li) L) (skipn (S ri) R)) as [ls rs].
           cbn [fst snd]. now rewrite <- !app_assoc.
        -- destruct (update_prefix L li (setWordDiff l lw) Ll) as [_ ->].
           destruct (update_prefix R ri (setWordDiff r rw) Lr) as [_ ->]. lia.
      * rewrite IH by (rewrite Sr; cbn [List.length]; lia).
        rewrite Fl, Sr.
        destruct (greedyPairs (skipn (S li) L) (r :: skipn (S ri) R)) as [ls rs].
        cbn [fst snd]. now rewrite <- app_assoc.
      * rewrite IH by (rewrite Sl; cbn [List.length]; lia).
        rewrite Fr, Sl.
        destruct (greedyPairs (l :: skipn (S li) L) (skipn (S ri) R)) as [ls rs].
        cbn [fst snd]. now rewrite <- app_assoc.
      * rewrite IH by lia. rewrite Fl, Fr.
        destruct (greedyPairs (skipn (S li) L) (skipn (S ri) R)) as [ls rs].
        cbn [fst snd]. now rewrite <- !app_assoc.
    + destruct (suffix_Some _ _ _ El) as (Sl & Fl & Ll).
      destruct (suffix_None _ _ Er) as (Sr & Fr & Sr' & Fr').
      rewrite Sl, Sr in Hfuel |- *. cbn [List.length] in Hfuel.
      rewrite greedyPairs_nil_r. cbn [fst snd typeIs].
      destruct (LineType_eqb (type l) removed) eqn:Tl.
      * rewrite IH by (rewrite Sr; cbn [List.length]; lia).
        rewrite Fl, Sr, greedyPairs_nil_r. cbn [fst snd].
        now rewrite <- app_assoc.
      * rewrite IH by (rewrite Sr'; cbn [List.length]; lia).
        rewrite Fl, Fr', Sr', Fr, greedyPairs_nil_r. cbn [fst snd].
        now rewrite <- app_assoc.
    + destruct (suffix_None _ _ El) as (Sl & Fl & Sl' & Fl').
      destruct (suffix_Some _ _ _ Er) as (Sr & Fr & Lr).
      rewrite Sl, Sr in Hfuel |- *. cbn [List.length] in Hfuel.
      cbn [TextDiff.greedyPairs fst snd typeIs].
      destruct (LineType_eqb (type r) added) eqn:Tr.
      * rewrite IH by (rewrite Sl; cbn [List.length]; lia).
        rewrite Fr, Sl, Fl. cbn [TextDiff.greedyPairs fst snd].
        now rewrite <- app_assoc.
      * rewrite IH by (rewrite Sl'; cbn [List.length]; lia).
        rewrite Fr, Fl', Sl', Fl. cbn [TextDiff.greedyPairs fst snd].
        now rewrite <- app_assoc.
    + exfalso. apply nth_error_None in El, Er.
      apply orb_true_iff in Hc. destruct Hc as [Hc | Hc]; apply Nat.ltb_lt in Hc; lia.
Qed.

(** [computeWordDiff] is the walk of the specification from the start of
    both line arrays. *)
Lemma computeWordDiff_greedy (L R : list DiffLine) :
  computeWordDiff L R = greedyPairs L R.
Proof.
  unfold TextDiff.computeWordDiff.
  rewrite wordDiffLoop_greedy by (cbn [skipn]; lia).
  cbn [skipn firstn app]. now destruct (greedyPairs L R).
Qed.

Lemma wordDiffs_pieces (l r : DiffLine) :
  wordDiffs l r
  = (map leftWord (filter onLeft (diffWords (content l) (content r))),
     map rightWord (filter onRight (diffWords (content l) (content r)))).
Proof.
  unfold TextDiff.wordDiffs.
  assert (H : forall changes lw rw,
             fold_left wordStep changes (lw, rw)
             = (lw ++ map leftWord (filter onLeft changes),
                rw ++ map rightWord (filter onRight changes))).
  { induction changes as [ | c changes IH ]; intros lw rw; simpl.
    - now rewrite !app_nil_r.
    - unfold onLeft, onRight, leftWord, rightWord at 1.
      destruct (Change.removed c) eqn:Er; [ | destruct (Change.added c) eqn:Ea ];
        cbn [orb negb]; rewrite IH; cbn [map];
        rewrite <- ?app_assoc; cbn [app]; unfold leftWord, rightWord;
        rewrite ?Er, ?Ea; reflexivity. }
  apply H.
Qed.

Lemma countType_plain t lines : countType t (map plain lines) = countType t lines.
Proof.
  unfold countType. induction lines as [ | l lines IH ]; simpl; [ reflexivity | ].
  destruct (LineType_eqb (type l) t); simpl; congruence.
Qed.

(** What the walk does to fresh lines: it changes nothing but word lists,
    gives them to removed lines on the left and added lines on the right
    only, and to as many on one side as on the other. *)
Lemma greedyPairs_facts n :
  forall L R : list DiffLine,
    List.length L + List.length R <= n ->
    Forall fresh L -> Forall fresh R ->
    map plain (fst (greedyPairs L R)) = map plain L
    /\ map plain (snd (greedyPairs L R)) = map plain R
    /\ Forall (fun l => hasWords l = true -> type l = removed) (fst (greedyPairs L R))
    /\ Forall (fun r => hasWords r = true -> type r = added) (snd (greedyPairs L R))
    /\ List.length (filter hasWords (fst (greedyPairs L R)))
       = List.length (filter hasWords (snd (greedyPairs L R))).
Proof.
  assert (Hfresh : forall lines, Forall fresh lines ->
             Forall (fun l => hasWords l = true -> type l = removed) lines
             /\ Forall (fun r => hasWords r = true -> type r = added) lines
             /\ filter hasWords lines = []).
  { induction 1 as [ | x lines Hx _ IH ]; [ repeat split; constructor | ].
    destruct IH as (H1 & H2 & H3). unfold fresh in Hx.
    repeat split; try constructor; auto;
      try (unfold hasWords; rewrite Hx; discriminate).
    simpl. unfold hasWords at 1. now rewrite Hx. }
  induction n as [ | n IH ]; intros L R Hn HL HR.
  - destruct L, R; simpl in Hn; try lia. cbn. repeat split; constructor.
  - destruct L as [ | l L ].
    { cbn. destruct (Hfresh R HR) as (_ & H2 & H3).
      rewrite H3. repeat split; auto. }
    destruct R as [ | r R ].
    { rewrite greedyPairs_nil_r. cbn [fst snd].
      destruct (Hfresh _ HL) as (H1 & _ & H3).
      rewrite H3. repeat split; auto. }
    inversion HL as [ | ? ? Hl HL' ]; inversion HR as [ | ? ? Hr HR' ]; subst.
    assert (Hwl : hasWords l = false) by (unfold hasWords; now rewrite Hl).
    assert (Hwr : hasWords r = false) by (unfold hasWords; now rewrite Hr).
    simpl in Hn. rewrite greedyPairs_cons.
    destruct (LineType_eqb (type l) removed) eqn:Tl;
      destruct (LineType_eqb (type r) added) eqn:Tr; cbn [andb].
    + destruct (wordDiffs l r) as [lw rw].
      destruct (IH L R ltac:(lia) HL' HR') as (H1 & H2 & H3 & H4 & H5).
      destruct (greedyPairs L R) as [ls rs]. cbn [fst snd] in *.
      assert (Etl : type l = removed) by (now destruct (type l)).
      assert (Etr : type r = added) by (now destruct (type r)).
      repeat split.
      * cbn [map]. rewrite H1. reflexivity.
      * cbn [map]. rewrite H2. reflexivity.
      * constructor; [ intros _; exact Etl | exact H3 ].
      * constructor; [ intros _; exact Etr | exact H4 ].
      * cbn. now rewrite H5.
    + destruct (IH L (r :: R) ltac:(simpl; lia) HL' HR) as (H1 & H2 & H3 & H4 & H5).
      destruct (greedyPairs L (r :: R)) as [ls rs]. cbn [fst snd] in *.
      repeat split; auto.
      * cbn [map]. now rewrite H1.
      * constructor; [ rewrite Hwl; discriminate | exact H3 ].
      * cbn [filter]. now rewrite Hwl.
    + destruct (IH (l :: L) R ltac:(simpl; lia) HL HR') as (H1 & H2 & H3 & H4 & H5).
      destruct (greedyPairs (l :: L) R) as [ls rs]. cbn [fst snd] in *.
      repeat split; auto.
      * cbn [map]. now rewrite H2.
      * constructor; [ rewrite Hwr; discriminate | exact H4 ].
      * cbn [filter]. now rewrite Hwr.
    + destruct (IH L R ltac:(lia) HL' HR') as (H1 & H2 & H3 & H4 & H5).
      destruct (greedyPairs L R) as [ls rs]. cbn [fst snd] in *.
      repeat split.
      * cbn [map]. now rewrite H1.
      * cbn [map]. now rewrite H2.
      * constructor; [ rewrite Hwl; discriminate | exact H3 ].
      * constructor; [ rewrite Hwr; discriminate | exact H4 ].
      * cbn [filter]. now rewrite Hwl, Hwr.
Qed.

Lemma countType_app t (a b : list DiffLine) :
  countType t (a ++ b) = countType t a + countType t b.
Proof. unfold countType. now rewrite filter_app, length_app. Qed.

Lemma fresh_snoc lines n line t :
  Forall fresh lines -> Forall fresh (lines ++ [ mkLine n line t ]).
Proof.
  intros H. apply Forall_app. split; [ exact H | ].
  constructor; [ reflexivity | constructor ].
Qed.

Lemma countType_snoc t lines n line t' :
  countType t (lines ++ [ mkLine n line t' ])
  = countType t lines + (if LineType_eqb t' t then 1 else 0).
Proof.
  rewrite countType_app. unfold countType at 2. cbn.
  now destruct (LineType_eqb t' t).
Qed.

Lemma changeStep_Built st change : Built st -> Built (changeStep st change).
Proof.
  unfold changeStep.
  destruct (Change.added change); [ | destruct (Change.removed change) ];
    generalize (linesOf change) as lines; intros lines; revert st;
    induction lines as [ | line lines IH ]; intros st Hst; cbn [fold_left];
    try exact Hst; apply IH;
    destruct Hst as (Hl & Hr & Ha & Hrm & Hm); unfold Built;
    cbn [leftLines rightLines added_ removed_ modified_];
    rewrite ?countType_snoc; cbn [LineType_eqb];
    repeat split; try (now apply fresh_snoc); try assumption; lia.
Qed.

Lemma changes_Built changes : forall st, Built st -> Built (fold_left changeStep changes st).
Proof.
  induction changes as [ | c changes IH ]; intros st Hst; cbn [fold_left];
    [ exact Hst | apply IH, changeStep_Built, Hst ].
Qed.

Lemma initial_Built : Built initial.
Proof. unfold Built, initial. cbn. repeat split; constructor. Qed.

Variable localeCompare : string -> string -> comparison.
Variable JSON_parse : string -> Completion Value.
Variable yaml_load : string -> Completion (option Value).
Variable diffLines : string -> string -> list Change.t.

Local Abbreviation normalizeContent :=
  (TextDiff.normalizeContent localeCompare JSON_parse yaml_load).
Local Abbreviation computeDiff :=
  (TextDiff.computeDiff localeCompare JSON_parse yaml_load diffLines diffWords).
Local Abbreviation builtLines := (TextDiff.builtLines diffLines).

(** [computeDiff] returns when both normalized texts are strings, and
    throws when one of them is [undefined]. *)
Lemma computeDiff_returns leftContent rightContent leftFormat rightFormat options
      normalizedLeft normalizedRight :
  normalizeContent leftContent leftFormat options = Some normalizedLeft ->
  normalizeContent rightContent rightFormat options = Some normalizedRight ->
  exists r, computeDiff leftContent rightContent leftFormat rightFormat options = Normal r.
Proof.
  intros Hl Hr. unfold TextDiff.computeDiff. rewrite Hl, Hr. cbn [callDiffLines].
  destruct (if showWordDiff options then _ else _) as [ls rs]. eexists. reflexivity.
Qed.

Lemma computeDiff_throws leftContent rightContent leftFormat rightFormat options :
  normalizeContent leftContent leftFormat options = None
  \/ normalizeContent rightContent rightFormat options = None ->
  computeDiff leftContent rightContent leftFormat rightFormat options = Throw typeError.
Proof.
  unfold TextDiff.computeDiff. intros [ -> | -> ]; [ reflexivity | ].
  now destruct (normalizeContent leftContent leftFormat options).
Qed.

Lemma computeDiff_lines leftContent rightContent leftFormat rightFormat options
      normalizedLeft normalizedRight r :
  normalizeContent leftContent leftFormat options = Some normalizedLeft ->
  normalizeContent rightContent rightFormat options = Some normalizedRight ->
  computeDiff leftContent rightContent leftFormat rightFormat options = Normal r ->
  let st := builtLines normalizedLeft normalizedRight in
  (left r, right r)
  = (if showWordDiff options
     then computeWordDiff (leftLines st) (rightLines st)
     else (leftLines st, rightLines st))
  /\ addedCount r = added_ st /\ removedCount r = removed_ st
  /\ modifiedCount r = modified_ st
  /\ hasDifferences r = (0 <? added_ st) || (0 <? removed_ st) || (0 <? modified_ st).
Proof.
  intros Hl Hr. cbv zeta. unfold TextDiff.computeDiff, TextDiff.builtLines.
  rewrite Hl, Hr. cbn [callDiffLines].
  destruct (if showWordDiff options then _ else _) as [ls rs].
  intros [= <-]. cbn. auto.
Qed.

(** The lines of the result against the lines built from the hunks. *)
Lemma computeDiff_walk leftContent rightContent leftFormat rightFormat options
      normalizedLeft normalizedRight r :
  normalizeContent leftContent leftFormat options = Some normalizedLeft ->
  normalizeContent rightContent rightFormat options = Some normalizedRight ->
  computeDiff leftContent rightContent leftFormat rightFormat options = Normal r ->
  let st := builtLines normalizedLeft normalizedRight in
  (left r, right r)
  = (if showWordDiff options
     then greedyPairs (leftLines st) (rightLines st)
     else (leftLines st, rightLines st))
  /\ Forall fresh (leftLines st) /\ Forall fresh (rightLines st)
  /\ map plain (left r) = map plain (leftLines st)
  /\ map plain (right r) = map plain (rightLines st)
  /\ Forall (fun l => hasWords l = true -> type l = removed) (left r)
  /\ Forall (fun l => hasWords l = true -> type l = added) (right r)
  /\ List.length (filter hasWords (left r)) = List.length (filter hasWords (right r)).
Proof.
  intros Hnl Hnr Hres. cbv zeta.
  destruct (computeDiff_lines _ _ _ _ _ _ _ _ Hnl Hnr Hres) as (Hlines & _).
  set (st := builtLines normalizedLeft normalizedRight) in *.
  assert (Hb : Built st) by apply changes_Built, initial_Built.
  destruct Hb as (Hfl & Hfr & _).
  rewrite computeWordDiff_greedy in Hlines.
  pose proof (greedyPairs_facts _ (leftLines st) (rightLines st) (le_n _) Hfl Hfr)
    as (H1 & H2 & H3 & H4 & H5).
  assert (Hfresh : forall lines, Forall fresh lines ->
             forall line, In line lines -> hasWords line = false).
  { intros lines H line Hin. rewrite Forall_forall in H. specialize (H line Hin).
    unfold hasWords. now rewrite H. }
  split; [ exact Hlines | ]. split; [ exact Hfl | ]. split; [ exact Hfr | ].
  destruct (showWordDiff options).
  - destruct (greedyPairs (leftLines st) (rightLines st)) as [ls rs].
    injection Hlines as -> ->. cbn [fst snd] in *. auto.
  - injection Hlines as -> ->. repeat split.
    + apply Forall_forall. intros l Hin Hw.
      rewrite (Hfresh _ Hfl l Hin) in Hw. discriminate.
    + apply Forall_forall. intros l Hin Hw.
      rewrite (Hfresh _ Hfr l Hin) in Hw. discriminate.
    + assert (E : forall lines, Forall fresh lines -> filter hasWords lines = []).
      { induction 1 as [ | x lines Hx _ IH ]; [ reflexivity | ].
        cbn. unfold hasWords at 1. unfold fresh in Hx. now rewrite Hx. }
      now rewrite (E _ Hfl), (E _ Hfr).
Qed.

(** The counts of a result of [computeDiff]. *)
Lemma computeDiff_counted leftContent rightContent leftFormat rightFormat options r :
  computeDiff leftContent rightContent leftFormat rightFormat options = Normal r ->
  modifiedCount r = 0
  /\ addedCount r = countType added (right r)
  /\ removedCount r = countType removed (left r)
  /\ (hasDifferences r = true <-> 0 < addedCount r \/ 0 < removedCount r).
Proof.
  intros Hres.
  destruct (normalizeContent leftContent leftFormat options) as [ nl | ] eqn:Hnl;
    [ | rewrite computeDiff_throws in Hres by (now left); discriminate ].
  destruct (normalizeContent rightContent rightFormat options) as [ nr | ] eqn:Hnr;
    [ | rewrite computeDiff_throws in Hres by (now right); discriminate ].
  destruct (computeDiff_walk _ _ _ _ _ _ _ _ Hnl Hnr Hres) as (_ & _ & _ & Hl & Hr & _).
  destruct (computeDiff_lines _ _ _ _ _ _ _ _ Hnl Hnr Hres) as (_ & Ha & Hrm & Hm & Hd).
  set (st := builtLines nl nr) in *.
  assert (Hb : Built st) by apply changes_Built, initial_Built.
  destruct Hb as (_ & _ & Ba & Br & Bm).
  rewrite <- (countType_plain added (right r)), Hr, countType_plain.
  rewrite <- (countType_plain removed (left r)), Hl, countType_plain.
  rewrite Hd, Ha, Hrm, Hm, Bm. repeat split; try congruence.
  - rewrite !orb_true_iff, !Nat.ltb_lt. intros [ [ H | H ] | H ]; lia.
  - rewrite !orb_true_iff, !Nat.ltb_lt. tauto.
Qed.

(** C9. With [showWordDiff] set, the two line arrays [computeDiff] built
    are walked from their starts as the specification says (a removed line
    on the left facing an added line on the right is a pair; the loop of
    the code returns just that); both lines of a pair get a word list made
    from the word diff of their contents; nothing else about a line
    changes, and a line with a word list is a removed line on the left or
    an added line on the right, as many on one side as on the other, so an
    unchanged line has none. Without the option no line has one. This is
    so of the result [computeDiff] returns, which it does when the two
    normalized texts are strings. *)
Theorem word_diff_attachment leftContent rightContent leftFormat rightFormat options
        normalizedLeft normalizedRight :
  normalizeContent leftContent leftFormat options = Some normalizedLeft ->
  normalizeContent rightContent rightFormat options = Some normalizedRight ->
  exists r,
    computeDiff leftContent rightContent leftFormat rightFormat options = Normal r
    /\ let st := builtLines normalizedLeft normalizedRight in
       (showWordDiff options = true ->
        (left r, right r) = greedyPairs (leftLines st) (rightLines st))
       /\ (showWordDiff options = false ->
           (left r, right r) = (leftLines st, rightLines st))
       /\ Forall fresh (leftLines st) /\ Forall fresh (rightLines st)
       /\ map plain (left r) = map plain (leftLines st)
       /\ map plain (right r) = map plain (rightLines st)
       /\ (forall line, In line (left r) -> hasWords line = true -> type line = removed)
       /\ (forall line, In line (right r) -> hasWords line = true -> type line = added)
       /\ (forall line, In line (left r) \/ In line (right r) ->
                        type line = unchanged -> wordDiff line = None)
       /\ List.length (filter hasWords (left r)) = List.length (filter hasWords (right r))
       /\ (forall l r' rest rest',
              type l = removed -> type r' = added ->
              greedyPairs (l :: rest) (r' :: rest')
              = (setWordDiff l
                   (map leftWord (filter onLeft (diffWords (content l) (content r'))))
                   :: fst (greedyPairs rest rest'),
                 setWordDiff r'
                   (map rightWord (filter onRight (diffWords (content l) (content r'))))
                   :: snd (greedyPairs rest rest'))).
Proof.
  intros Hnl Hnr.
  destruct (computeDiff_returns _ _ _ _ _ _ _ Hnl Hnr) as (r & Hres).
  exists r. split; [ exact Hres | ]. cbv zeta.
  destruct (computeDiff_walk _ _ _ _ _ _ _ _ Hnl Hnr Hres)
    as (Hlines & Hfl & Hfr & G1 & G2 & G3 & G4 & G5).
  rewrite Forall_forall in G3, G4.
  split; [ intros Ho; now rewrite Ho in Hlines | ].
  split; [ intros Ho; now rewrite Ho in Hlines | ].
  repeat split; auto.
  - intros line [ Hin | Hin ] Ht.
    + destruct (wordDiff line) eqn:E; [ | reflexivity ].
      assert (Hw : hasWords line = true) by (unfold hasWords; now rewrite E).
      specialize (G3 line Hin Hw). congruence.
    + destruct (wordDiff line) eqn:E; [ | reflexivity ].
      assert (Hw : hasWords line = true) by (unfold hasWords; now rewrite E).
      specialize (G4 line Hin Hw). congruence.
  - intros l r' rest rest' Tl Tr. rewrite greedyPairs_cons, Tl, Tr. cbn [LineType_eqb andb].
    rewrite wordDiffs_pieces. now destruct (greedyPairs rest rest').
Qed.

(** C10, at an input on which the code departs from it. For a text in
    which [yaml.load] finds no document (a blank one), read as YAML with
    neither [ignoreWhitespace] nor [ignoreCase] set, [normalizeContent]
    returns [undefined], [diff.diffLines] throws on it and [computeDiff]
    returns no result, on whichever side the text is; the claim has a
    result with its counts for every pair of texts. Whenever [computeDiff]
    does return, which it does when both normalized texts are strings,
    [modifiedCount] is 0, [addedCount] is the number of lines of type
    [added] on the right, [removedCount] the number of lines of type
    [removed] on the left, and [hasDifferences] holds exactly when one of
    these two counts is positive. *)
Theorem computeDiff_no_result content other otherFormat options :
  yaml_load content = Normal None ->
  ignoreWhitespace options = false -> ignoreCase options = false ->
  normalizeContent content yaml options = None
  /\ computeDiff content other yaml otherFormat options = Throw typeError
  /\ computeDiff other content otherFormat yaml options = Throw typeError
  /\ (forall leftContent rightContent leftFormat rightFormat options' r,
         computeDiff leftContent rightContent leftFormat rightFormat options' = Normal r ->
         modifiedCount r = 0
         /\ addedCount r = countType added (right r)
         /\ removedCount r = countType removed (left r)
         /\ (hasDifferences r = true <-> 0 < addedCount r \/ 0 < removedCount r))
  /\ (forall leftContent rightContent leftFormat rightFormat options'
             normalizedLeft normalizedRight,
         normalizeContent leftContent leftFormat options' = Some normalizedLeft ->
         normalizeContent rightContent rightFormat options' = Some normalizedRight ->
         exists r,
           computeDiff leftContent rightContent leftFormat rightFormat options'
           = Normal r).
Proof.
  intros Hload Hw Hc.
  assert (Hn : normalizeContent content yaml options = None).
  { unfold TextDiff.normalizeContent, TextDiff.parse. rewrite Hload, Hw, Hc. reflexivity. }
  split; [ exact Hn | ].
  split; [ apply computeDiff_throws; now left | ].
  split; [ apply computeDiff_throws; now right | ].
  split; [ apply computeDiff_counted | apply computeDiff_returns ].
Qed.

End AdapterFacts.

(** ** The canonicalizer *)

Section KeyOrder.

Lemma ascii_compare_Lt_trans a b c :
  Ascii.compare a b = Lt -> Ascii.compare b c = Lt -> Ascii.compare a c = Lt.
Proof.
  unfold Ascii.compare. rewrite !N.compare_lt_iff. apply N.lt_trans.
Qed.

Lemma keyLe_trans : Transitive keyLe.
Proof.
  unfold keyLe. intros x. induction x as [ | a x IH ]; intros y z Hxy Hyz.
  - now destruct z.
  - destruct y as [ | b y ]; [ now elim Hxy | ].
    destruct z as [ | c z ]; [ now elim Hyz | ].
    cbn [String.compare] in *.
    destruct (Ascii.compare a b) eqn:Eab; try congruence.
    + apply Ascii.compare_eq_iff in Eab. subst b.
      destruct (Ascii.compare a c) eqn:Eac; try congruence. now apply (IH y).
    + destruct (Ascii.compare b c) eqn:Ebc; try congruence.
      * apply Ascii.compare_eq_iff in Ebc. subst c. now rewrite Eab.
      * now rewrite (ascii_compare_Lt_trans _ _ _ Eab Ebc).
Qed.

Lemma string_compare_asym a b : String.compare a b = Gt -> String.compare b a <> Gt.
Proof.
  intros H. rewrite String.compare_antisym, H. discriminate.
Qed.

Lemma ordered_Sorted {A : Type} (cmp : A -> A -> comparison) l :
  JsArray.ordered cmp l <-> Sorted (fun x y => cmp x y <> Gt) l.
Proof.
  split.
  - induction 1 as [ | x | x y l Hxy Hord IH ].
    + constructor.
    + repeat constructor.
    + constructor; [ exact IH | now constructor ].
  - induction 1 as [ | x l Hs IH Hd ]; [ constructor | ].
    destruct l as [ | y l ]; [ constructor | ].
    inversion Hd; subst. now constructor.
Qed.

Lemma sorted_keys_strongly keys :
  StronglySorted keyLe (JsArray.sort String.compare keys).
Proof.
  apply Sorted_StronglySorted; [ exact keyLe_trans | ].
  apply (ordered_Sorted String.compare), sort_ordered, string_compare_asym.
Qed.

Lemma strongly_ordered keys :
  StronglySorted keyLe keys -> JsArray.ordered String.compare keys.
Proof.
  intros H. apply ordered_Sorted. now apply StronglySorted_Sorted.
Qed.

Lemma StronglySorted_remove {A : Type} (R : A -> A -> Prop) a x b :
  StronglySorted R (a ++ x :: b) -> StronglySorted R (a ++ b).
Proof.
  induction a as [ | y a IH ]; cbn [app]; intros H.
  - now inversion H.
  - inversion H as [ | ? ? Hs Hf ]; subst. constructor; [ now apply IH | ].
    rewrite Forall_app in Hf |- *. destruct Hf as [Hf1 Hf2].
    split; [ exact Hf1 | now inversion Hf2 ].
Qed.

End KeyOrder.

Section Rebuild.
Import JsObject.

Lemma define_fresh props key v :
  ~ In key (map fst props) -> define props key v = props ++ [ (key, v) ].
Proof.
  induction props as [ | [k w] props IH ]; cbn; intros H; [ reflexivity | ].
  destruct (String.eqb k key) eqn:E.
  - apply String.eqb_eq in E. tauto.
  - rewrite IH; tauto.
Qed.

Lemma define_present props key v :
  In key (map fst props) -> map fst (define props key v) = map fst props.
Proof.
  induction props as [ | [k w] props IH ]; cbn; [ tauto | ].
  destruct (String.eqb k key) eqn:E; cbn; [ reflexivity | ].
  apply String.eqb_neq in E. intros [ ? | H ]; [ contradiction | ].
  now rewrite IH.
Qed.

(** What an assignment does to the key list. *)
Lemma assign_key_list props key v :
  map fst (assign props key v)
  = if String.eqb key "__proto__" || existsb (String.eqb key) (map fst props)
    then map fst props else map fst props ++ [ key ].
Proof.
  unfold assign. destruct (String.eqb key "__proto__"); [ reflexivity | ]. cbn [orb].
  destruct (existsb (String.eqb key) (map fst props)) eqn:E.
  - apply define_present. apply existsb_exists in E. destruct E as (k & Hk & Ek).
    apply String.eqb_eq in Ek. now subst.
  - rewrite define_fresh; [ now rewrite map_app | ].
    intros Hin. enough (existsb (String.eqb key) (map fst props) = true) by congruence.
    apply existsb_exists. exists key. split; [ exact Hin | apply String.eqb_refl ].
Qed.

Lemma assign_cleanKeys props key v :
  cleanKeys (map fst props) -> cleanKeys (map fst (assign props key v)).
Proof.
  intros [Hnd Hp]. rewrite assign_key_list.
  destruct (String.eqb key "__proto__") eqn:Ep; [ now split | ]. cbn [orb].
  destruct (existsb (String.eqb key) (map fst props)) eqn:E; [ now split | ].
  assert (Hnot : ~ In key (map fst props)).
  { intros Hin. enough (existsb (String.eqb key) (map fst props) = true) by congruence.
    apply existsb_exists. exists key. split; [ exact Hin | apply String.eqb_refl ]. }
  apply String.eqb_neq in Ep. split.
  - apply NoDup_app; [ exact Hnd | repeat constructor; simpl; tauto | ].
    intros x Hx [ <- | [] ]. contradiction.
  - rewrite in_app_iff. simpl. intuition congruence.
Qed.

Lemma assign_fresh props key v :
  key <> "__proto__" -> ~ In key (map fst props) ->
  assign props key v = props ++ [ (key, v) ].
Proof.
  intros Hp Hk. unfold assign. apply String.eqb_neq in Hp. rewrite Hp.
  now apply define_fresh.
Qed.

(** Assigning distinct new keys, none of them [__proto__], appends them. *)
Lemma assignEach_rebuild keys f target :
  NoDup keys -> ~ In "__proto__" keys ->
  (forall k, In k keys -> ~ In k (map fst target)) ->
  assignEach keys f target = target ++ map (fun k => (k, f k)) keys.
Proof.
  unfold assignEach. revert target.
  induction keys as [ | key keys IH ]; intros target Hnd Hp Hd; cbn [fold_left map].
  - now rewrite app_nil_r.
  - inversion Hnd as [ | ? ? Hnotin Hnd' ]; subst.
    rewrite assign_fresh; [ | simpl in Hp; intuition congruence | apply Hd; now left ].
    rewrite IH; [ now rewrite <- app_assoc | exact Hnd' | simpl in Hp; tauto | ].
    intros k Hk. rewrite map_app, in_app_iff. simpl.
    intros [ H | [ <- | [] ] ]; [ apply (Hd k); [ now right | exact H ] | contradiction ].
Qed.

Lemma assignEach_sorted keys f target :
  StronglySorted keyLe (map fst target ++ keys) ->
  cleanKeys (map fst target) ->
  StronglySorted keyLe (map fst (assignEach keys f target))
  /\ cleanKeys (map fst (assignEach keys f target)).
Proof.
  unfold assignEach. revert target.
  induction keys as [ | key keys IH ]; intros target Hs Hc; cbn [fold_left].
  - rewrite app_nil_r in Hs. now split.
  - apply IH; [ | now apply assign_cleanKeys ].
    rewrite assign_key_list.
    destruct (String.eqb key "__proto__" || existsb (String.eqb key) (map fst target)).
    + now apply StronglySorted_remove in Hs.
    + now rewrite <- app_assoc.
Qed.

(** The list of entries of a map with distinct keys, from its keys. *)
Lemma lookup_rebuild (props : Props) :
  NoDup (map fst props) ->
  map (fun k => (k, match own props k with Some x => x | None => VNull end))
      (map fst props)
  = props.
Proof.
  induction props as [ | [k v] props IH ]; cbn [map fst]; intros Hnd; [ reflexivity | ].
  inversion Hnd as [ | ? ? Hnotin Hnd' ]; subst.
  cbn [own]. rewrite String.eqb_refl. f_equal.
  rewrite <- (IH Hnd') at 2. apply map_ext_in. intros k' Hk'.
  destruct (String.eqb k k') eqn:E; [ | reflexivity ].
  apply String.eqb_eq in E. subst. contradiction.
Qed.

Lemma map_fixed {A : Type} (f : A -> A) (l : list A) :
  Forall (fun x => f x = x) l -> map f l = l.
Proof.
  induction 1 as [ | x l Hx _ IH ]; cbn; congruence.
Qed.

End Rebuild.

Section CanonFacts.
Import TextDiff.

Variable localeCompare : string -> string -> comparison.

Local Abbreviation sortArraysDeep := (TextDiff.sortArraysDeep localeCompare).
Local Abbreviation Canon := (TextDiff.Canon localeCompare).
Local Abbreviation bySerializedForm := (TextDiff.bySerializedForm localeCompare).
Local Abbreviation canonicalValue := (TextDiff.canonicalValue localeCompare).

Lemma assignProps_clean g props target :
  cleanKeys (map fst target) -> cleanKeys (map fst (assignProps g props target)).
Proof.
  unfold assignProps. revert target.
  induction props as [ | [k x] props IH ]; intros target H; cbn [fold_left];
    [ exact H | apply IH, assign_cleanKeys, H ].
Qed.

Lemma assignProps_In g props target k y :
  In (k, y) (assignProps g props target) ->
  In (k, y) target \/ exists x, In (k, x) props /\ y = g x.
Proof.
  unfold assignProps. revert target.
  induction props as [ | [k' x] props IH ]; intros target H; cbn [fold_left] in H;
    [ now left | ].
  destruct (IH _ H) as [ Ht | (z & Hz & ->) ].
  - destruct (assign_In _ _ _ _ _ Ht) as [ ? | [-> ->] ]; [ now left | ].
    right. exists x. split; [ now left | reflexivity ].
  - right. exists z. split; [ now right | reflexivity ].
Qed.

Lemma assignProps_rebuild g props target :
  cleanKeys (map fst props) ->
  (forall k, In k (map fst props) -> ~ In k (map fst target)) ->
  assignProps g props target
  = target ++ map (fun kv : string * Value => (fst kv, g (snd kv))) props.
Proof.
  unfold assignProps. revert target.
  induction props as [ | [k x] props IH ]; intros target [Hnd Hp] Hd; cbn [fold_left map].
  - now rewrite app_nil_r.
  - cbn [map fst] in Hnd, Hp, Hd. inversion Hnd as [ | ? ? Hnotin Hnd' ]; subst.
    rewrite assign_fresh; [ | simpl in Hp; intuition congruence | apply Hd; now left ].
    rewrite IH; [ now rewrite <- app_assoc | split; [ exact Hnd' | simpl in Hp; tauto ] | ].
    intros k' Hk'. rewrite map_app, in_app_iff. simpl.
    intros [ H | [ <- | [] ] ]; [ apply (Hd k'); [ now right | exact H ] | contradiction ].
Qed.

Lemma Canon_array ks sa items :
  Canon ks sa (VArray items)
  <-> (sa = true -> JsArray.ordered bySerializedForm items) /\ Forall (Canon ks sa) items.
Proof.
  cbn [TextDiff.Canon].
  assert (H : (fix all (l : list Value) : Prop :=
                 match l with
                 | [] => True
                 | x :: l' => Canon ks sa x /\ all l'
                 end) items <-> Forall (Canon ks sa) items).
  { induction items as [ | x items IH ]; [ split; constructor | ].
    rewrite Forall_cons_iff, <- IH. reflexivity. }
  now rewrite H.
Qed.

Lemma Canon_object ks sa props :
  Canon ks sa (VObject props)
  <-> cleanKeys (map fst props)
      /\ (ks = true -> JsArray.ordered String.compare (map fst props))
      /\ Forall (fun kv => Canon ks sa (snd kv)) props.
Proof.
  cbn [TextDiff.Canon]. unfold cleanKeys.
  assert (H : (fix all (l : list (string * Value)) : Prop :=
                 match l with
                 | [] => True
                 | kv :: l' => Canon ks sa (snd kv) /\ all l'
                 end) props <-> Forall (fun kv => Canon ks sa (snd kv)) props).
  { induction props as [ | x props IH ]; [ split; constructor | ].
    rewrite Forall_cons_iff, <- IH. reflexivity. }
  rewrite H. tauto.
Qed.

Lemma cleanKeys_nil : cleanKeys (map fst (@nil (string * Value))).
Proof. split; [ constructor | simpl; tauto ]. Qed.

(** [sortObjectDeep] gives values with sorted keys. *)
Lemma sortObjectDeep_canon v : Canon true false (sortObjectDeep v).
Proof.
  unfold sortObjectDeep.
  induction v as [ | b | n | s | items IH | props IH ] using Value_induction;
    try exact I.
  - cbn [SemanticDiff.sortObjectValue]. apply Canon_array.
    split; [ discriminate | ]. rewrite Forall_map. exact IH.
  - cbn [SemanticDiff.sortObjectValue]. apply Canon_object.
    set (values := map (fun kv : string * Value =>
                          let (k, x) := kv in (k, SemanticDiff.sortObjectValue x)) props).
    set (f := fun key => match JsObject.own values key with Some x => x | None => VNull end).
    destruct (assignEach_sorted (JsArray.sort String.compare (map fst props)) f []
                (sorted_keys_strongly _) cleanKeys_nil) as [Hs Hc].
    split; [ exact Hc | ]. split; [ intros _; now apply strongly_ordered | ].
    apply Forall_forall. intros [k x] Hin. cbn [snd].
    apply assignEach_In in Hin. destruct Hin as [ [] | [_ ->] ].
    unfold f. destruct (JsObject.own values k) as [ y | ] eqn:E; [ | exact I ].
    apply own_In in E. apply in_map_iff in E. destruct E as ([k' z] & [= <- <-] & Hz).
    rewrite Forall_forall in IH. exact (IH _ Hz).
Qed.

(** [sortObjectDeep] changes no value with sorted keys. *)
Lemma sortObjectDeep_fixed sa u : Canon true sa u -> sortObjectDeep u = u.
Proof.
  unfold sortObjectDeep.
  induction u as [ | b | n | s | items IH | props IH ] using Value_induction;
    try reflexivity; intros Hc.
  - apply Canon_array in Hc. destruct Hc as [_ Hitems].
    cbn [SemanticDiff.sortObjectValue]. f_equal. apply map_fixed.
    rewrite Forall_forall in *. auto.
  - apply Canon_object in Hc. destruct Hc as ([Hnd Hp] & Hord & Hvalues).
    cbn [SemanticDiff.sortObjectValue]. f_equal.
    rewrite sort_ordered_id by auto.
    assert (Hv : map (fun kv : string * Value =>
                        let (k, x) := kv in (k, SemanticDiff.sortObjectValue x)) props
                 = props).
    { apply map_fixed. rewrite Forall_forall in *. intros [k x] Hin.
      f_equal. apply (IH _ Hin). apply (Hvalues _ Hin). }
    rewrite Hv, assignEach_rebuild; auto.
    cbn [app]. now apply lookup_rebuild.
Qed.

Hypothesis localeCompare_asym :
  forall a b, localeCompare a b = Gt -> localeCompare b a <> Gt.

Lemma bySerializedForm_asym a b :
  bySerializedForm a b = Gt -> bySerializedForm b a <> Gt.
Proof. unfold TextDiff.bySerializedForm. apply localeCompare_asym. Qed.

(** [sortArraysDeep] gives values with sorted arrays, and keeps sorted
    keys sorted. *)
Lemma sortArraysDeep_canon ks sa v :
  (ks = true -> Canon true sa v) -> Canon ks true (sortArraysDeep v).
Proof.
  induction v as [ | b | n | s | items IH | props IH ] using Value_induction;
    try (intros _; exact I); intros Hc.
  - cbn [TextDiff.sortArraysDeep]. apply Canon_array. split.
    + intros _. apply sort_ordered. exact bySerializedForm_asym.
    + apply Forall_forall. intros x Hin. apply sort_In, in_map_iff in Hin.
      destruct Hin as (y & <- & Hy). rewrite Forall_forall in IH. apply (IH _ Hy).
      intros Hks. specialize (Hc Hks). apply Canon_array in Hc.
      destruct Hc as [_ Hitems]. rewrite Forall_forall in Hitems. auto.
  - cbn [TextDiff.sortArraysDeep]. fold (assignProps sortArraysDeep props []).
    apply Canon_object. split; [ apply assignProps_clean, cleanKeys_nil | ]. split.
    + intros Hks. specialize (Hc Hks). apply Canon_object in Hc.
      destruct Hc as (Hclean & Hord & _). subst ks.
      rewrite assignProps_rebuild; [ | exact Hclean | simpl; tauto ].
      cbn [app]. rewrite map_map. cbn [fst]. now apply Hord.
    + apply Forall_forall. intros [k y] Hin. cbn [snd].
      apply assignProps_In in Hin. destruct Hin as [ [] | (x & Hx & ->) ].
      rewrite Forall_forall in IH. apply (IH _ Hx).
      intros Hks. specialize (Hc Hks). apply Canon_object in Hc.
      destruct Hc as (_ & _ & Hvalues). rewrite Forall_forall in Hvalues.
      exact (Hvalues _ Hx).
Qed.

(** [sortArraysDeep] changes no value with sorted arrays. *)
Lemma sortArraysDeep_fixed ks u : Canon ks true u -> sortArraysDeep u = u.
Proof.
  induction u as [ | b | n | s | items IH | props IH ] using Value_induction;
    try reflexivity; intros Hc.
  - apply Canon_array in Hc. destruct Hc as [Hord Hitems].
    cbn [TextDiff.sortArraysDeep]. f_equal.
    rewrite map_fixed by (rewrite Forall_forall in *; auto).
    apply sort_ordered_id. now apply Hord.
  - apply Canon_object in Hc. destruct Hc as (Hclean & _ & Hvalues).
    cbn [TextDiff.sortArraysDeep]. fold (assignProps sortArraysDeep props []). f_equal.
    rewrite assignProps_rebuild; [ | exact Hclean | simpl; tauto ].
    cbn [app]. apply map_fixed. rewrite Forall_forall in *.
    intros [k x] Hin. cbn [fst snd]. f_equal. apply (IH _ Hin). apply (Hvalues _ Hin).
Qed.

Lemma canonicalValue_passes options v :
  canonicalValue options v
  = let w := if ignoreKeyOrder options then sortObjectDeep v else v in
    if ignoreArrayOrder options then sortArraysDeep w else w.
Proof.
  unfold TextDiff.canonicalValue, sortObjectDeep.
  destruct (ignoreKeyOrder options), (ignoreArrayOrder options), v; reflexivity.
Qed.

(** The sorting passes change nothing on their own result. *)
Lemma canonicalValue_idempotent options v :
  canonicalValue options (canonicalValue options v) = canonicalValue options v.
Proof.
  rewrite !canonicalValue_passes. cbv zeta.
  destruct (ignoreKeyOrder options) eqn:Ek; destruct (ignoreArrayOrder options) eqn:Ea.
  - assert (H : Canon true true (sortArraysDeep (sortObjectDeep v))).
    { apply (sortArraysDeep_canon true false). intros _. apply sortObjectDeep_canon. }
    rewrite (sortObjectDeep_fixed true _ H). now apply (sortArraysDeep_fixed true).
  - apply (sortObjectDeep_fixed false), sortObjectDeep_canon.
  - apply (sortArraysDeep_fixed false), (sortArraysDeep_canon false false). discriminate.
  - reflexivity.
Qed.

End CanonFacts.


(** ** The theorems at concrete inputs *)


Lemma parse_failure_sentinel_witness :
  SemanticDiff.parseContent JsonReader.parse JsonReader.load "{" json
  = Throw "Unexpected token in JSON"
  /\ SemanticDiff.isIdentical
       (SemanticDiff.computeSemanticDiff String.compare JsonReader.parse JsonReader.load
          "{" "{}" json json defaultOptions) = false.
Proof.
  assert (H : SemanticDiff.parseContent JsonReader.parse JsonReader.load "{" json
              = Throw "Unexpected token in JSON") by reflexivity.
  split; [ exact H | ].
  rewrite (parse_failure_sentinel String.compare JsonReader.parse JsonReader.load
             "{" "{}" json json defaultOptions "Unexpected token in JSON"
             (or_introl H)).
  reflexivity.
Defined.

Lemma absent_documents_witness :
  JsString.whiteSpaceOnly "  " = true
  /\ SemanticDiff.parseContent JsonReader.parse JsonReader.load "[1]" json
     = Normal (Val (VArray [ VNumber 1 ]))
  /\ SemanticDiff.changes
       (SemanticDiff.computeSemanticDiff String.compare JsonReader.parse JsonReader.load
          "  " "[1]" json json defaultOptions)
     = [ SemanticDiff.Added "$" (Val (VArray [ VNumber 1 ])) ].
Proof.
  assert (Hl : JsString.whiteSpaceOnly "  " = true) by reflexivity.
  assert (Hr : SemanticDiff.parseContent JsonReader.parse JsonReader.load "[1]" json
               = Normal (Val (VArray [ VNumber 1 ]))) by reflexivity.
  split; [ exact Hl | ]. split; [ exact Hr | ].
  rewrite (proj1 (proj2 (absent_documents String.compare JsonReader.parse JsonReader.load
                           "  " "[1]" json json defaultOptions))
             (VArray [ VNumber 1 ]) Hl Hr).
  reflexivity.
Defined.

Lemma word_diff_attachment_witness :
  TextDiff.normalizeContent String.compare JsonReader.parse JsonReader.load
    "a" json wordDiffShown = Some "a"
  /\ TextDiff.normalizeContent String.compare JsonReader.parse JsonReader.load
       "b" json wordDiffShown = Some "b"
  /\ exists r,
       TextDiff.computeDiff String.compare JsonReader.parse JsonReader.load
         (fun _ _ => hunks_abc_axc) replaceWords "a" "b" json json wordDiffShown
       = Normal r
       /\ map TextDiff.hasWords (TextDiff.left r) = [ false; true; false ].
Proof.
  assert (H1 : TextDiff.normalizeContent String.compare JsonReader.parse JsonReader.load
                 "a" json wordDiffShown = Some "a") by reflexivity.
  assert (H2 : TextDiff.normalizeContent String.compare JsonReader.parse JsonReader.load
                 "b" json wordDiffShown = Some "b") by reflexivity.
  split; [ exact H1 | ]. split; [ exact H2 | ].
  destruct (word_diff_attachment replaceWords String.compare JsonReader.parse
              JsonReader.load (fun _ _ => hunks_abc_axc)
              "a" "b" json json wordDiffShown "a" "b" H1 H2) as (r & Hr & Hon & _).
  exists r. split; [ exact Hr | ].
  specialize (Hon eq_refl). apply (f_equal fst) in Hon. cbn [fst] in Hon.
  rewrite Hon. reflexivity.
Defined.

Lemma computeDiff_no_result_witness :
  JsonReader.load " " = Normal None
  /\ ignoreWhitespace defaultOptions = false
  /\ ignoreCase defaultOptions = false
  /\ TextDiff.computeDiff String.compare JsonReader.parse JsonReader.load
       oneCommonHunk replaceWords " " "[1]" yaml json defaultOptions
     = Throw TextDiff.typeError.
Proof.
  assert (H1 : JsonReader.load " " = Normal None) by reflexivity.
  assert (H2 : ignoreWhitespace defaultOptions = false) by reflexivity.
  assert (H3 : ignoreCase defaultOptions = false) by reflexivity.
  split; [ exact H1 | ]. split; [ exact H2 | ]. split; [ exact H3 | ].
  exact (proj1 (proj2 (computeDiff_no_result replaceWords String.compare JsonReader.parse
                         JsonReader.load oneCommonHunk " " "[1]" json defaultOptions
                         H1 H2 H3))).
Defined.

(** The same departure from the texts: [{}] against the JSON text of
    [{toString: 1}]. *)
Example inherited_key_from_texts :
  SemanticDiff.computeSemanticDiff String.compare JsonReader.parse JsonReader.load
    "{}" (Json.stringify (VObject [ ("toString", VNumber 1) ])) json json defaultOptions
  = {| SemanticDiff.changes :=
         [ SemanticDiff.TypeChanged "toString" (InheritedFunction "toString")
             (Val (VNumber 1)) ];
       SemanticDiff.summary :=
         {| SemanticDiff.s_added := 0; SemanticDiff.s_removed := 0;
            SemanticDiff.s_modified := 0; SemanticDiff.s_typeChanged := 1;
            SemanticDiff.s_total := 1 |};
       SemanticDiff.isIdentical := false |}.
Proof. reflexivity. Qed.

(** * Further properties *)

(** ** Lines of the textual diff *)

Section LineNumbering.
Import TextDiff.

Lemma seq_snoc start n : seq start (S n) = seq start n ++ [ start + n ].
Proof. rewrite <- Nat.add_1_r. now rewrite seq_app. Qed.

Lemma filter_snoc {A : Type} (f : A -> bool) l x :
  filter f (l ++ [x]) = filter f l ++ (if f x then [x] else []).
Proof. now rewrite filter_app. Qed.

Lemma changeStep_Numbered st change : Numbered st -> Numbered (changeStep st change).
Proof.
  unfold changeStep.
  destruct (Change.added change); [ | destruct (Change.removed change) ];
    generalize (linesOf change) as lines; intros lines; revert st;
    induction lines as [ | line lines IH ]; intros st Hst; cbn [fold_left];
    try exact Hst; apply IH;
    destruct Hst as (Hln & Hl & Hrn & Hr & Htl & Htr & Hu); unfold Numbered;
    cbn [leftLines rightLines leftLineNum rightLineNum];
    rewrite ?map_app, ?length_app, ?filter_snoc, ?map_app; cbn [map List.length mkLine];
    rewrite ?Nat.add_1_r, ?seq_snoc, ?Hln, ?Hrn, ?Hl, ?Hr, ?Hu;
    cbn [isUnchanged mkLine type LineType_eqb map lineNumber content];
    rewrite ?app_nil_r;
    repeat split; try reflexivity; try assumption;
    try (apply Forall_app; split; [ assumption | repeat constructor; cbn; tauto ]).
Qed.

Lemma changes_Numbered changes :
  forall st, Numbered st -> Numbered (fold_left changeStep changes st).
Proof.
  induction changes as [ | c changes IH ]; intros st Hst; cbn [fold_left];
    [ exact Hst | apply IH, changeStep_Numbered, Hst ].
Qed.

Lemma initial_Numbered : Numbered initial.
Proof. unfold Numbered, initial. cbn. repeat split; constructor. Qed.

Lemma map_plain_lineNumber lines :
  map lineNumber (map plain lines) = map lineNumber lines.
Proof. rewrite map_map. now apply map_ext. Qed.

Lemma map_plain_type lines : map type (map plain lines) = map type lines.
Proof. rewrite map_map. now apply map_ext. Qed.

Lemma map_plain_unchanged lines :
  map content (filter isUnchanged (map plain lines))
  = map content (filter isUnchanged lines).
Proof.
  induction lines as [ | l lines IH ]; [ reflexivity | ].
  cbn [map filter]. change (isUnchanged (plain l)) with (isUnchanged l).
  destruct (isUnchanged l); cbn [map plain content]; now rewrite IH.
Qed.

Lemma Forall_type_plain (Q : LineType -> Prop) lines :
  Forall (fun l => Q (type l)) (map plain lines) <-> Forall (fun l => Q (type l)) lines.
Proof. rewrite Forall_map. reflexivity. Qed.

End LineNumbering.

Section HunkLines.
Import TextDiff.

Lemma split_not_nil sep s : JsString.split sep s <> [].
Proof.
  destruct s as [ | c s ]; cbn; [ discriminate | ].
  destruct (Ascii.eqb c sep); [ discriminate | ].
  destruct (JsString.split sep s); discriminate.
Qed.

Lemma join_cons c h t :
  JsString.join JsString.newline (String c h :: t)
  = String c (JsString.join JsString.newline (h :: t)).
Proof. destruct t; reflexivity. Qed.

Lemma join_split s : JsString.join JsString.newline (JsString.split JsString.LF s) = s.
Proof.
  induction s as [ | c s IH ]; [ reflexivity | ].
  cbn [JsString.split]. destruct (Ascii.eqb c JsString.LF) eqn:E.
  - apply Ascii.eqb_eq in E. subst c.
    pose proof (split_not_nil JsString.LF s) as Hne.
    destruct (JsString.split JsString.LF s) as [ | h t ]; [ congruence | ].
    cbn [JsString.join] in *. now rewrite IH.
  - pose proof (split_not_nil JsString.LF s) as Hne.
    destruct (JsString.split JsString.LF s) as [ | h t ]; [ congruence | ].
    rewrite join_cons. now rewrite IH.
Qed.

Lemma removelast_cons_cons {A : Type} (x y : A) l :
  removelast (x :: y :: l) = x :: removelast (y :: l).
Proof. reflexivity. Qed.

Lemma join_split_ended s :
  JsString.endsWith s JsString.LF = true ->
  (JsString.join JsString.newline (removelast (JsString.split JsString.LF s))
   ++ JsString.newline)%string = s
  /\ 2 <= List.length (JsString.split JsString.LF s).
Proof.
  induction s as [ | c s IH ]; [ discriminate | ].
  intros H. destruct s as [ | d s ].
  - cbn in H. apply Ascii.eqb_eq in H. subst c. cbn. split; [ reflexivity | lia ].
  - change (JsString.endsWith (String c (String d s)) JsString.LF)
      with (JsString.endsWith (String d s) JsString.LF) in H.
    destruct (IH H) as (E & Hlen). clear IH.
    cbn [JsString.split] in *. revert E Hlen.
    generalize (if Ascii.eqb d JsString.LF
                then EmptyString :: JsString.split JsString.LF s
                else match JsString.split JsString.LF s with
                     | [] => [String d EmptyString]
                     | h :: t => String d h :: t
                     end).
    intros pieces E Hlen.
    destruct pieces as [ | h [ | h' t ] ]; cbn [List.length] in Hlen; try lia.
    destruct (Ascii.eqb c JsString.LF) eqn:Ec.
    + apply Ascii.eqb_eq in Ec. subst c. split; [ | cbn; lia ].
      rewrite removelast_cons_cons.
      remember (removelast (h :: h' :: t)) as front eqn:Ef.
      destruct front as [ | f front ].
      { rewrite removelast_cons_cons in Ef. discriminate. }
      rewrite <- E. reflexivity.
    + split; [ | cbn; lia ].
      rewrite removelast_cons_cons.
      rewrite removelast_cons_cons in E.
      rewrite join_cons. rewrite <- E. reflexivity.
Qed.

Lemma filterIndexed_all {A : Type} (keep : nat -> bool) (l : list A) :
  forall i, (forall j, i <= j -> keep j = true) -> filterIndexed keep i l = l.
Proof.
  induction l as [ | x l IH ]; intros i H; cbn; [ reflexivity | ].
  rewrite (H i (le_n _)). f_equal. apply IH. intros j Hj. apply H. lia.
Qed.

Lemma filterIndexed_front {A : Type} (l : list A) :
  forall i n, n = i + List.length l ->
    filterIndexed (fun j => (j <? n - 1) || false) i l = removelast l.
Proof.
  induction l as [ | x l IH ]; intros i n Hn; [ reflexivity | ].
  cbn [filterIndexed]. cbn [List.length] in Hn.
  destruct l as [ | y l ].
  - cbn [filterIndexed removelast]. destruct (Nat.ltb_spec i (n - 1)) as [ Hlt | _ ];
      [ cbn in Hn; lia | reflexivity ].
  - destruct (Nat.ltb_spec i (n - 1)) as [ _ | Hge ];
      [ | cbn [List.length] in Hn; lia ].
    cbn [orb]. rewrite removelast_cons_cons. f_equal. apply IH.
    cbn [List.length] in *. lia.
Qed.

Lemma linesOf_cases change :
  linesOf change
  = if JsString.endsWith (Change.value change) JsString.LF
    then removelast (JsString.split JsString.LF (Change.value change))
    else JsString.split JsString.LF (Change.value change).
Proof.
  unfold linesOf. destruct (JsString.endsWith (Change.value change) JsString.LF).
  - cbn [negb]. now apply filterIndexed_front.
  - cbn [negb]. apply filterIndexed_all. intros j _. apply orb_true_r.
Qed.

(** X1. The lines [computeDiff] makes of a hunk are the hunk's text: joined
    with line feeds, and followed by a line feed when the hunk ends with
    one, they give the value of the hunk back. There is always at least one
    line: the hunk with the empty text gives one empty line. *)
Theorem linesOf_round_trip change :
  (JsString.join JsString.newline (linesOf change)
   ++ (if JsString.endsWith (Change.value change) JsString.LF
       then JsString.newline else EmptyString))%string
  = Change.value change
  /\ linesOf change <> [].
Proof.
  rewrite linesOf_cases.
  destruct (JsString.endsWith (Change.value change) JsString.LF) eqn:E.
  - destruct (join_split_ended _ E) as (H & Hlen). split; [ exact H | ].
    destruct (JsString.split JsString.LF (Change.value change)) as [ | h [ | h' t ] ];
      cbn [List.length] in Hlen; try lia.
    rewrite removelast_cons_cons. discriminate.
  - split; [ | apply split_not_nil ].
    rewrite join_split. clear E. induction (Change.value change) as [ | c s IH ];
      [ reflexivity | cbn; now rewrite IH ].
Qed.

End HunkLines.

Section TextColumns.
Import TextDiff.

Lemma changeStep_contents st change :
  map content (leftLines (changeStep st change))
  = map content (leftLines st) ++ (if leftHunk change then linesOf change else [])
  /\ map content (rightLines (changeStep st change))
     = map content (rightLines st) ++ (if rightHunk change then linesOf change else []).
Proof.
  unfold changeStep, leftHunk, rightHunk.
  destruct (Change.added change); [ | destruct (Change.removed change) ];
    cbn [negb orb]; generalize (linesOf change) as lines; intros lines; revert st;
    (induction lines as [ | line lines IH ]; intros st; cbn [fold_left];
     [ rewrite ?app_nil_r; split; reflexivity
     | match goal with
       | |- context [ fold_left ?f lines ?s ] => destruct (IH s) as (E1 & E2)
       end;
       rewrite E1, E2; cbn [leftLines rightLines]; rewrite ?map_app;
       cbn [map mkLine content]; rewrite <- ?app_assoc; split; reflexivity ]).
Qed.

Lemma changes_contents changes :
  forall st,
    map content (leftLines (fold_left changeStep changes st))
    = map content (leftLines st) ++ flat_map linesOf (filter leftHunk changes)
    /\ map content (rightLines (fold_left changeStep changes st))
       = map content (rightLines st) ++ flat_map linesOf (filter rightHunk changes).
Proof.
  induction changes as [ | c changes IH ]; intros st; cbn [fold_left filter flat_map].
  - now rewrite !app_nil_r.
  - destruct (IH (changeStep st c)) as (E1 & E2).
    destruct (changeStep_contents st c) as (C1 & C2).
    rewrite E1, E2, C1, C2, <- !app_assoc.
    destruct (leftHunk c), (rightHunk c); cbn [flat_map app]; split; reflexivity.
Qed.

Lemma map_plain_content lines : map content (map plain lines) = map content lines.
Proof. rewrite map_map. now apply map_ext. Qed.

Lemma plain_fields L :
  forall R,
    map lineNumber L = map lineNumber R -> map content L = map content R ->
    map type L = map type R -> map plain L = map plain R.
Proof.
  induction L as [ | l L IH ]; intros [ | r R ] Hn Hc Ht; try discriminate;
    [ reflexivity | ].
  cbn [map] in *. injection Hn as Hn Hn'. injection Hc as Hc Hc'. injection Ht as Ht Ht'.
  unfold plain at 1 3. rewrite Hn, Hc, Ht. f_equal. now apply IH.
Qed.

Lemma all_unchanged lines t :
  Forall (fun l => type l = unchanged \/ type l = t) lines ->
  t <> unchanged -> countType t lines = 0 ->
  filter isUnchanged lines = lines /\ map type lines = map (fun _ => unchanged) lines.
Proof.
  intros H Ht. induction H as [ | l lines Hl _ IH ]; intros Hc; [ split; reflexivity | ].
  unfold countType in Hc. cbn [filter] in *. unfold isUnchanged at 1.
  destruct Hl as [ Hl | Hl ]; rewrite Hl in *.
  - cbn [LineType_eqb map]. replace (LineType_eqb unchanged t) with false in Hc
      by (now destruct t).
    destruct (IH Hc) as (E1 & E2). rewrite E1, E2, Hl. split; reflexivity.
  - replace (LineType_eqb t t) with true in Hc by (now destruct t). discriminate.
Qed.

Lemma fresh_plain lines :
  Forall (fun l => hasWords l = false) lines -> map plain lines = lines.
Proof.
  induction 1 as [ | l lines Hl _ IH ]; [ reflexivity | ].
  cbn [map]. rewrite IH. f_equal. unfold hasWords in Hl. unfold plain.
  destruct l as [ n c t w ]. cbn in *. now destruct w.
Qed.

Variable diffWords : string -> string -> list Change.t.
Variable localeCompare : string -> string -> comparison.
Variable JSON_parse : string -> Completion Value.
Variable yaml_load : string -> Completion (option Value).
Variable diffLines : string -> string -> list Change.t.

Local Abbreviation normalizeContent :=
  (TextDiff.normalizeContent localeCompare JSON_parse yaml_load).
Local Abbreviation computeDiff :=
  (TextDiff.computeDiff localeCompare JSON_parse yaml_load diffLines diffWords).
Local Abbreviation builtLines := (TextDiff.builtLines diffLines).

(** X2. When the two normalized texts are strings, [computeDiff] returns
    a result in which the lines of each side are numbered 1, 2, 3, ... in
    order, whatever the options; the left side holds unchanged and removed
    lines only and the right side unchanged and added lines only (no line
    is ever [modified]); and the unchanged lines are the same texts, in the
    same order, on both sides. *)
Theorem computeDiff_columns leftContent rightContent leftFormat rightFormat options
        normalizedLeft normalizedRight :
  normalizeContent leftContent leftFormat options = Some normalizedLeft ->
  normalizeContent rightContent rightFormat options = Some normalizedRight ->
  exists r,
    computeDiff leftContent rightContent leftFormat rightFormat options = Normal r
    /\ map lineNumber (left r) = seq 1 (List.length (left r))
    /\ map lineNumber (right r) = seq 1 (List.length (right r))
    /\ Forall (fun l => type l = unchanged \/ type l = removed) (left r)
    /\ Forall (fun l => type l = unchanged \/ type l = added) (right r)
    /\ map content (filter isUnchanged (left r))
       = map content (filter isUnchanged (right r)).
Proof.
  intros Hnl Hnr.
  destruct (computeDiff_returns diffWords localeCompare JSON_parse yaml_load diffLines
              _ _ _ _ _ _ _ Hnl Hnr) as (r & Hres).
  exists r. split; [ exact Hres | ].
  destruct (computeDiff_walk diffWords localeCompare JSON_parse yaml_load diffLines
              _ _ _ _ _ _ _ _ Hnl Hnr Hres)
    as (_ & _ & _ & Hl & Hr & _).
  set (st := builtLines normalizedLeft normalizedRight) in *.
  assert (Hn : Numbered st) by apply changes_Numbered, initial_Numbered.
  destruct Hn as (Hln & _ & Hrn & _ & Htl & Htr & Hu).
  assert (Ell : List.length (left r) = List.length (leftLines st)).
  { rewrite <- (length_map plain (left r)), Hl. apply length_map. }
  assert (Elr : List.length (right r) = List.length (rightLines st)).
  { rewrite <- (length_map plain (right r)), Hr. apply length_map. }
  rewrite Ell, Elr, <- Hln, <- Hrn.
  rewrite <- (map_plain_lineNumber (left r)), <- (map_plain_lineNumber (right r)).
  rewrite <- (map_plain_unchanged (left r)), <- (map_plain_unchanged (right r)).
  rewrite Hl, Hr, !map_plain_lineNumber, !map_plain_unchanged.
  repeat split; try assumption.
  - apply (Forall_type_plain (fun t => t = unchanged \/ t = removed)).
    rewrite Hl. now apply (Forall_type_plain (fun t => t = unchanged \/ t = removed)).
  - apply (Forall_type_plain (fun t => t = unchanged \/ t = added)).
    rewrite Hr. now apply (Forall_type_plain (fun t => t = unchanged \/ t = added)).
Qed.

(** X3. When the two normalized texts are strings, [computeDiff] returns
    a result that shows every line of every hunk of their line diff once
    and in order: the texts of the left side are the lines of the hunks
    that are not added, those of the right side the lines of the hunks that
    are added or not removed. *)
Theorem computeDiff_contents leftContent rightContent leftFormat rightFormat options
        normalizedLeft normalizedRight :
  normalizeContent leftContent leftFormat options = Some normalizedLeft ->
  normalizeContent rightContent rightFormat options = Some normalizedRight ->
  exists r,
    computeDiff leftContent rightContent leftFormat rightFormat options = Normal r
    /\ let hunks := diffLines normalizedLeft normalizedRight in
       map content (left r) = flat_map linesOf (filter leftHunk hunks)
       /\ map content (right r) = flat_map linesOf (filter rightHunk hunks).
Proof.
  intros Hnl Hnr.
  destruct (computeDiff_returns diffWords localeCompare JSON_parse yaml_load diffLines
              _ _ _ _ _ _ _ Hnl Hnr) as (r & Hres).
  exists r. split; [ exact Hres | ].
  cbv zeta.
  destruct (computeDiff_walk diffWords localeCompare JSON_parse yaml_load diffLines
              _ _ _ _ _ _ _ _ Hnl Hnr Hres)
    as (_ & _ & _ & Hl & Hr & _).
  rewrite <- (map_plain_content (left _)), <- (map_plain_content (right _)).
  rewrite Hl, Hr, !map_plain_content. unfold TextDiff.builtLines.
  apply (changes_contents _ initial).
Qed.

(** X4. When the two normalized texts are strings, [computeDiff] returns
    a result that, when it reports no differences, has the same lines on
    its two sides: same numbers, same texts, all unchanged and without word
    lists. *)
Theorem computeDiff_no_differences leftContent rightContent leftFormat rightFormat options
        normalizedLeft normalizedRight :
  normalizeContent leftContent leftFormat options = Some normalizedLeft ->
  normalizeContent rightContent rightFormat options = Some normalizedRight ->
  exists r,
    computeDiff leftContent rightContent leftFormat rightFormat options = Normal r
    /\ (hasDifferences r = false ->
        left r = right r
        /\ Forall (fun l => type l = unchanged /\ wordDiff l = None) (left r)).
Proof.
  intros Hnl Hnr.
  destruct (computeDiff_returns diffWords localeCompare JSON_parse yaml_load diffLines
              _ _ _ _ _ _ _ Hnl Hnr) as (r & Hres).
  exists r. split; [ exact Hres | ]. intros Hd.
  destruct (computeDiff_walk diffWords localeCompare JSON_parse yaml_load diffLines
              _ _ _ _ _ _ _ _ Hnl Hnr Hres)
    as (_ & _ & _ & Hl & Hr & Hwl & Hwr & _).
  destruct (computeDiff_lines diffWords localeCompare JSON_parse yaml_load diffLines
              _ _ _ _ _ _ _ _ Hnl Hnr Hres)
    as (_ & _ & _ & _ & Hd').
  set (st := builtLines normalizedLeft normalizedRight) in *.
  assert (Hb : Built st) by apply changes_Built, initial_Built.
  destruct Hb as (_ & _ & Ba & Br & _).
  assert (Hn : Numbered st) by apply changes_Numbered, initial_Numbered.
  destruct Hn as (Hln & _ & Hrn & _ & Htl & Htr & Hu).
  rewrite Hd in Hd'. symmetry in Hd'. rewrite !orb_false_iff, !Nat.ltb_ge in Hd'.
  destruct Hd' as ((Za & Zr) & _).
  destruct (all_unchanged (leftLines st) removed Htl ltac:(discriminate)
              ltac:(lia)) as (Fl & Tl).
  destruct (all_unchanged (rightLines st) added Htr ltac:(discriminate)
              ltac:(lia)) as (Fr & Tr).
  rewrite Fl, Fr in Hu.
  assert (Elen : List.length (leftLines st) = List.length (rightLines st)).
  { rewrite <- (length_map content (leftLines st)), Hu. apply length_map. }
  assert (Ep : map plain (left r) = map plain (right r)).
  { rewrite Hl, Hr. apply plain_fields; [ | exact Hu | ].
    - now rewrite Hln, Hrn, Elen.
    - rewrite Tl, Tr. clear - Elen. revert Elen.
      generalize (rightLines st). induction (leftLines st) as [ | l L IH ];
        intros [ | r' R ] E; try discriminate; [ reflexivity | ].
      cbn [map]. f_equal. apply IH. now injection E. }
  assert (Tpl : map type (left r) = map (fun _ => unchanged) (left r)).
  { rewrite <- (map_plain_type (left r)), Hl, map_plain_type, Tl.
    rewrite <- (map_map plain (fun _ => unchanged) (left r)), Hl. now rewrite map_map. }
  assert (Tpr : map type (right r) = map (fun _ => unchanged) (right r)).
  { rewrite <- (map_plain_type (right r)), Hr, map_plain_type, Tr.
    rewrite <- (map_map plain (fun _ => unchanged) (right r)), Hr. now rewrite map_map. }
  assert (Hall : forall lines t,
             map type lines = map (fun _ => unchanged) lines ->
             t <> unchanged ->
             Forall (fun l => hasWords l = true -> type l = t) lines ->
             Forall (fun l => type l = unchanged /\ hasWords l = false) lines).
  { intros lines t E Ht H. induction H as [ | l lines Hw _ IH ]; [ constructor | ].
    cbn [map] in E. injection E as E E'. constructor; [ | now apply IH ].
    split; [ exact E | ]. destruct (hasWords l); [ | reflexivity ].
    rewrite (Hw eq_refl) in E. congruence. }
  pose proof (Hall _ removed Tpl ltac:(discriminate) Hwl) as Al.
  pose proof (Hall _ added Tpr ltac:(discriminate) Hwr) as Ar.
  split.
  - rewrite <- (fresh_plain (left r)), <- (fresh_plain (right r)); [ exact Ep | | ].
    + eapply Forall_impl; [ | exact Ar ]. now intros l (_ & H).
    + eapply Forall_impl; [ | exact Al ]. now intros l (_ & H).
  - eapply Forall_impl; [ | exact Al ]. intros l (H1 & H2). split; [ exact H1 | ].
    unfold hasWords in H2. now destruct (wordDiff l).
Qed.

End TextColumns.

Section WordLists.
Import TextDiff.

Variable diffWords : string -> string -> list Change.t.

Local Abbreviation wordDiffs := (TextDiff.wordDiffs diffWords).
Local Abbreviation greedyPairs := (TextDiff.greedyPairs diffWords).

Lemma pieces_sides changes :
  Forall (fun w => wordType w <> word_added) (map leftWord (filter onLeft changes))
  /\ Forall (fun w => wordType w <> word_removed) (map rightWord (filter onRight changes))
  /\ unchangedTexts (map leftWord (filter onLeft changes))
     = unchangedTexts (map rightWord (filter onRight changes)).
Proof.
  unfold unchangedTexts.
  induction changes as [ | c changes (H1 & H2 & H3) ];
    [ repeat split; constructor | ].
  cbn [filter].
  change (onLeft c) with (Change.removed c || negb (Change.added c)).
  change (onRight c) with (negb (Change.removed c)).
  destruct c as [ v a rm ]. cbn [Change.removed Change.added].
  destruct rm, a; cbn [orb negb map filter];
    try change (isUnchangedWord (leftWord {| Change.value := v; Change.added := true;
                                             Change.removed := true |})) with false;
    try change (isUnchangedWord (leftWord {| Change.value := v; Change.added := false;
                                             Change.removed := true |})) with false;
    try change (isUnchangedWord (leftWord {| Change.value := v; Change.added := false;
                                             Change.removed := false |})) with true;
    try change (isUnchangedWord (rightWord {| Change.value := v; Change.added := true;
                                              Change.removed := false |})) with false;
    try change (isUnchangedWord (rightWord {| Change.value := v; Change.added := false;
                                              Change.removed := false |})) with true;
    cbn [map];
    repeat split; try assumption; try (constructor; [ discriminate | assumption ]);
    try (cbn [leftWord rightWord value Change.value]; now rewrite H3).
Qed.

Lemma filter_fresh lines : Forall fresh lines -> filter hasWords lines = [].
Proof.
  induction 1 as [ | x lines Hx _ IH ]; [ reflexivity | ].
  cbn [filter]. unfold hasWords at 1. unfold fresh in Hx. now rewrite Hx.
Qed.

Lemma greedyPairs_paired n :
  forall L R : list DiffLine,
    List.length L + List.length R <= n ->
    Forall fresh L -> Forall fresh R ->
    Forall2 Paired (filter hasWords (fst (greedyPairs L R)))
                   (filter hasWords (snd (greedyPairs L R))).
Proof.
  induction n as [ | n IH ]; intros L R Hn HL HR.
  - destruct L, R; simpl in Hn; try lia. cbn. constructor.
  - destruct L as [ | l L ].
    { cbn. rewrite (filter_fresh _ HR). constructor. }
    destruct R as [ | r R ].
    { rewrite greedyPairs_nil_r. cbn [fst snd]. rewrite (filter_fresh _ HL). constructor. }
    inversion HL as [ | ? ? Hl HL' ]; inversion HR as [ | ? ? Hr HR' ]; subst.
    assert (Hwl : hasWords l = false) by (unfold hasWords; now rewrite Hl).
    assert (Hwr : hasWords r = false) by (unfold hasWords; now rewrite Hr).
    simpl in Hn. rewrite greedyPairs_cons.
    destruct (LineType_eqb (type l) removed) eqn:Tl;
      destruct (LineType_eqb (type r) added) eqn:Tr; cbn [andb].
    + rewrite wordDiffs_pieces.
      pose proof (IH L R ltac:(lia) HL' HR') as H.
      destruct (greedyPairs L R) as [ls rs]. cbn [fst snd filter hasWords setWordDiff wordDiff] in *.
      constructor; [ | exact H ].
      destruct (pieces_sides (diffWords (content l) (content r))) as (P1 & P2 & P3).
      unfold Paired. cbn [type wordDiff setWordDiff].
      split; [ now destruct (type l) | ]. split; [ now destruct (type r) | ].
      eexists _, _. repeat split; eassumption.
    + pose proof (IH L (r :: R) ltac:(simpl; lia) HL' HR) as H.
      destruct (greedyPairs L (r :: R)) as [ls rs]. cbn [fst snd filter] in *.
      now rewrite Hwl.
    + pose proof (IH (l :: L) R ltac:(simpl; lia) HL HR') as H.
      destruct (greedyPairs (l :: L) R) as [ls rs]. cbn [fst snd filter] in *.
      now rewrite Hwr.
    + pose proof (IH L R ltac:(lia) HL' HR') as H.
      destruct (greedyPairs L R) as [ls rs]. cbn [fst snd filter] in *.
      now rewrite Hwl, Hwr.
Qed.

Variable localeCompare : string -> string -> comparison.
Variable JSON_parse : string -> Completion Value.
Variable yaml_load : string -> Completion (option Value).
Variable diffLines : string -> string -> list Change.t.

Local Abbreviation normalizeContent :=
  (TextDiff.normalizeContent localeCompare JSON_parse yaml_load).
Local Abbreviation computeDiff :=
  (TextDiff.computeDiff localeCompare JSON_parse yaml_load diffLines diffWords).
Local Abbreviation builtLines := (TextDiff.builtLines diffLines).

(** X5. When the two normalized texts are strings, [computeDiff] returns
    a result in which the lines with a word list on the left and those on
    the right correspond one to one, in order: the k-th on the left is a
    removed line, the k-th on the right an added line, the left word list
    has no added piece and the right one no removed piece, and their
    unchanged pieces are the same texts in the same order. *)
Theorem computeDiff_word_lists leftContent rightContent leftFormat rightFormat options
        normalizedLeft normalizedRight :
  normalizeContent leftContent leftFormat options = Some normalizedLeft ->
  normalizeContent rightContent rightFormat options = Some normalizedRight ->
  exists r,
    computeDiff leftContent rightContent leftFormat rightFormat options = Normal r
    /\ Forall2 Paired (filter hasWords (left r)) (filter hasWords (right r)).
Proof.
  intros Hnl Hnr.
  destruct (computeDiff_returns diffWords localeCompare JSON_parse yaml_load diffLines
              _ _ _ _ _ _ _ Hnl Hnr) as (r & Hres).
  exists r. split; [ exact Hres | ].
  destruct (computeDiff_walk diffWords localeCompare JSON_parse yaml_load diffLines
              _ _ _ _ _ _ _ _ Hnl Hnr Hres)
    as (Hlines & Hfl & Hfr & _).
  set (st := builtLines normalizedLeft normalizedRight) in *.
  destruct (showWordDiff options).
  - pose proof (greedyPairs_paired _ (leftLines st) (rightLines st) (le_n _) Hfl Hfr) as H.
    destruct (greedyPairs (leftLines st) (rightLines st)) as [ls rs].
    injection Hlines as -> ->. exact H.
  - injection Hlines as -> ->.
    rewrite (filter_fresh _ Hfl), (filter_fresh _ Hfr). constructor.
Qed.

End WordLists.

Lemma computeDiff_columns_witness :
  TextDiff.normalizeContent String.compare JsonReader.parse JsonReader.load
    "a" json wordDiffShown = Some "a"
  /\ TextDiff.normalizeContent String.compare JsonReader.parse JsonReader.load
       "b" json wordDiffShown = Some "b"
  /\ exists r,
       TextDiff.computeDiff String.compare JsonReader.parse JsonReader.load
         (fun _ _ => hunks_abc_axc) replaceWords "a" "b" json json wordDiffShown
       = Normal r
       /\ map TextDiff.lineNumber (TextDiff.left r) = [ 1; 2; 3 ].
Proof.
  assert (H1 : TextDiff.normalizeContent String.compare JsonReader.parse JsonReader.load
                 "a" json wordDiffShown = Some "a") by reflexivity.
  assert (H2 : TextDiff.normalizeContent String.compare JsonReader.parse JsonReader.load
                 "b" json wordDiffShown = Some "b") by reflexivity.
  split; [ exact H1 | ]. split; [ exact H2 | ].
  destruct (computeDiff_columns replaceWords String.compare JsonReader.parse
              JsonReader.load (fun _ _ => hunks_abc_axc)
              "a" "b" json json wordDiffShown "a" "b" H1 H2) as (r & Hr & Hn & _).
  exists r. split; [ exact Hr | ]. rewrite Hn.
  vm_compute in Hr. injection Hr as <-. reflexivity.
Defined.

Lemma computeDiff_contents_witness :
  TextDiff.normalizeContent String.compare JsonReader.parse JsonReader.load
    "a" json wordDiffShown = Some "a"
  /\ TextDiff.normalizeContent String.compare JsonReader.parse JsonReader.load
       "b" json wordDiffShown = Some "b"
  /\ exists r,
       TextDiff.computeDiff String.compare JsonReader.parse JsonReader.load
         (fun _ _ => hunks_abc_axc) replaceWords "a" "b" json json wordDiffShown
       = Normal r
       /\ map TextDiff.content (TextDiff.left r) = [ "a"; "b"; "c" ]
       /\ map TextDiff.content (TextDiff.right r) = [ "a"; "x"; "c" ].
Proof.
  assert (H1 : TextDiff.normalizeContent String.compare JsonReader.parse JsonReader.load
                 "a" json wordDiffShown = Some "a") by reflexivity.
  assert (H2 : TextDiff.normalizeContent String.compare JsonReader.parse JsonReader.load
                 "b" json wordDiffShown = Some "b") by reflexivity.
  split; [ exact H1 | ]. split; [ exact H2 | ].
  destruct (computeDiff_contents replaceWords String.compare JsonReader.parse
              JsonReader.load (fun _ _ => hunks_abc_axc)
              "a" "b" json json wordDiffShown "a" "b" H1 H2) as (r & Hr & Hl & Hrt).
  exists r. split; [ exact Hr | ]. rewrite Hl, Hrt. split; reflexivity.
Defined.

Lemma computeDiff_no_differences_witness :
  TextDiff.normalizeContent String.compare JsonReader.parse JsonReader.load
    "[1]" json wordDiffShown = Some (Json.stringify2 (VArray [ VNumber 1 ]))
  /\ exists r,
       TextDiff.computeDiff String.compare JsonReader.parse JsonReader.load
         oneCommonHunk replaceWords "[1]" "[1]" json json wordDiffShown
       = Normal r
       /\ TextDiff.hasDifferences r = false
       /\ TextDiff.left r = TextDiff.right r
       /\ List.length (TextDiff.left r) = 3.
Proof.
  assert (H : TextDiff.normalizeContent String.compare JsonReader.parse JsonReader.load
                "[1]" json wordDiffShown = Some (Json.stringify2 (VArray [ VNumber 1 ])))
    by reflexivity.
  split; [ exact H | ].
  destruct (computeDiff_no_differences replaceWords String.compare JsonReader.parse
              JsonReader.load oneCommonHunk "[1]" "[1]" json json wordDiffShown
              _ _ H H) as (r & Hr & Hsame).
  exists r. split; [ exact Hr | ].
  assert (Hd : TextDiff.hasDifferences r = false
               /\ List.length (TextDiff.left r) = 3).
  { vm_compute in Hr. injection Hr as <-. split; reflexivity. }
  split; [ exact (proj1 Hd) | ].
  split; [ exact (proj1 (Hsame (proj1 Hd))) | exact (proj2 Hd) ].
Defined.

Lemma computeDiff_word_lists_witness :
  TextDiff.normalizeContent String.compare JsonReader.parse JsonReader.load
    "a" json wordDiffShown = Some "a"
  /\ TextDiff.normalizeContent String.compare JsonReader.parse JsonReader.load
       "b" json wordDiffShown = Some "b"
  /\ exists r,
       TextDiff.computeDiff String.compare JsonReader.parse JsonReader.load
         (fun _ _ => hunks_abc_axc) replaceWords "a" "b" json json wordDiffShown
       = Normal r
       /\ Forall2 Paired (filter TextDiff.hasWords (TextDiff.left r))
                         (filter TextDiff.hasWords (TextDiff.right r))
       /\ List.length (filter TextDiff.hasWords (TextDiff.left r)) = 1.
Proof.
  assert (H1 : TextDiff.normalizeContent String.compare JsonReader.parse JsonReader.load
                 "a" json wordDiffShown = Some "a") by reflexivity.
  assert (H2 : TextDiff.normalizeContent String.compare JsonReader.parse JsonReader.load
                 "b" json wordDiffShown = Some "b") by reflexivity.
  split; [ exact H1 | ]. split; [ exact H2 | ].
  destruct (computeDiff_word_lists replaceWords String.compare JsonReader.parse
              JsonReader.load (fun _ _ => hunks_abc_axc)
              "a" "b" json json wordDiffShown "a" "b" H1 H2) as (r & Hr & Hp).
  exists r. split; [ exact Hr | ]. split; [ exact Hp | ].
  vm_compute in Hr. injection Hr as <-. reflexivity.
Defined.

(** ** Records of the semantic diff *)

Section PathFacts.
Import SemanticDiff.

Lemma prefix_refl p : String.prefix p p = true.
Proof.
  induction p as [ | c p IH ]; [ reflexivity | ].
  cbn. destruct (ascii_dec c c); [ exact IH | congruence ].
Qed.

Lemma prefix_empty s : String.prefix EmptyString s = true.
Proof. now destruct s. Qed.

Lemma prefix_app p s : String.prefix p (p ++ s) = true.
Proof.
  induction p as [ | c p IH ]; [ apply prefix_empty | ].
  cbn. destruct (ascii_dec c c); [ exact IH | congruence ].
Qed.

Lemma prefix_trans p : forall q r,
  String.prefix p q = true -> String.prefix q r = true -> String.prefix p r = true.
Proof.
  induction p as [ | c p IH ]; intros q r Hpq Hqr; [ apply prefix_empty | ].
  destruct q as [ | d q ]; [ discriminate | ].
  destruct r as [ | e r ]; [ discriminate | ].
  cbn in *. destruct (ascii_dec c d); [ subst d | discriminate ].
  destruct (ascii_dec c e); [ | discriminate ]. now apply (IH q).
Qed.

Lemma prefix_orRoot p : String.prefix p (orRoot p) = true.
Proof. destruct p; [ reflexivity | apply prefix_refl ]. Qed.

Lemma prefix_childPath p p' : childPath p p' -> String.prefix p p' = true.
Proof.
  intros [ (i & ->) | (key & ->) ].
  - apply prefix_app.
  - unfold keyPath. destruct p; [ apply prefix_empty | apply prefix_app ].
Qed.

Lemma has_get_parsed key leftObj rightObj :
  plainObject leftObj ->
  JsObject.has key leftObj = false -> JsObject.has key rightObj = true ->
  exists v : Value, JsObject.get rightObj key = Val v.
Proof.
  intros Hp Hl Hr.
  assert (Hk : JsObject.onPrototype key = false).
  { destruct leftObj as [ | [ | ? | ? | ? | ? | props ] | ? | ]; cbn in Hp, Hl;
      try contradiction; [ now apply orb_false_iff in Hl | exact Hl ]. }
  destruct rightObj as [ | [ | ? | ? | ? | ? | props ] | ? | ]; cbn in Hr;
    try discriminate; [ | congruence ].
  rewrite Hk, orb_false_r in Hr. cbn. unfold JsObject.hasOwn in Hr.
  destruct (JsObject.own props key) as [ v | ]; [ now exists v | discriminate ].
Qed.

Lemma sortedOrNot_plain (ko : bool) u :
  plainObject u -> plainObject (if ko then sortObject u else u).
Proof.
  destruct ko; [ | tauto ].
  destruct u as [ | [ | | | | | props ] | | ]; cbn; tauto.
Qed.

Lemma count_types (cs : list SemanticChange) :
  List.length cs
  = List.length (filter (hasType added) cs) + List.length (filter (hasType removed) cs)
    + List.length (filter (hasType modified) cs)
    + List.length (filter (hasType type_changed) cs).
Proof.
  induction cs as [ | c cs IH ]; [ reflexivity | ].
  cbn [filter].
  assert (E : forall t, hasType t c
                        = match t, type c with
                          | added, added | removed, removed | modified, modified
                          | type_changed, type_changed => true
                          | _, _ => false
                          end) by reflexivity.
  rewrite !E. destruct (type c); cbn [List.length]; lia.
Qed.

End PathFacts.

Section RecordFacts.
Import SemanticDiff.

Variable localeCompare : string -> string -> comparison.

Local Abbreviation sortArray := (SemanticDiff.sortArray localeCompare).
Local Abbreviation compareDeep := (SemanticDiff.compareDeep localeCompare).

(** Where a record of [compareDeep] comes from: the call itself, or a call
    on an element or a property one level down. *)
Lemma compareDeep_record_cases left right path options c :
  In c (compareDeep left right path options) ->
  (c = TypeChanged (orRoot path) left right /\ getType left <> getType right)
  \/ (c = Modified (orRoot path) left right /\ getType left = getType right)
  \/ (exists path' (v : Value), childPath path path' /\ c = Added path' (Val v))
  \/ (exists path' (v : Value), childPath path path' /\ c = Removed path' (Val v))
  \/ (exists left' right' path',
         depthU left' < depthU left /\ childPath path path'
         /\ In c (compareDeep left' right' path' options)).
Proof.
  intros Hin.
  assert (Harr : forall a b, left = Val (VArray a) -> right = Val (VArray b) ->
             (exists path' (v : Value), childPath path path' /\ c = Added path' (Val v))
             \/ (exists path' (v : Value), childPath path path' /\ c = Removed path' (Val v))
             \/ (exists left' right' path',
                    depthU left' < depthU left /\ childPath path path'
                    /\ In c (compareDeep left' right' path' options))).
  { intros a b -> ->. rewrite compareDeep_eq in Hin. unfold pushedBy in Hin.
    change (negb (String.eqb (getType (Val (VArray a))) (getType (Val (VArray b)))))
      with false in Hin.
    cbv iota in Hin.
    set (la := if ignoreArrayOrder options then sortArray a else a) in *.
    set (lb := if ignoreArrayOrder options then sortArray b else b) in *.
    apply in_flat_map in Hin. destruct Hin as (i & Hi & Hin). apply in_seq in Hi.
    assert (Hchild : childPath path (itemPath path i)) by (left; now exists i).
    destruct (List.length la <=? i) eqn:La; [ | destruct (List.length lb <=? i) eqn:Lb ].
    - left. destruct Hin as [ <- | [] ]. apply Nat.leb_le in La.
      unfold JsArray.get. destruct (nth_error lb i) as [ v | ] eqn:E;
        [ now exists (itemPath path i), v | ].
      apply nth_error_None in E. lia.
    - right; left. destruct Hin as [ <- | [] ]. apply Nat.leb_gt in La.
      unfold JsArray.get. destruct (nth_error la i) as [ v | ] eqn:E;
        [ now exists (itemPath path i), v | ].
      apply nth_error_None in E. lia.
    - right; right. eexists _, _, _. split; [ | split; [ exact Hchild | exact Hin ] ].
      apply Nat.leb_gt in La.
      change (depthU (Val (VArray a))) with (2 * depth (VArray a)).
      apply get_item_depth; [ | exact La ].
      subst la. destruct (ignoreArrayOrder options); intros x Hx;
        [ now apply (sortArray_depth localeCompare) | now apply depth_item ]. }
  assert (Hobj : plainObject left -> plainObject right ->
             (exists path' (v : Value), childPath path path' /\ c = Added path' (Val v))
             \/ (exists path' (v : Value), childPath path path' /\ c = Removed path' (Val v))
             \/ (exists left' right' path',
                    depthU left' < depthU left /\ childPath path path'
                    /\ In c (compareDeep left' right' path' options))).
  { intros Hl Hr. rewrite compareDeep_objects in Hin by assumption. cbv zeta in Hin.
    pose proof (sortedOrNot_plain (ignoreKeyOrder options) left Hl) as Hlo.
    pose proof (sortedOrNot_plain (ignoreKeyOrder options) right Hr) as Hro.
    apply in_flat_map in Hin. destruct Hin as (key & Hkey & Hin).
    pose proof (object_child_depth left right options key Hl Hkey) as Hdepth.
    set (lo := if ignoreKeyOrder options then sortObject left else left) in *.
    set (ro := if ignoreKeyOrder options then sortObject right else right) in *.
    assert (Hchild : childPath path (keyPath path key)) by (right; now exists key).
    destruct (JsObject.has key lo) eqn:Hhl; destruct (JsObject.has key ro) eqn:Hhr;
      cbn [negb andb] in Hin.
    - right; right. eexists _, _, _. eauto.
    - right; left. destruct Hin as [ <- | [] ].
      destruct (has_get_parsed key ro lo Hro Hhr Hhl) as (v & ->).
      now exists (keyPath path key), v.
    - left. destruct Hin as [ <- | [] ].
      destruct (has_get_parsed key lo ro Hlo Hhl Hhr) as (v & ->).
      now exists (keyPath path key), v.
    - right; right. eexists _, _, _. eauto. }
  destruct (String.eqb (getType left) (getType right)) eqn:Et.
  - apply String.eqb_eq in Et.
    destruct left as [ | [ | ? | ? | ? | a | p ] | ? | ];
      destruct right as [ | [ | ? | ? | ? | a' | p' ] | ? | ];
      try discriminate Et;
      try (right; right; now apply Hobj);
      try (right; right; now eapply Harr);
      right; left; (split; [ | exact Et ]);
      rewrite compareDeep_eq in Hin; unfold pushedBy in Hin; cbn in Hin;
      match type of Hin with
      | In _ (if ?b then _ else _) => destruct b
      | _ => idtac
      end;
      first [ contradiction | destruct Hin as [ <- | [] ]; reflexivity ].
  - left. rewrite compareDeep_eq in Hin. unfold pushedBy in Hin. rewrite Et in Hin.
    destruct Hin as [ <- | [] ]. split; [ reflexivity | ].
    now apply String.eqb_neq.
Qed.

(** X6. Every record [compareDeep] produces has the shape of its type: an
    [added] record has a new value only and a [removed] record an old value
    only, in both cases a parsed value (never [undefined]); a [modified]
    record has two values of the same type name and a [type_changed]
    record two values of different type names, which it also carries. *)
Theorem compareDeep_well_formed left right path options :
  Forall WellFormed (compareDeep left right path options).
Proof.
  apply Forall_forall. intros c.
  remember (S (depthU left)) as fuel eqn:Hf.
  assert (Hd : depthU left < fuel) by lia. clear Hf.
  revert left right path Hd.
  induction fuel as [ | fuel IH ]; intros left right path Hd Hin; [ lia | ].
  apply compareDeep_record_cases in Hin.
  destruct Hin as [ (-> & Ht) | [ (-> & Ht) | [ (p & v & _ & ->) | [ (p & v & _ & ->)
                  | (l' & r' & p' & Hd' & _ & Hin) ] ] ] ].
  - unfold WellFormed. cbn. eexists _, _. repeat split; auto.
  - unfold WellFormed. cbn. repeat split. eexists _, _. repeat split; auto.
  - unfold WellFormed. cbn. repeat split. now exists v.
  - unfold WellFormed. cbn. repeat split. now exists v.
  - apply (IH l' r' p'); [ lia | exact Hin ].
Qed.

(** X7. Every record produced by a comparison at [path] lies at or below
    [path]: its path starts with [path]. *)
Theorem compareDeep_paths left right path options :
  Forall (fun c => String.prefix path (SemanticDiff.path c) = true)
         (compareDeep left right path options).
Proof.
  apply Forall_forall. intros c.
  remember (S (depthU left)) as fuel eqn:Hf.
  assert (Hd : depthU left < fuel) by lia. clear Hf.
  revert left right path Hd.
  induction fuel as [ | fuel IH ]; intros left right path Hd Hin; [ lia | ].
  apply compareDeep_record_cases in Hin.
  destruct Hin as [ (-> & Ht) | [ (-> & Ht) | [ (p & v & Hp & ->) | [ (p & v & Hp & ->)
                  | (l' & r' & p' & Hd' & Hp & Hin) ] ] ] ];
    cbn [SemanticDiff.path TypeChanged Modified Added Removed];
    try apply prefix_orRoot; try (now apply prefix_childPath).
  apply (prefix_trans path p'); [ now apply prefix_childPath | ].
  apply (IH l' r' p'); [ lia | exact Hin ].
Qed.

(** X8. Swapping the sides of a comparison gives the same records seen from
    the other side (old and new values and type names exchanged, [added]
    and [removed] exchanged), up to their order. *)
Theorem compareDeep_swapped_records left right path options :
  Permutation (compareDeep right left path options)
              (map swapSides (compareDeep left right path options)).
Proof. apply (compareDeep_swap localeCompare (S (depthU left))). lia. Qed.

Variable JSON_parse : string -> Completion Value.
Variable yaml_load : string -> Completion (option Value).

Local Abbreviation parseContent := (SemanticDiff.parseContent JSON_parse yaml_load).
Local Abbreviation computeSemanticDiff :=
  (SemanticDiff.computeSemanticDiff localeCompare JSON_parse yaml_load).

(** X9. A value without [NaN] compared with itself gives no record,
    whatever the path and the options, while [NaN] compared with itself
    gives one [modified] record ([NaN !== NaN]). A text whose document has
    no [NaN], compared with itself in the same format, is reported
    identical with all counts zero; a text that does not parse gives the
    parse error result. *)
Theorem compareDeep_reflexive :
  (forall (u : Unknown) path options,
      nanFreeU u = true -> compareDeep u u path options = [])
  /\ (forall path options,
         compareDeep (VNumber NaN) (VNumber NaN) path options
         = [ Modified (orRoot path) (Val (VNumber NaN)) (Val (VNumber NaN)) ])
  /\ (forall content format options doc,
         parseContent content format = Normal doc -> nanFreeU doc = true ->
         computeSemanticDiff content content format format options = identicalResult)
  /\ (forall content format options message,
         parseContent content format = Throw message ->
         computeSemanticDiff content content format format options
         = parseErrorResult message).
Proof.
  assert (H : forall (u : Unknown) path options,
             nanFreeU u = true -> compareDeep u u path options = []).
  { intros u path options.
    apply (compareDeep_identity localeCompare (S (depthU u))). lia. }
  split; [ exact H | ]. split; [ | split ].
  - intros path options. now rewrite (compareDeep_eq localeCompare).
  - intros content format options doc Hdoc Hnan.
    unfold SemanticDiff.computeSemanticDiff. rewrite Hdoc.
    destruct doc as [ | v | name | ]; cbn [isUndefined andb]; try reflexivity;
      rewrite (H _ _ _ Hnan); reflexivity.
  - intros content format options message Hdoc.
    unfold SemanticDiff.computeSemanticDiff. now rewrite Hdoc.
Qed.

(** X10. The summary of every result of [computeSemanticDiff] agrees with
    its change list, also when a text does not parse: each count is the
    number of records of that type, the total is the number of records and
    the sum of the four counts, and the result is identical exactly when
    there is no record. *)
Theorem summary_consistent leftContent rightContent leftFormat rightFormat options :
  let r := computeSemanticDiff leftContent rightContent leftFormat rightFormat options in
  summary r = summarize (changes r)
  /\ s_total (summary r)
     = s_added (summary r) + s_removed (summary r) + s_modified (summary r)
       + s_typeChanged (summary r)
  /\ (isIdentical r = true <-> changes r = []).
Proof.
  cbv zeta.
  assert (E : summary (computeSemanticDiff leftContent rightContent leftFormat
                         rightFormat options)
              = summarize (changes (computeSemanticDiff leftContent rightContent
                                      leftFormat rightFormat options))
              /\ (isIdentical (computeSemanticDiff leftContent rightContent leftFormat
                                 rightFormat options) = true
                  <-> changes (computeSemanticDiff leftContent rightContent leftFormat
                                 rightFormat options) = [])).
  { unfold SemanticDiff.computeSemanticDiff.
    destruct (parseContent leftContent leftFormat) as [ l | ml ];
      [ | split; [ reflexivity | split; discriminate ] ].
    destruct (parseContent rightContent rightFormat) as [ r | mr ];
      [ | split; [ reflexivity | split; discriminate ] ].
    destruct (isUndefined l && isUndefined r);
      [ split; [ reflexivity | split; reflexivity ] | ].
    cbn [summary changes isIdentical]. split; [ reflexivity | ].
    rewrite Nat.eqb_eq. split; [ apply length_zero_iff_nil | now intros -> ]. }
  destruct E as (E1 & E2). split; [ exact E1 | ]. split; [ | exact E2 ].
  rewrite E1. cbn [summarize s_total s_added s_removed s_modified s_typeChanged].
  apply count_types.
Qed.

End RecordFacts.

(** ** The order of keys *)

Section KeyOrderFacts.
Import SemanticDiff.

Lemma sameNumber_eq x y : sameNumber x y = true -> x = y.
Proof.
  destruct x, y; cbn; try discriminate; [ | reflexivity ].
  intros H. apply Z.eqb_eq in H. now subst.
Qed.

Lemma keyLe_antisym x y : keyLe x y -> keyLe y x -> x = y.
Proof.
  unfold keyLe. intros Hxy Hyx. apply String.compare_eq_iff.
  rewrite String.compare_antisym in Hyx.
  destruct (String.compare x y); cbn in *; congruence.
Qed.

Lemma sorted_perm_unique {A : Type} (le : A -> A -> Prop) (l1 : list A) :
  forall l2, StronglySorted le l1 -> StronglySorted le l2 -> Permutation l1 l2 ->
             (forall x y, In x l1 -> In y l1 -> le x y -> le y x -> x = y) ->
             l1 = l2.
Proof.
  induction l1 as [ | x l1 IH ]; intros l2 H1 H2 Hp Hanti.
  - apply Permutation_nil in Hp. now subst.
  - destruct l2 as [ | y l2 ]; [ apply Permutation_sym, Permutation_nil in Hp; discriminate | ].
    inversion H1 as [ | ? ? S1 F1 ]; inversion H2 as [ | ? ? S2 F2 ]; subst.
    rewrite Forall_forall in F1, F2.
    assert (E : x = y).
    { assert (Hx : In x (y :: l2)) by (apply (Permutation_in _ Hp); now left).
      assert (Hy : In y (x :: l1))
        by (apply (Permutation_in _ (Permutation_sym Hp)); now left).
      destruct Hx as [ -> | Hx ]; [ reflexivity | ].
      destruct Hy as [ -> | Hy ]; [ reflexivity | ].
      apply Hanti; [ now left | now right | now apply F1 | now apply F2 ]. }
    subst y. f_equal. apply IH; try assumption.
    + now apply Permutation_cons_inv in Hp.
    + intros a b Ha Hb. apply Hanti; now right.
Qed.

Lemma sorted_perm_eq l1 l2 :
  StronglySorted keyLe l1 -> StronglySorted keyLe l2 -> Permutation l1 l2 -> l1 = l2.
Proof.
  intros H1 H2 Hp. apply (sorted_perm_unique keyLe); try assumption.
  intros x y _ _. apply keyLe_antisym.
Qed.

Lemma sort_keys_perm k1 k2 :
  Permutation k1 k2 -> JsArray.sort String.compare k1 = JsArray.sort String.compare k2.
Proof.
  intros Hp. apply sorted_perm_eq; try apply sorted_keys_strongly.
  etransitivity; [ apply sort_perm | ].
  etransitivity; [ exact Hp | ]. apply Permutation_sym, sort_perm.
Qed.

Lemma distinctKeys_NoDup keys : distinctKeys keys = true -> NoDup keys.
Proof.
  induction keys as [ | k keys IH ]; intros H; [ constructor | ].
  cbn in H. apply andb_true_iff in H. destruct H as (Hk & H).
  constructor; [ | now apply IH ].
  intros Hin. apply negb_true_iff in Hk.
  assert (existsb (String.eqb k) keys = true); [ | congruence ].
  apply existsb_exists. exists k. split; [ exact Hin | apply String.eqb_refl ].
Qed.

Lemma allPairs_Forall2 {A B : Type} (f : A -> B -> bool) l :
  forall r, allPairs f l r = true -> Forall2 (fun x y => f x y = true) l r.
Proof.
  induction l as [ | x l IH ]; intros [ | y r ] H; try discriminate; [ constructor | ].
  cbn in H. apply andb_true_iff in H. destruct H as (Hxy & H).
  constructor; [ exact Hxy | now apply IH ].
Qed.

Lemma Forall2_nth_error {A B : Type} (R : A -> B -> Prop) l r :
  Forall2 R l r ->
  forall i x, nth_error l i = Some x -> exists y, nth_error r i = Some y /\ R x y.
Proof.
  induction 1 as [ | x0 y0 l r Hxy _ IH ]; intros [ | i ] x E; try discriminate.
  - injection E as <-. now exists y0.
  - now apply IH.
Qed.

Lemma same_object_inv l b :
  sameUpToKeyOrder (VObject l) b = true ->
  exists r, b = VObject r
            /\ NoDup (map fst l) /\ NoDup (map fst r)
            /\ Permutation (map fst l) (map fst r)
            /\ forall k x, In (k, x) l ->
                 exists y, JsObject.own r k = Some y /\ sameUpToKeyOrder x y = true.
Proof.
  destruct b as [ | | | | | r ]; try discriminate. cbn [sameUpToKeyOrder].
  rewrite !andb_true_iff, Nat.eqb_eq, forallb_forall.
  intros (((Hl & Hr) & Hlen) & Hall). exists r.
  apply distinctKeys_NoDup in Hl, Hr.
  assert (Hfind : forall k x, In (k, x) l ->
             exists y, JsObject.own r k = Some y /\ sameUpToKeyOrder x y = true).
  { intros k x Hin. specialize (Hall _ Hin). cbn [fst snd] in Hall.
    destruct (JsObject.own r k) as [ y | ]; [ now exists y | discriminate ]. }
  repeat split; try assumption.
  apply NoDup_Permutation_bis; [ exact Hl | rewrite !length_map; lia | ].
  intros k Hk. apply in_map_iff in Hk. destruct Hk as ([k' x] & <- & Hin).
  destruct (Hfind _ _ Hin) as (y & Hy & _). apply own_In in Hy.
  apply (in_map fst) in Hy. exact Hy.
Qed.

Lemma own_map_values (g : Value -> Value) (l : JsObject.Props) k :
  JsObject.own (map (fun kv : string * Value => let (k', x) := kv in (k', g x)) l) k
  = option_map g (JsObject.own l k).
Proof.
  induction l as [ | [k' x] l IH ]; [ reflexivity | ].
  cbn. destruct (String.eqb k' k); [ reflexivity | exact IH ].
Qed.

Lemma assignEach_ext keys (f g : string -> Value) :
  forall target, (forall k, In k keys -> f k = g k) ->
                 JsObject.assignEach keys f target = JsObject.assignEach keys g target.
Proof.
  unfold JsObject.assignEach.
  induction keys as [ | k keys IH ]; intros target H; [ reflexivity | ].
  cbn [fold_left]. rewrite (H k) by now left. apply IH. intros; apply H; now right.
Qed.

Lemma own_same_keys (l r : JsObject.Props) k :
  Permutation (map fst l) (map fst r) ->
  JsObject.own l k = None -> JsObject.own r k = None.
Proof.
  intros Hp Hl. apply own_None. apply own_None in Hl. intros Hin. apply Hl.
  apply (Permutation_in _ (Permutation_sym Hp)), Hin.
Qed.

(** Values that differ in the order of keys only have the same key-sorted
    form. *)
Lemma same_sorted a :
  forall b, sameUpToKeyOrder a b = true -> sortObjectValue a = sortObjectValue b.
Proof.
  induction a as [ | x | x | x | l IH | l IH ] using Value_induction; intros b H.
  - now destruct b.
  - destruct b; try discriminate. cbn in H. apply Bool.eqb_prop in H. now subst.
  - destruct b; try discriminate. cbn in H. apply sameNumber_eq in H. now subst.
  - destruct b; try discriminate. cbn in H. apply String.eqb_eq in H. now subst.
  - destruct b as [ | | | | r | ]; try discriminate. cbn [sameUpToKeyOrder] in H.
    apply allPairs_Forall2 in H. cbn [sortObjectValue]. f_equal.
    induction H as [ | x y l r Hxy _ IHl ]; [ reflexivity | ].
    inversion IH as [ | ? ? Hx IH' ]; subst. cbn [map]. f_equal; [ now apply Hx | ].
    now apply IHl.
  - destruct (same_object_inv _ _ H) as (r & -> & Hl & Hr & Hp & Hfind).
    cbn [sortObjectValue]. f_equal. rewrite (sort_keys_perm _ _ Hp).
    apply assignEach_ext. intros k Hk. rewrite !own_map_values.
    apply sort_In in Hk. apply (Permutation_in _ (Permutation_sym Hp)) in Hk.
    apply in_map_iff in Hk. destruct Hk as ([k' x] & <- & Hin). cbn [fst].
    destruct (Hfind _ _ Hin) as (y & Hy & Hxy).
    rewrite (proj2 (own_In_iff String.compare l k' x Hl) Hin), Hy. cbn [option_map].
    rewrite Forall_forall in IH. apply (IH _ Hin). exact Hxy.
Qed.

Lemma same_scalar a b :
  sameUpToKeyOrder a b = true ->
  TextDiff.isObjectNotNull a = TextDiff.isObjectNotNull b
  /\ (TextDiff.isObjectNotNull a = false -> a = b).
Proof.
  destruct a, b; try discriminate; cbn; intros H; split; try reflexivity;
    try discriminate; intros _.
  - apply Bool.eqb_prop in H. now subst.
  - apply sameNumber_eq in H. now subst.
  - apply String.eqb_eq in H. now subst.
Qed.

End KeyOrderFacts.

Section KeyOrderInsensitive.
Import SemanticDiff.

Variable localeCompare : string -> string -> comparison.

Local Abbreviation sortArray := (SemanticDiff.sortArray localeCompare).
Local Abbreviation compareDeep := (SemanticDiff.compareDeep localeCompare).

Lemma compareDeep_same u path options :
  nanFreeU u = true -> compareDeep u u path options = [].
Proof. apply (compareDeep_identity localeCompare (S (depthU u))). lia. Qed.

Lemma same_no_record (a b : Value) path options :
  sameUpToKeyOrder a b = true -> nanFree a = true ->
  compareDeep a b path options = [].
Proof.
  revert b path.
  induction a as [ | x | x | x | l IH | l IH ] using Value_induction;
    intros b path H Hn.
  - destruct b; try discriminate. now apply compareDeep_same.
  - destruct b; try discriminate. cbn in H. apply Bool.eqb_prop in H. subst.
    now apply compareDeep_same.
  - destruct b; try discriminate. cbn in H. apply sameNumber_eq in H. subst.
    now apply compareDeep_same.
  - destruct b; try discriminate. cbn in H. apply String.eqb_eq in H. subst.
    now apply compareDeep_same.
  - destruct b as [ | | | | r | ]; try discriminate. cbn [sameUpToKeyOrder] in H.
    apply allPairs_Forall2 in H. rewrite compareDeep_arrays.
    destruct (ignoreArrayOrder options).
    + assert (E : map sortObjectValue l = map sortObjectValue r).
      { clear IH Hn. induction H as [ | x y l r Hxy _ IHl ]; [ reflexivity | ].
        cbn [map]. f_equal; [ now apply same_sorted | exact IHl ]. }
      unfold SemanticDiff.sortArray. rewrite <- E. unfold pairByIndex.
      apply flat_map_nil. intros i _.
      destruct (nth_error _ i) as [ x | ] eqn:Ex; [ | reflexivity ].
      apply compareDeep_same. apply nth_error_In, sort_In, in_map_iff in Ex.
      destruct Ex as (y & <- & Hy).
      apply nanFree_sortObjectValue, (nanFree_item l), Hy. exact Hn.
    + unfold pairByIndex. apply flat_map_nil. intros i Hi. apply in_seq in Hi.
      pose proof (Forall2_length H) as Hlen. rewrite <- Hlen, Nat.max_id in Hi.
      destruct (nth_error l i) as [ x | ] eqn:El; [ | apply nth_error_None in El; lia ].
      destruct (Forall2_nth_error _ _ _ H i x El) as (y & -> & Hxy).
      apply nth_error_In in El.
      rewrite Forall_forall in IH. apply (IH x El); [ exact Hxy | ].
      now apply (nanFree_item l).
  - destruct (same_object_inv _ _ H) as (r & -> & Hl & Hr & Hp & Hfind).
    rewrite compareDeep_objects by exact I. cbv zeta.
    destruct (ignoreKeyOrder options).
    + change (sortObject (Val (VObject l))) with (Val (sortObjectValue (VObject l))).
      change (sortObject (Val (VObject r))) with (Val (sortObjectValue (VObject r))).
      rewrite <- (same_sorted _ _ H).
      apply flat_map_nil. intros key _.
      assert (Hg : nanFreeU (JsObject.get (Val (sortObjectValue (VObject l))) key) = true)
        by (apply nanFree_get; now apply nanFree_sortObjectValue).
      destruct (JsObject.has key _); cbn [negb andb]; now apply compareDeep_same.
    + apply flat_map_nil. intros key _.
      pose proof (nanFree_get (Val (VObject l)) key Hn) as Hg.
      cbn [JsObject.has JsObject.get] in *.
      unfold JsObject.hasOwn.
      destruct (JsObject.own l key) as [ x | ] eqn:El.
      * apply own_In in El. destruct (Hfind _ _ El) as (y & -> & Hxy).
        cbn [orb negb andb]. rewrite Forall_forall in IH.
        apply (IH _ El); [ exact Hxy | exact Hg ].
      * rewrite (own_same_keys l r key Hp El). cbn [orb].
        destruct (JsObject.onPrototype key); cbn [negb andb];
          now apply compareDeep_same.
Qed.

(** X11. Two values without [NaN] that differ at most in the order of the
    keys of their objects, at any depth, compare without a record,
    whatever the options: the comparison goes by key, so [ignoreKeyOrder]
    is not needed for it. *)
Theorem compareDeep_key_order (a b : Value) path options :
  sameUpToKeyOrder a b = true -> nanFree a = true ->
  compareDeep a b path options = [].
Proof. apply same_no_record. Qed.

End KeyOrderInsensitive.

Lemma compareDeep_key_order_witness :
  sameUpToKeyOrder nested_ab nested_ba = true
  /\ nanFree nested_ab = true
  /\ SemanticDiff.compareDeep String.compare nested_ab nested_ba EmptyString defaultOptions
     = [].
Proof.
  assert (H : sameUpToKeyOrder nested_ab nested_ba = true) by reflexivity.
  assert (Hn : nanFree nested_ab = true) by reflexivity.
  split; [ exact H | ]. split; [ exact Hn | ].
  exact (compareDeep_key_order String.compare nested_ab nested_ba EmptyString
           defaultOptions H Hn).
Defined.

Section OneMore.
Import SemanticDiff.

Lemma own_sortedOrNot (ko : bool) (l : JsObject.Props) key :
  JsObject.own (propsOf (if ko then sortObjectValue (VObject l) else VObject l)) key
  = if ko
    then if String.eqb key "__proto__" then None
         else option_map sortObjectValue (JsObject.own l key)
    else JsObject.own l key.
Proof.
  destruct ko; [ | reflexivity ].
  cbn [sortObjectValue propsOf]. rewrite own_assignEach.
  rewrite own_map_values. cbn [JsObject.own].
  destruct (String.eqb key "__proto__"); cbn [negb]; [ now rewrite andb_false_r | ].
  rewrite andb_true_r.
  destruct (JsObject.own l key) as [ x | ] eqn:E; cbn [option_map].
  - replace (existsb (String.eqb key) (JsArray.sort String.compare (map fst l))) with true;
      [ reflexivity | ].
    symmetry. apply existsb_exists. exists key. split; [ | apply String.eqb_refl ].
    apply sort_In. apply own_In in E. apply (in_map fst) in E. exact E.
  - replace (existsb (String.eqb key) (JsArray.sort String.compare (map fst l))) with false;
      [ reflexivity | ].
    symmetry. apply not_true_is_false. intros H. apply existsb_exists in H.
    destruct H as (k' & Hin & Hk). apply String.eqb_eq in Hk. subst k'.
    apply sort_In in Hin. now apply own_None in E.
Qed.

Lemma flat_map_one {A B : Type} (f : A -> list B) (l : list A) a :
  NoDup l -> In a l -> (forall x, In x l -> x <> a -> f x = []) ->
  flat_map f l = f a.
Proof.
  induction l as [ | x l IH ]; intros Hnd Hin H; [ now elim Hin | ].
  inversion Hnd as [ | ? ? Hx Hnd' ]; subst. cbn [flat_map].
  destruct Hin as [ -> | Hin ].
  - rewrite (flat_map_nil f l), app_nil_r; [ reflexivity | ].
    intros y Hy. apply H; [ now right | ]. intros ->. contradiction.
  - rewrite (H x); [ | now left | intros ->; contradiction ].
    cbn [app]. apply IH; try assumption. intros y Hy. apply H. now right.
Qed.

Lemma tail_lines {B : Type} (record : nat -> Value -> B) (extra : list Value) :
  forall n,
    flat_map (fun i => match nth_error extra (i - n) with
                       | Some y => [ record i y ]
                       | None => []
                       end)
             (seq n (List.length extra))
    = map (fun iv : nat * Value => record (fst iv) (snd iv))
          (combine (seq n (List.length extra)) extra).
Proof.
  induction extra as [ | y extra IH ]; intros n; [ reflexivity | ].
  cbn [List.length seq flat_map combine map fst snd].
  rewrite Nat.sub_diag. cbn [nth_error app]. f_equal.
  rewrite <- IH. apply flat_map_ext_In. intros i Hi. apply in_seq in Hi.
  replace (i - n) with (S (i - S n)) by lia. reflexivity.
Qed.

End OneMore.

Section Edits.
Import SemanticDiff.

Variable localeCompare : string -> string -> comparison.

Local Abbreviation compareDeep := (SemanticDiff.compareDeep localeCompare).

(** X12. With arrays compared in order, elements appended to an array
    without [NaN] are reported as additions, one record for each at its
    index, and nothing else is reported; elements cut off the end of an
    array are reported as removals in the same way. *)
Theorem compareDeep_appended (l extra : list Value) path options :
  ignoreArrayOrder options = false -> nanFree (VArray l) = true ->
  compareDeep (VArray l) (VArray (l ++ extra)) path options
  = map (fun iv : nat * Value => Added (itemPath path (fst iv)) (Val (snd iv)))
        (combine (seq (List.length l) (List.length extra)) extra)
  /\ compareDeep (VArray (l ++ extra)) (VArray l) path options
     = map (fun iv : nat * Value => Removed (itemPath path (fst iv)) (Val (snd iv)))
           (combine (seq (List.length l) (List.length extra)) extra).
Proof.
  intros Ho Hn. rewrite !compareDeep_arrays, Ho. unfold pairByIndex.
  rewrite length_app, Nat.max_r, Nat.max_l by lia.
  rewrite seq_app, !flat_map_app. cbn [Nat.add].
  rewrite !(flat_map_nil _ (seq 0 (List.length l))).
  - cbn [app].
    rewrite <- (tail_lines (fun i y => Added (itemPath path i) (Val y))).
    rewrite <- (tail_lines (fun i y => Removed (itemPath path i) (Val y))).
    split; apply flat_map_ext_In; intros i Hi;
      apply in_seq in Hi;
      (replace (nth_error l i) with (@None Value)
         by (symmetry; apply nth_error_None; lia));
      rewrite nth_error_app2 by lia; reflexivity.
  - intros i Hi. apply in_seq in Hi. rewrite nth_error_app1 by lia.
    destruct (nth_error l i) as [ x | ] eqn:Ex; [ | reflexivity ].
    apply (compareDeep_same localeCompare), (nanFree_item l); [ exact Hn | ].
    now apply nth_error_In in Ex.
  - intros i Hi. apply in_seq in Hi. rewrite nth_error_app1 by lia.
    destruct (nth_error l i) as [ x | ] eqn:Ex; [ | reflexivity ].
    apply (compareDeep_same localeCompare), (nanFree_item l); [ exact Hn | ].
    now apply nth_error_In in Ex.
Qed.

(** X13. An object without [NaN] that gains one property, wherever it is
    put, is reported by exactly one [added] record at the key of the
    property, with its value (key-sorted under [ignoreKeyOrder]), provided
    the key is not a name found on [Object.prototype] and, when
    [ignoreKeyOrder] is set, the keys are ordinary ones (not [__proto__],
    whose assignment sets the prototype of the sorted copy, and not digits
    only); losing the property gives the [removed] record in the same
    way. *)
Theorem compareDeep_property_added (l r : JsObject.Props) k (v : Value) path options :
  NoDup (map fst r) -> Permutation r ((k, v) :: l) ->
  JsObject.onPrototype k = false ->
  nanFree (VObject l) = true ->
  (ignoreKeyOrder options = true -> ordinaryKeys (VObject r) = true) ->
  compareDeep (VObject l) (VObject r) path options
  = [ Added (keyPath path k) (Val (asCompared options v)) ]
  /\ compareDeep (VObject r) (VObject l) path options
     = [ Removed (keyPath path k) (Val (asCompared options v)) ].
Proof.
  intros Hnd Hperm Hk Hn _.
  assert (HL : forall key, nanFreeU (JsObject.get
                 (Val (if ignoreKeyOrder options
                       then sortObjectValue (VObject l) else VObject l)) key) = true).
  { intros key. apply nanFree_get. destruct (ignoreKeyOrder options);
      [ now apply nanFree_sortObjectValue | exact Hn ]. }
  assert (Hkp : String.eqb k "__proto__" = false).
  { unfold JsObject.onPrototype in Hk. now apply orb_false_iff in Hk. }
  assert (Hnd' : NoDup (k :: map fst l)).
  { apply (Permutation_NoDup (Permutation_map fst Hperm)), Hnd. }
  inversion Hnd' as [ | ? ? Hkl Hndl ]; subst.
  assert (Hr : forall key, JsObject.own r key
                           = if String.eqb k key then Some v else JsObject.own l key).
  { intros key. now rewrite (own_perm String.compare r ((k, v) :: l) key Hnd Hperm). }
  assert (Hl : JsObject.own l k = None) by now apply own_None.
  assert (E : compareDeep (VObject l) (VObject r) path options
              = [ Added (keyPath path k) (Val (asCompared options v)) ]).
  { rewrite compareDeep_objects by exact I. cbv zeta.
    destruct (sortedOrNot_props (ignoreKeyOrder options) l) as (L & EL' & EL & _).
    rewrite EL'.
    destruct (sortedOrNot_props (ignoreKeyOrder options) r) as (R & -> & ER & _).
    assert (HL' : forall key, nanFreeU (JsObject.get (Val (VObject L)) key) = true).
    { intros key. rewrite <- EL'. destruct (ignoreKeyOrder options); apply HL. }
    assert (OL : forall key, JsObject.own L key
                   = if ignoreKeyOrder options
                     then if String.eqb key "__proto__" then None
                          else option_map sortObjectValue (JsObject.own l key)
                     else JsObject.own l key)
      by (intros key; subst L; apply own_sortedOrNot).
    assert (OR : forall key, JsObject.own R key
                   = if ignoreKeyOrder options
                     then if String.eqb key "__proto__" then None
                          else option_map sortObjectValue (JsObject.own r key)
                     else JsObject.own r key)
      by (intros key; subst R; apply own_sortedOrNot).
    clear EL ER.
    assert (ORk : JsObject.own R k = Some (asCompared options v)).
    { rewrite OR, Hr, String.eqb_refl, Hkp. unfold asCompared.
      now destruct (ignoreKeyOrder options). }
    assert (OLk : JsObject.own L k = None).
    { rewrite OL, Hl, Hkp. now destruct (ignoreKeyOrder options). }
    assert (Oother : forall key, key <> k -> JsObject.own R key = JsObject.own L key).
    { intros key Hne. rewrite OR, OL, Hr.
      destruct (String.eqb k key) eqn:Ek; [ | reflexivity ].
      apply String.eqb_eq in Ek. congruence. }
    rewrite (flat_map_one _ _ k).
    - cbn [JsObject.has JsObject.get]. unfold JsObject.hasOwn.
      rewrite OLk, ORk, Hk. reflexivity.
    - apply distinct_NoDup.
    - apply distinct_In_iff. split; [ | tauto ]. apply in_or_app. right.
      cbn [JsObject.keys]. apply own_In in ORk. apply (in_map fst) in ORk. exact ORk.
    - intros key _ Hne. specialize (HL' key).
      cbn [JsObject.has JsObject.get] in *. unfold JsObject.hasOwn.
      rewrite (Oother key Hne).
      destruct (JsObject.own L key); cbn [orb negb andb];
        [ now apply (compareDeep_same localeCompare) | ].
      destruct (JsObject.onPrototype key); cbn [negb andb];
        now apply (compareDeep_same localeCompare). }
  split; [ exact E | ].
  pose proof (compareDeep_swap localeCompare (S (depthU (VObject l))) (VObject l) (VObject r)
                path options ltac:(lia)) as Hswap.
  rewrite E in Hswap. cbn [map] in Hswap.
  apply Permutation_sym, Permutation_length_1_inv in Hswap. exact Hswap.
Qed.

Variable JSON_parse : string -> Completion Value.
Variable yaml_load : string -> Completion (option Value).

Local Abbreviation parse := (TextDiff.parse JSON_parse yaml_load).
Local Abbreviation normalizeContent :=
  (TextDiff.normalizeContent localeCompare JSON_parse yaml_load).

(** X14. With [ignoreKeyOrder], two texts whose documents differ at most in
    the order of the keys of their objects, at any depth, have the same
    canonical text, whatever the other options. *)
Theorem normalizeContent_key_order leftContent rightContent leftFormat rightFormat
        options (a b : Value) :
  ignoreKeyOrder options = true ->
  parse leftContent leftFormat = Normal (Val a) ->
  parse rightContent rightFormat = Normal (Val b) ->
  sameUpToKeyOrder a b = true ->
  normalizeContent leftContent leftFormat options
  = normalizeContent rightContent rightFormat options.
Proof.
  intros Ho Ha Hb Hab. unfold TextDiff.normalizeContent. rewrite Ha, Hb, Ho.
  cbn [andb].
  destruct (same_scalar a b Hab) as (Hkind & Hscalar).
  assert (E : (if TextDiff.isObjectNotNull a then TextDiff.sortObjectDeep a else a)
              = (if TextDiff.isObjectNotNull b then TextDiff.sortObjectDeep b else b)).
  { rewrite <- Hkind. destruct (TextDiff.isObjectNotNull a) eqn:Ea.
    - unfold TextDiff.sortObjectDeep. now apply same_sorted.
    - now apply Hscalar. }
  rewrite E. reflexivity.
Qed.

End Edits.

Lemma compareDeep_appended_witness :
  ignoreArrayOrder defaultOptions = false
  /\ nanFree (VArray [ VNumber 1 ]) = true
  /\ SemanticDiff.compareDeep String.compare
       (VArray [ VNumber 1 ]) (VArray ([ VNumber 1 ] ++ [ VNumber 2; VNull ]))
       "a" defaultOptions
     = [ SemanticDiff.Added "a[1]" (Val (VNumber 2)); SemanticDiff.Added "a[2]" (Val VNull) ].
Proof.
  assert (H : ignoreArrayOrder defaultOptions = false) by reflexivity.
  assert (H' : nanFree (VArray [ VNumber 1 ]) = true) by reflexivity.
  split; [ exact H | ]. split; [ exact H' | ].
  exact (proj1 (compareDeep_appended String.compare [ VNumber 1 ] [ VNumber 2; VNull ]
                  "a" defaultOptions H H')).
Defined.

Lemma compareDeep_property_added_witness :
  NoDup (map fst [ ("b", VNumber 2); ("a", VNumber 1) ])
  /\ Permutation [ ("b", VNumber 2); ("a", VNumber 1) ]
                 (("b", VNumber 2) :: [ ("a", VNumber 1) ])
  /\ JsObject.onPrototype "b" = false
  /\ nanFree (VObject [ ("a", VNumber 1) ]) = true
  /\ (ignoreKeyOrder keyOrderIgnored = true ->
      ordinaryKeys (VObject [ ("b", VNumber 2); ("a", VNumber 1) ]) = true)
  /\ SemanticDiff.compareDeep String.compare
       (VObject [ ("a", VNumber 1) ]) (VObject [ ("b", VNumber 2); ("a", VNumber 1) ])
       EmptyString keyOrderIgnored
     = [ SemanticDiff.Added "b" (Val (VNumber 2)) ].
Proof.
  assert (H1 : NoDup (map fst [ ("b", VNumber 2); ("a", VNumber 1) ])).
  { cbn. repeat constructor; cbn; intuition discriminate. }
  assert (H2 : Permutation [ ("b", VNumber 2); ("a", VNumber 1) ]
                           (("b", VNumber 2) :: [ ("a", VNumber 1) ]))
    by apply Permutation_refl.
  assert (H3 : JsObject.onPrototype "b" = false) by reflexivity.
  assert (H4 : nanFree (VObject [ ("a", VNumber 1) ]) = true) by reflexivity.
  assert (H5 : ignoreKeyOrder keyOrderIgnored = true ->
               ordinaryKeys (VObject [ ("b", VNumber 2); ("a", VNumber 1) ]) = true)
    by (intros _; reflexivity).
  split; [ exact H1 | ]. split; [ exact H2 | ]. split; [ exact H3 | ].
  split; [ exact H4 | ]. split; [ exact H5 | ].
  exact (proj1 (compareDeep_property_added String.compare [ ("a", VNumber 1) ]
                  [ ("b", VNumber 2); ("a", VNumber 1) ] "b" (VNumber 2)
                  EmptyString keyOrderIgnored H1 H2 H3 H4 H5)).
Defined.

Lemma normalizeContent_key_order_witness :
  ignoreKeyOrder keyOrderIgnored = true
  /\ TextDiff.parse JsonReader.parse JsonReader.load (Json.stringify nested_ab) json
     = Normal (Val nested_ab)
  /\ TextDiff.parse JsonReader.parse JsonReader.load (Json.stringify nested_ba) json
     = Normal (Val nested_ba)
  /\ sameUpToKeyOrder nested_ab nested_ba = true
  /\ TextDiff.normalizeContent String.compare JsonReader.parse JsonReader.load
       (Json.stringify nested_ab) json keyOrderIgnored
     = TextDiff.normalizeContent String.compare JsonReader.parse JsonReader.load
         (Json.stringify nested_ba) json keyOrderIgnored.
Proof.
  assert (H1 : ignoreKeyOrder keyOrderIgnored = true) by reflexivity.
  assert (H2 : TextDiff.parse JsonReader.parse JsonReader.load
                 (Json.stringify nested_ab) json = Normal (Val nested_ab)) by reflexivity.
  assert (H3 : TextDiff.parse JsonReader.parse JsonReader.load
                 (Json.stringify nested_ba) json = Normal (Val nested_ba)) by reflexivity.
  assert (H4 : sameUpToKeyOrder nested_ab nested_ba = true) by reflexivity.
  split; [ exact H1 | ]. split; [ exact H2 | ]. split; [ exact H3 | ].
  split; [ exact H4 | ].
  exact (normalizeContent_key_order String.compare JsonReader.parse JsonReader.load
           (Json.stringify nested_ab) (Json.stringify nested_ba) json json
           keyOrderIgnored nested_ab nested_ba H1 H2 H3 H4).
Defined.

(** ** Arrays against arrays *)

Section ArrayPairing.
Import SemanticDiff.

Variable localeCompare : string -> string -> comparison.

Local Abbreviation sortArray := (SemanticDiff.sortArray localeCompare).
Local Abbreviation compareDeep := (SemanticDiff.compareDeep localeCompare).




End ArrayPairing.


(** ** The sorting passes *)

Section SortingPasses.
Import TextDiff.

Lemma NoDup_distinctKeys keys : NoDup keys -> distinctKeys keys = true.
Proof.
  induction 1 as [ | k keys Hk _ IH ]; [ reflexivity | ].
  cbn. rewrite IH, andb_true_r. apply negb_true_iff, not_true_is_false.
  intros H. apply existsb_exists in H. destruct H as (k' & Hin & E).
  apply String.eqb_eq in E. now subst.
Qed.

Lemma same_refl_sorted v :
  cleanValue v = true -> sameUpToKeyOrder v (SemanticDiff.sortObjectValue v) = true.
Proof.
  induction v as [ | b | n | s | items IH | props IH ] using Value_induction; intros Hc.
  - reflexivity.
  - cbn. now destruct b.
  - cbn. destruct n; [ apply Z.eqb_refl | reflexivity ].
  - cbn. apply String.eqb_refl.
  - cbn [SemanticDiff.sortObjectValue sameUpToKeyOrder]. cbn [cleanValue] in Hc.
    induction IH as [ | x items Hx _ IHitems ]; [ reflexivity | ].
    cbn [forallb] in Hc. apply andb_true_iff in Hc. destruct Hc as (Hcx & Hc).
    cbn [map allPairs]. now rewrite Hx, IHitems.
  - cbn [cleanValue] in Hc. rewrite !andb_true_iff, negb_true_iff in Hc.
    destruct Hc as ((Hd & Hp) & Hvalues).
    pose proof (distinctKeys_NoDup _ Hd) as Hnd.
    assert (Hnp : ~ In "__proto__" (map fst props)).
    { intros Hin. assert (existsb (String.eqb "__proto__") (map fst props) = true);
        [ | congruence ].
      apply existsb_exists. exists "__proto__". split; [ exact Hin | reflexivity ]. }
    pose proof (own_sortedOrNot true props) as Hown. cbv iota in Hown.
    revert Hown. cbn [SemanticDiff.sortObjectValue SemanticDiff.propsOf].
    set (values := map (fun kv : string * Value =>
                          let (k, x) := kv in (k, SemanticDiff.sortObjectValue x)) props).
    set (f := fun key => match JsObject.own values key with Some x => x | None => VNull end).
    intros Hown.
    assert (Hs : JsObject.assignEach (JsArray.sort String.compare (map fst props)) f []
                 = map (fun k => (k, f k)) (JsArray.sort String.compare (map fst props))).
    { rewrite assignEach_rebuild; [ reflexivity | | | cbn; tauto ].
      - apply (Permutation_NoDup (Permutation_sym (sort_perm _ _))), Hnd.
      - intros Hin. apply sort_In in Hin. contradiction. }
    cbn [sameUpToKeyOrder]. rewrite Hd. cbn [andb].
    rewrite !andb_true_iff. repeat split.
    + apply NoDup_distinctKeys. rewrite Hs, map_map. cbn [fst]. rewrite map_id.
      apply (Permutation_NoDup (Permutation_sym (sort_perm _ _))), Hnd.
    + apply Nat.eqb_eq. rewrite Hs, length_map, sort_length.
      symmetry. apply length_map.
    + apply forallb_forall. intros [k x] Hin. cbn [fst snd].
      rewrite Hown.
      destruct (String.eqb k "__proto__") eqn:Ek.
      { apply String.eqb_eq in Ek. subst k. apply (in_map fst) in Hin. contradiction. }
      rewrite (proj2 (own_In_iff String.compare props k x Hnd) Hin). cbn [option_map].
      rewrite Forall_forall in IH. apply (IH _ Hin).
      rewrite forallb_forall in Hvalues. apply (Hvalues _ Hin).
Qed.

Variable localeCompare : string -> string -> comparison.

Local Abbreviation sortArraysDeep := (TextDiff.sortArraysDeep localeCompare).
Local Abbreviation Canon := (TextDiff.Canon localeCompare).
Local Abbreviation compareDeep := (SemanticDiff.compareDeep localeCompare).

(** X15. For a value whose objects have ordinary keys (none is
    [__proto__], none is made of digits only, which an object enumerates
    first whatever the order of assignment), [sortObjectDeep] gives a value
    in which every object has distinct keys in sorted order, and sorting
    such a value again changes nothing: the pass is idempotent. *)
Theorem sortObjectDeep_idempotent v :
  ordinaryKeys v = true ->
  Canon true false (sortObjectDeep v)
  /\ sortObjectDeep (sortObjectDeep v) = sortObjectDeep v.
Proof.
  intros _. split; [ apply sortObjectDeep_canon | ].
  apply (sortObjectDeep_fixed localeCompare false), sortObjectDeep_canon.
Qed.

(** X16. The key-sorted form of a document without [NaN] whose objects
    have distinct keys, none of them [__proto__], is the same document up
    to the order of keys, and comparing the document with it gives no
    record. *)
Theorem sortObject_same_document v path options :
  cleanValue v = true -> nanFree v = true ->
  sameUpToKeyOrder v (SemanticDiff.sortObjectValue v) = true
  /\ compareDeep v (SemanticDiff.sortObjectValue v) path options = [].
Proof.
  intros Hc Hn. pose proof (same_refl_sorted v Hc) as H. split; [ exact H | ].
  now apply (same_no_record localeCompare).
Qed.

(** X17. When the comparison of texts is asymmetric, [sortArraysDeep] gives
    a value in which every array is in the order of the serialized forms
    of its elements, keeps sorted keys sorted, and is idempotent. *)
Theorem sortArraysDeep_idempotent v :
  (forall a b, localeCompare a b = Gt -> localeCompare b a <> Gt) ->
  Canon false true (sortArraysDeep v)
  /\ (forall sa, Canon true sa v -> Canon true true (sortArraysDeep v))
  /\ sortArraysDeep (sortArraysDeep v) = sortArraysDeep v.
Proof.
  intros Hasym.
  assert (H : Canon false true (sortArraysDeep v)).
  { apply (sortArraysDeep_canon localeCompare Hasym false false). discriminate. }
  split; [ exact H | ]. split.
  - intros sa Hc. apply (sortArraysDeep_canon localeCompare Hasym true sa). now intros _.
  - now apply (sortArraysDeep_fixed localeCompare false).
Qed.

End SortingPasses.

Lemma sortObjectDeep_idempotent_witness :
  ordinaryKeys nested_ba = true
  /\ TextDiff.sortObjectDeep (TextDiff.sortObjectDeep nested_ba)
     = TextDiff.sortObjectDeep nested_ba.
Proof.
  assert (H : ordinaryKeys nested_ba = true) by reflexivity.
  split; [ exact H | ].
  exact (proj2 (sortObjectDeep_idempotent String.compare nested_ba H)).
Defined.

Lemma sortObject_same_document_witness :
  cleanValue nested_ba = true
  /\ nanFree nested_ba = true
  /\ SemanticDiff.compareDeep String.compare nested_ba
       (SemanticDiff.sortObjectValue nested_ba) "doc" defaultOptions = [].
Proof.
  assert (H : cleanValue nested_ba = true) by reflexivity.
  assert (H' : nanFree nested_ba = true) by reflexivity.
  split; [ exact H | ]. split; [ exact H' | ].
  exact (proj2 (sortObject_same_document String.compare nested_ba "doc" defaultOptions
                  H H')).
Defined.

Lemma sortArraysDeep_idempotent_witness :
  TextDiff.sortArraysDeep String.compare
    (TextDiff.sortArraysDeep String.compare (VArray [ VNumber 3; VNumber 1; VNumber 2 ]))
  = TextDiff.sortArraysDeep String.compare (VArray [ VNumber 3; VNumber 1; VNumber 2 ]).
Proof.
  exact (proj2 (proj2 (sortArraysDeep_idempotent String.compare
                         (VArray [ VNumber 3; VNumber 1; VNumber 2 ])
                         string_compare_asym))).
Defined.

(** ** Normalized strings *)

Section StringFacts.
Import JsString.

Lemma lowerChar_idempotent c : lowerChar (lowerChar c) = lowerChar c.
Proof. destruct c as [ [] [] [] [] [] [] [] [] ]; reflexivity. Qed.

Lemma isWhiteSpace_lowerChar c : isWhiteSpace (lowerChar c) = isWhiteSpace c.
Proof. destruct c as [ [] [] [] [] [] [] [] [] ]; reflexivity. Qed.

Lemma toLowerCase_idempotent s : toLowerCase (toLowerCase s) = toLowerCase s.
Proof.
  induction s as [ | c s IH ]; [ reflexivity | ].
  cbn [toLowerCase]. now rewrite lowerChar_idempotent, IH.
Qed.

Lemma trimStart_toLowerCase s : trimStart (toLowerCase s) = toLowerCase (trimStart s).
Proof.
  induction s as [ | c s IH ]; [ reflexivity | ].
  cbn [toLowerCase trimStart]. rewrite isWhiteSpace_lowerChar.
  destruct (isWhiteSpace c); [ exact IH | reflexivity ].
Qed.

Lemma trimEnd_toLowerCase s : trimEnd (toLowerCase s) = toLowerCase (trimEnd s).
Proof.
  induction s as [ | c s IH ]; [ reflexivity | ].
  cbn [toLowerCase trimEnd]. rewrite IH, isWhiteSpace_lowerChar.
  destruct (trimEnd s); cbn [toLowerCase]; [ | reflexivity ].
  destruct (isWhiteSpace c); reflexivity.
Qed.

Lemma replaceRuns_toLowerCase s :
  forall b, replaceRuns b (toLowerCase s) = toLowerCase (replaceRuns b s).
Proof.
  induction s as [ | c s IH ]; intros b; [ reflexivity | ].
  cbn [toLowerCase replaceRuns]. rewrite isWhiteSpace_lowerChar, !IH.
  destruct (isWhiteSpace c); [ destruct b | ]; reflexivity.
Qed.

Lemma trimEnd_idempotent s : trimEnd (trimEnd s) = trimEnd s.
Proof.
  induction s as [ | c s IH ]; [ reflexivity | ].
  cbn [trimEnd]. destruct (trimEnd s) as [ | d u ] eqn:E.
  - destruct (isWhiteSpace c) eqn:Ec; [ reflexivity | ]. cbn [trimEnd]. now rewrite Ec.
  - cbn [trimEnd] in *. now rewrite IH.
Qed.

Lemma trimEnd_tail c s : trimEnd (String c s) = String c s -> trimEnd s = s.
Proof.
  cbn [trimEnd]. destruct (trimEnd s) as [ | d u ].
  - destruct (isWhiteSpace c); [ discriminate | ]. now intros [= <-].
  - now intros [= <-].
Qed.

Lemma trimEnd_headOk s : headOk s = true -> headOk (trimEnd s) = true.
Proof.
  destruct s as [ | c s ]; [ reflexivity | ]. cbn [headOk trimEnd]. intros Hc.
  destruct (trimEnd s); [ | exact Hc ].
  apply negb_true_iff in Hc. rewrite Hc. cbn. now rewrite Hc.
Qed.

Lemma trimStart_headOk s : headOk (trimStart s) = true.
Proof.
  induction s as [ | c s IH ]; [ reflexivity | ].
  cbn [trimStart]. destruct (isWhiteSpace c) eqn:Ec; [ exact IH | ].
  cbn. now rewrite Ec.
Qed.

Lemma replaceRuns_run_headOk s : headOk (replaceRuns true s) = true.
Proof.
  induction s as [ | c s IH ]; [ reflexivity | ].
  cbn [replaceRuns]. destruct (isWhiteSpace c) eqn:Ec; [ exact IH | ].
  cbn. now rewrite Ec.
Qed.

Lemma replaceRuns_headOk s : headOk s = true -> headOk (replaceRuns false s) = true.
Proof.
  destruct s as [ | c s ]; [ reflexivity | ]. cbn [headOk replaceRuns]. intros Hc.
  apply negb_true_iff in Hc. rewrite Hc. cbn. now rewrite Hc.
Qed.

Lemma replaceRuns_not_empty s :
  forall b, trimEnd s = s -> s <> EmptyString -> replaceRuns b s <> EmptyString.
Proof.
  induction s as [ | c s IH ]; intros b Ht Hne; [ congruence | ].
  cbn [replaceRuns]. destruct (isWhiteSpace c) eqn:Ec; [ | discriminate ].
  assert (Hs : s <> EmptyString).
  { intros ->. cbn in Ht. rewrite Ec in Ht. discriminate. }
  destruct b; [ | discriminate ].
  apply IH; [ now apply (trimEnd_tail c) | exact Hs ].
Qed.

Lemma replaceRuns_packed s :
  forall b, trimEnd s = s -> packed (replaceRuns b s) = true.
Proof.
  induction s as [ | c s IH ]; intros b Ht; [ reflexivity | ].
  pose proof (trimEnd_tail _ _ Ht) as Ht'.
  cbn [replaceRuns]. destruct (isWhiteSpace c) eqn:Ec.
  - assert (Hs : s <> EmptyString).
    { intros ->. cbn in Ht. rewrite Ec in Ht. discriminate. }
    destruct b; [ now apply IH | ].
    cbn [packed]. change (isWhiteSpace " ") with true. cbv iota.
    rewrite (IH true Ht'), andb_true_r. cbn [Ascii.eqb Bool.eqb andb].
    pose proof (replaceRuns_run_headOk s) as Hh.
    pose proof (replaceRuns_not_empty s true Ht' Hs) as Hne.
    destruct (replaceRuns true s); [ congruence | exact Hh ].
  - cbn [packed]. rewrite Ec. now apply IH.
Qed.

Lemma packed_replaceRuns s :
  packed s = true ->
  replaceRuns false s = s /\ (headOk s = true -> replaceRuns true s = s).
Proof.
  induction s as [ | c s IH ]; intros Hp; [ split; reflexivity | ].
  cbn [packed] in Hp. cbn [replaceRuns headOk].
  destruct (isWhiteSpace c) eqn:Ec.
  - rewrite !andb_true_iff in Hp. destruct Hp as ((Hc & Hd) & Hp).
    apply Ascii.eqb_eq in Hc. subst c. split; [ | discriminate ].
    f_equal. apply (IH Hp). destruct s; [ discriminate | exact Hd ].
  - destruct (IH Hp) as (E & _). rewrite E. split; reflexivity.
Qed.

Lemma packed_trimEnd s : packed s = true -> trimEnd s = s.
Proof.
  induction s as [ | c s IH ]; intros Hp; [ reflexivity | ].
  cbn [packed] in Hp. cbn [trimEnd].
  destruct (isWhiteSpace c) eqn:Ec.
  - rewrite !andb_true_iff in Hp. destruct Hp as ((_ & Hd) & Hp).
    rewrite (IH Hp). destruct s; [ discriminate | reflexivity ].
  - rewrite (IH Hp). now destruct s.
Qed.

Lemma headOk_trimStart s : headOk s = true -> trimStart s = s.
Proof.
  destruct s as [ | c s ]; [ reflexivity | ]. cbn. intros H.
  apply negb_true_iff in H. now rewrite H.
Qed.

(** Trimming and replacing the runs of white space, twice. *)
Lemma collapse_trim_idempotent s :
  collapseWhiteSpace (trim (collapseWhiteSpace (trim s))) = collapseWhiteSpace (trim s).
Proof.
  unfold collapseWhiteSpace, trim.
  set (t := trimEnd (trimStart s)).
  assert (Ht : trimEnd t = t) by apply trimEnd_idempotent.
  assert (Hh : headOk t = true) by apply trimEnd_headOk, trimStart_headOk.
  pose proof (replaceRuns_packed t false Ht) as Hp.
  pose proof (replaceRuns_headOk t Hh) as Hh'.
  rewrite (headOk_trimStart _ Hh'), (packed_trimEnd _ Hp).
  apply (packed_replaceRuns _ Hp).
Qed.

Lemma normalizeString_idempotent s options :
  SemanticDiff.normalizeString (SemanticDiff.normalizeString s options) options
  = SemanticDiff.normalizeString s options.
Proof.
  unfold SemanticDiff.normalizeString.
  destruct (ignoreWhitespace options), (ignoreCase options); try reflexivity.
  - unfold collapseWhiteSpace, trim.
    rewrite trimStart_toLowerCase, trimEnd_toLowerCase, replaceRuns_toLowerCase.
    rewrite toLowerCase_idempotent. f_equal. apply collapse_trim_idempotent.
  - apply collapse_trim_idempotent.
  - apply toLowerCase_idempotent.
Qed.

End StringFacts.

Section NormalizedStrings.
Import SemanticDiff.

Variable localeCompare : string -> string -> comparison.

Local Abbreviation compareDeep := (SemanticDiff.compareDeep localeCompare).

(** X18. Normalizing a value for comparison is idempotent, for every
    choice of [ignoreWhitespace] and [ignoreCase]; so two strings are
    reported as modified exactly when their normalized forms differ, and a
    string compared with its own normalized form gives no record. *)
Theorem normalizeValue_idempotent options :
  (forall value : Unknown,
      normalizeValue (normalizeValue value options) options = normalizeValue value options)
  /\ (forall s t path,
         compareDeep (VString s) (VString t) path options
         = if String.eqb (normalizeString s options) (normalizeString t options)
           then []
           else [ Modified (orRoot path) (Val (VString s)) (Val (VString t)) ])
  /\ (forall s path,
         compareDeep (VString s) (VString (normalizeString s options)) path options = []).
Proof.
  assert (H : forall s t path,
             compareDeep (VString s) (VString t) path options
             = if String.eqb (normalizeString s options) (normalizeString t options)
               then []
               else [ Modified (orRoot path) (Val (VString s)) (Val (VString t)) ]).
  { intros s t path. rewrite (compareDeep_eq localeCompare). unfold pushedBy.
    cbn [getType String.eqb Ascii.eqb Bool.eqb negb typeofObject andb normalizeValue
         strictEqual].
    now destruct (String.eqb _ _). }
  split; [ | split; [ exact H | ] ].
  - intros [ | [ | | | s | | ] | | ]; try reflexivity.
    cbn [normalizeValue]. now rewrite normalizeString_idempotent.
  - intros s path. rewrite H, normalizeString_idempotent. now rewrite String.eqb_refl.
Qed.

End NormalizedStrings.

(** ** The text shown for a value *)

Section Display.

Lemma length_append s t : String.length (s ++ t) = String.length s + String.length t.
Proof. induction s as [ | c s IH ]; cbn; [ reflexivity | now rewrite IH ]. Qed.

Lemma length_substring s :
  forall m, String.length (String.substring 0 m s) = Nat.min m (String.length s).
Proof.
  induction s as [ | c s IH ]; intros [ | m ]; cbn; try reflexivity.
  now rewrite IH.
Qed.

Lemma substring_prefix s : forall m, String.prefix (String.substring 0 m s) s = true.
Proof.
  induction s as [ | c s IH ]; intros [ | m ]; cbn; try reflexivity.
  destruct (ascii_dec c c); [ apply IH | congruence ].
Qed.

(** X19. For a value other than [undefined], [null] and a function,
    [formatValue] returns the full text of the value when that has at most
    [maxLength] code units, and otherwise its first [maxLength] code units
    followed by three dots: never more than [maxLength + 3] code units.
    For a function it throws. *)
Theorem formatValue_clipped (value : Unknown) (maxLength : nat) (str : string) :
  fullText value = Some str -> value <> Val VNull ->
  (forall name, exists message,
      formatValue (InheritedFunction name) maxLength = Throw message)
  /\ exists text,
       formatValue value maxLength = Normal text
       /\ String.length text <= maxLength + 3
       /\ (String.length str <= maxLength -> text = str)
       /\ (maxLength < String.length str ->
           text = (String.substring 0 maxLength str ++ "...")%string
           /\ String.length text = maxLength + 3
           /\ String.prefix (String.substring 0 maxLength str) str = true).
Proof.
  intros Hfull Hnull. split; [ intros name; cbn; eauto | ].
  assert (E : formatValue value maxLength
              = if maxLength <? String.length str
                then Normal (String.substring 0 maxLength str ++ "...")%string
                else Normal str).
  { destruct value as [ | [ | | | | | ] | name | ]; try discriminate; try congruence;
      unfold formatValue; rewrite Hfull; reflexivity. }
  rewrite E. destruct (Nat.ltb_spec maxLength (String.length str)) as [ Hlt | Hge ].
  - eexists. split; [ reflexivity | ].
    assert (Hlen : String.length (String.substring 0 maxLength str ++ "...")
                   = maxLength + 3).
    { rewrite length_append, length_substring. cbn [String.length]. lia. }
    repeat split; try lia; try apply substring_prefix.
  - exists str. repeat split; try lia.
Qed.

End Display.

Lemma formatValue_clipped_witness :
  fullText (Val (VArray [ VNumber 1; VNumber 2; VNumber 3 ])) = Some "[1,2,3]"
  /\ Val (VArray [ VNumber 1; VNumber 2; VNumber 3 ]) <> Val VNull
  /\ exists text,
       formatValue (Val (VArray [ VNumber 1; VNumber 2; VNumber 3 ])) 4 = Normal text
       /\ String.length text <= 4 + 3.
Proof.
  assert (H1 : fullText (Val (VArray [ VNumber 1; VNumber 2; VNumber 3 ])) = Some "[1,2,3]")
    by reflexivity.
  assert (H2 : Val (VArray [ VNumber 1; VNumber 2; VNumber 3 ]) <> Val VNull)
    by discriminate.
  split; [ exact H1 | ]. split; [ exact H2 | ].
  destruct (proj2 (formatValue_clipped (Val (VArray [ VNumber 1; VNumber 2; VNumber 3 ]))
                     4 "[1,2,3]" H1 H2)) as (text & E & Hlen & _).
  exists text. split; [ exact E | exact Hlen ].
Defined.

(** ** The two structural comparisons *)

Section TwoEngines.
Import SemanticDiff.

Lemma agree_root_typeChanged p l r :
  Agree (TypeChanged (orRoot p) l r)
        {| Differences.path := Differences.orSlash p; Differences.leftValue := l;
           Differences.rightValue := r; Differences.type := Differences.modified |}.
Proof. unfold Agree. destruct p; cbn; intuition. Qed.

Lemma agree_root_modified p l r :
  Agree (Modified (orRoot p) l r)
        {| Differences.path := Differences.orSlash p; Differences.leftValue := l;
           Differences.rightValue := r; Differences.type := Differences.modified |}.
Proof. unfold Agree. destruct p; cbn; intuition. Qed.

Lemma agree_added p v :
  Agree (Added p v)
        {| Differences.path := p; Differences.leftValue := Undefined;
           Differences.rightValue := v; Differences.type := Differences.added |}.
Proof. unfold Agree. cbn. intuition. Qed.

Lemma agree_removed p v :
  Agree (Removed p v)
        {| Differences.path := p; Differences.leftValue := v;
           Differences.rightValue := Undefined; Differences.type := Differences.removed |}.
Proof. unfold Agree. cbn. intuition. Qed.

Lemma forEach_agree {A : Type} (l : list A) (f : A -> Effect)
      (g : A -> Differences.Effect) :
  (forall x cs, In x l -> f x = Some cs ->
                exists ds, g x = Some ds /\ Forall2 Agree cs ds) ->
  forall cs, forEach l f = Some cs ->
             exists ds, Differences.forEach l g = Some ds /\ Forall2 Agree cs ds.
Proof.
  induction l as [ | x l IH ]; intros H cs Hcs.
  - injection Hcs as <-. exists []. split; [ reflexivity | constructor ].
  - cbn [forEach] in Hcs. unfold andThen in Hcs.
    destruct (f x) as [ xs | ] eqn:Ex; [ | discriminate ].
    destruct (forEach l f) as [ ys | ] eqn:Ey; [ | discriminate ].
    injection Hcs as <-.
    destruct (H x xs (or_introl eq_refl) Ex) as (dx & Hdx & Fx).
    destruct (IH (fun y cs Hy => H y cs (or_intror Hy)) ys eq_refl) as (dy & Hdy & Fy).
    exists (dx ++ dy). cbn [Differences.forEach]. rewrite Hdx, Hdy.
    split; [ reflexivity | now apply Forall2_app ].
Qed.

Lemma keys_has key u : In key (JsObject.keys u) -> JsObject.has key u = true.
Proof.
  destruct u as [ | [ | | | | | props ] | | ]; cbn; try tauto.
  intros Hin. unfold JsObject.hasOwn.
  destruct (JsObject.own props key) eqn:E; [ reflexivity | ].
  apply own_None in E. contradiction.
Qed.

Variable localeCompare : string -> string -> comparison.

Local Abbreviation compareDeepFuel := (SemanticDiff.compareDeepFuel localeCompare).
Local Abbreviation compareDeep := (SemanticDiff.compareDeep localeCompare).

(** With no option set, a call of [compareObjects] pushes what the call of
    [compareDeep] on the same values pushes, record by record. *)
Lemma engines_agree_fuel options :
  plainOptions options ->
  forall fuel left right path cs,
    compareDeepFuel fuel left right path options = Some cs ->
    exists ds, Differences.compareObjectsFuel fuel left right path = Some ds
               /\ Forall2 Agree cs ds.
Proof.
  intros (Hko & Hws & Hic & Hao).
  induction fuel as [ | fuel IH ]; intros left right path cs Hcs; [ discriminate | ].
  cbn [SemanticDiff.compareDeepFuel] in Hcs. cbn [Differences.compareObjectsFuel].
  assert (Harr : forall a b, left = Val (VArray a) -> right = Val (VArray b) ->
             exists ds,
               Differences.compareObjectsBody (Differences.compareObjectsFuel fuel)
                 left right path = Some ds
               /\ Forall2 Agree cs ds).
  { intros a b -> ->. unfold compareDeepBody in Hcs. rewrite Hao in Hcs.
    change (negb (String.eqb (getType (Val (VArray a))) (getType (Val (VArray b)))))
      with false in Hcs.
    cbv iota in Hcs. cbv zeta in Hcs.
    unfold Differences.compareObjectsBody.
    change (strictEqual (Val (VArray a)) (Val (VArray b))) with false.
    change (negb (String.eqb (Differences.typeOf (Val (VArray a)))
                             (Differences.typeOf (Val (VArray b))))
            || negb (Bool.eqb (Differences.isArray (Val (VArray a)))
                              (Differences.isArray (Val (VArray b)))))
      with false.
    change (Differences.isArray (Val (VArray a)) && Differences.isArray (Val (VArray b)))
      with true.
    cbv iota zeta. cbn [Differences.items].
    apply (fun H => forEach_agree _ _ _ H cs Hcs).
    intros i xs _ Hxs.
    destruct (List.length a <=? i); [ | destruct (List.length b <=? i) ].
    - injection Hxs as <-. eexists. split; [ reflexivity | ].
      apply Forall2_cons; [ apply agree_added | apply Forall2_nil ].
    - injection Hxs as <-. eexists. split; [ reflexivity | ].
      apply Forall2_cons; [ apply agree_removed | apply Forall2_nil ].
    - now apply IH. }
  assert (Hobj : plainObject left -> plainObject right ->
             strictEqual left right = false ->
             exists ds,
               Differences.compareObjectsBody (Differences.compareObjectsFuel fuel)
                 left right path = Some ds
               /\ Forall2 Agree cs ds).
  { intros Hl Hr Hne. unfold compareDeepBody in Hcs. rewrite Hko in Hcs.
    unfold Differences.compareObjectsBody. rewrite Hne.
    assert (E : forEach (JsArray.distinct [] (JsObject.keys left ++ JsObject.keys right))
                  (fun key =>
                     if negb (JsObject.has key left) && JsObject.has key right then
                       push (Added (keyPath path key) (JsObject.get right key))
                     else if JsObject.has key left && negb (JsObject.has key right) then
                       push (Removed (keyPath path key) (JsObject.get left key))
                     else
                       compareDeepFuel fuel (JsObject.get left key) (JsObject.get right key)
                         (keyPath path key) options)
                = Some cs).
    { destruct left as [ | [ | | | | | p ] | | ]; try (now elim Hl);
        destruct right as [ | [ | | | | | p' ] | | ]; try (now elim Hr); exact Hcs. }
    clear Hcs.
    assert (G : Differences.compareObjectsBody (Differences.compareObjectsFuel fuel)
                  left right path
                = Differences.forEach
                    (JsArray.distinct [] (JsObject.keys left ++ JsObject.keys right))
                    (fun key =>
                       if negb (JsObject.has key left) then
                         Differences.push
                           {| Differences.path := keyPath path key;
                              Differences.leftValue := Undefined;
                              Differences.rightValue := JsObject.get right key;
                              Differences.type := Differences.added |}
                       else if negb (JsObject.has key right) then
                         Differences.push
                           {| Differences.path := keyPath path key;
                              Differences.leftValue := JsObject.get left key;
                              Differences.rightValue := Undefined;
                              Differences.type := Differences.removed |}
                       else
                         Differences.compareObjectsFuel fuel (JsObject.get left key)
                           (JsObject.get right key) (keyPath path key))).
    { unfold Differences.compareObjectsBody. rewrite Hne.
      destruct left as [ | [ | | | | | p ] | | ]; try (now elim Hl);
        destruct right as [ | [ | | | | | p' ] | | ]; try (now elim Hr);
        try reflexivity; discriminate Hne. }
    unfold Differences.compareObjectsBody in G. rewrite Hne in G. rewrite G.
    apply (fun H => forEach_agree _ _ _ H cs E).
    intros key xs Hkey Hxs.
    assert (Hone : JsObject.has key left || JsObject.has key right = true).
    { apply distinct_In, in_app_or in Hkey. apply orb_true_iff.
      destruct Hkey as [ H | H ]; [ left | right ]; now apply keys_has. }
    destruct (JsObject.has key left), (JsObject.has key right);
      cbn [negb andb] in *; try discriminate Hone.
    - now apply IH.
    - injection Hxs as <-. eexists. split; [ reflexivity | ].
      apply Forall2_cons; [ apply agree_removed | apply Forall2_nil ].
    - injection Hxs as <-. eexists. split; [ reflexivity | ].
      apply Forall2_cons; [ apply agree_added | apply Forall2_nil ]. }
  destruct options as [ ko ws ic ao ss sw ]. cbn in Hko, Hws, Hic, Hao. subst.
  destruct left as [ | [ | b | n | s | a | p ] | f | ];
    destruct right as [ | [ | b' | n' | s' | a' | p' ] | f' | ];
    try (now apply Hobj); try (now eapply Harr);
    unfold compareDeepBody in Hcs; unfold Differences.compareObjectsBody;
    cbn in Hcs |- *;
    repeat match goal with
           | |- context [ if ?c then _ else _ ] => destruct c
           end;
    injection Hcs as <-; eexists; (split; [ reflexivity | ]);
    first [ apply Forall2_nil
          | apply Forall2_cons;
            [ first [ apply agree_root_typeChanged | apply agree_root_modified ]
            | apply Forall2_nil ] ].
Qed.

Lemma engines_agree_total options left right path :
  plainOptions options ->
  Forall2 Agree (compareDeep left right path options)
                (Differences.compareObjects left right path).
Proof.
  intros Ho.
  pose proof (compareDeepFuel_enough localeCompare (S (depthU left)) left right path
                options ltac:(lia)) as Hcs.
  destruct (engines_agree_fuel options Ho _ _ _ _ _ Hcs) as (ds & Hds & Hagree).
  unfold Differences.compareObjects. now rewrite Hds.
Qed.

(** X20. With no option set, the comparison [compareObjects] of
    [getSemanticDiff] reports what [compareDeep] reports, record by record
    and in the same order: the same values ([undefined] for the side a
    record does not have), the same kind of change (a type change being a
    modification for [compareObjects]) and the same path, except that the
    root is [$] for one and [/] for the other. *)
Theorem engines_agree options left right path :
  plainOptions options ->
  Forall2 Agree (compareDeep left right path options)
                (Differences.compareObjects left right path).
Proof. apply engines_agree_total. Qed.

Variable JSON_parse : string -> Completion Value.
Variable yaml_load : string -> Completion (option Value).

Local Abbreviation parse := (TextDiff.parse JSON_parse yaml_load).
Local Abbreviation getSemanticDiff := (Differences.getSemanticDiff JSON_parse yaml_load).
Local Abbreviation computeSemanticDiff :=
  (SemanticDiff.computeSemanticDiff localeCompare JSON_parse yaml_load).

Lemma compareObjects_same u path :
  nanFreeU u = true -> Differences.compareObjects u u path = [].
Proof.
  intros Hn.
  assert (Ho : plainOptions defaultOptions) by (repeat split).
  pose proof (engines_agree_total defaultOptions u u path Ho) as H.
  rewrite (compareDeep_same localeCompare) in H by exact Hn. now inversion H.
Qed.

(** X21. [getSemanticDiff] reports no difference between a text and
    itself, in the same format, when the document read from it holds no
    [NaN]: the document compared with itself gives nothing, a text without
    a document gives nothing, and a text that does not parse gives nothing
    either, the failure being caught. A text whose document is [NaN]
    gives one [modified] record. *)
Theorem getSemanticDiff_same_text content format :
  ((forall v : Value, parse content format = Normal (Val v) -> nanFree v = true) ->
   getSemanticDiff content content format format = [])
  /\ (parse content format = Normal (Val (VNumber NaN)) ->
      getSemanticDiff content content format format
      = [ {| Differences.path := "/";
             Differences.leftValue := Val (VNumber NaN);
             Differences.rightValue := Val (VNumber NaN);
             Differences.type := Differences.modified |} ]).
Proof.
  split.
  - intros Hn. unfold Differences.getSemanticDiff.
    destruct (parse content format) as [ u | message ] eqn:E; [ | reflexivity ].
    apply compareObjects_same. destruct u as [ | v | name | ]; try reflexivity.
    now apply Hn.
  - intros E. unfold Differences.getSemanticDiff. rewrite E. reflexivity.
Qed.

(** X22. On two texts that are not blank and that parse,
    [computeSemanticDiff] without options and [getSemanticDiff] report the
    same changes, record by record. *)
Theorem getSemanticDiff_agrees leftContent rightContent leftFormat rightFormat options
        (a b : Value) :
  plainOptions options ->
  JsString.whiteSpaceOnly leftContent = false ->
  JsString.whiteSpaceOnly rightContent = false ->
  parse leftContent leftFormat = Normal (Val a) ->
  parse rightContent rightFormat = Normal (Val b) ->
  Forall2 Agree
    (changes (computeSemanticDiff leftContent rightContent leftFormat rightFormat options))
    (getSemanticDiff leftContent rightContent leftFormat rightFormat).
Proof.
  intros Ho Hl Hr Ha Hb.
  assert (Hparse : forall content format (v : Value),
             JsString.whiteSpaceOnly content = false ->
             parse content format = Normal (Val v) ->
             SemanticDiff.parseContent JSON_parse yaml_load content format
             = Normal (Val v)).
  { intros content format v Hw Hp. unfold SemanticDiff.parseContent.
    destruct (JsString.isEmpty (JsString.trim content)) eqn:E.
    - apply blank_iff in E. congruence.
    - unfold TextDiff.parse in Hp. destruct format.
      + exact Hp.
      + exact Hp.
      + destruct (JsString.startsWith (JsString.trim content) "{"
                  || JsString.startsWith (JsString.trim content) "[");
          exact Hp. }
  unfold SemanticDiff.computeSemanticDiff, Differences.getSemanticDiff.
  rewrite (Hparse _ _ _ Hl Ha), (Hparse _ _ _ Hr Hb), Ha, Hb.
  cbn [isUndefined andb changes]. now apply engines_agree_total.
Qed.

End TwoEngines.

Lemma engines_agree_witness :
  plainOptions defaultOptions
  /\ Forall2 Agree
       (SemanticDiff.compareDeep String.compare nested_ab (VArray [ VNull ]) EmptyString
          defaultOptions)
       [ {| Differences.path := "/"; Differences.leftValue := Val nested_ab;
            Differences.rightValue := Val (VArray [ VNull ]);
            Differences.type := Differences.modified |} ].
Proof.
  assert (H : plainOptions defaultOptions) by (repeat split).
  split; [ exact H | ].
  exact (engines_agree String.compare defaultOptions (Val nested_ab)
           (Val (VArray [ VNull ])) EmptyString H).
Defined.

Lemma getSemanticDiff_same_text_witness :
  (forall v : Value,
      TextDiff.parse JsonReader.parse JsonReader.load "[1, null]" json = Normal (Val v) ->
      nanFree v = true)
  /\ Differences.getSemanticDiff JsonReader.parse JsonReader.load
       "[1, null]" "[1, null]" json json = [].
Proof.
  assert (H : forall v : Value,
             TextDiff.parse JsonReader.parse JsonReader.load "[1, null]" json
             = Normal (Val v) ->
             nanFree v = true).
  { intros v Hv. vm_compute in Hv. injection Hv as <-. reflexivity. }
  split; [ exact H | ].
  exact (proj1 (getSemanticDiff_same_text String.compare JsonReader.parse JsonReader.load
                  "[1, null]" json) H).
Defined.

Lemma getSemanticDiff_agrees_witness :
  plainOptions defaultOptions
  /\ JsString.whiteSpaceOnly (Json.stringify nested_ab) = false
  /\ JsString.whiteSpaceOnly "[null]" = false
  /\ TextDiff.parse JsonReader.parse JsonReader.load (Json.stringify nested_ab) json
     = Normal (Val nested_ab)
  /\ TextDiff.parse JsonReader.parse JsonReader.load "[null]" auto
     = Normal (Val (VArray [ VNull ]))
  /\ Forall2 Agree
       (SemanticDiff.changes
          (SemanticDiff.computeSemanticDiff String.compare JsonReader.parse
             JsonReader.load (Json.stringify nested_ab) "[null]" json auto
             defaultOptions))
       (Differences.getSemanticDiff JsonReader.parse JsonReader.load
          (Json.stringify nested_ab) "[null]" json auto).
Proof.
  assert (H1 : plainOptions defaultOptions) by (repeat split).
  assert (H2 : JsString.whiteSpaceOnly (Json.stringify nested_ab) = false) by reflexivity.
  assert (H3 : JsString.whiteSpaceOnly "[null]" = false) by reflexivity.
  assert (H4 : TextDiff.parse JsonReader.parse JsonReader.load
                 (Json.stringify nested_ab) json = Normal (Val nested_ab)) by reflexivity.
  assert (H5 : TextDiff.parse JsonReader.parse JsonReader.load "[null]" auto
               = Normal (Val (VArray [ VNull ]))) by reflexivity.
  split; [ exact H1 | ]. split; [ exact H2 | ]. split; [ exact H3 | ].
  split; [ exact H4 | ]. split; [ exact H5 | ].
  exact (getSemanticDiff_agrees String.compare JsonReader.parse JsonReader.load
           (Json.stringify nested_ab) "[null]" json auto defaultOptions
           nested_ab (VArray [ VNull ]) H1 H2 H3 H4 H5).
Defined.

(** ** The store *)

Section StoreFacts.
Import Store.

Variable E : Type.

Local Abbreviation AppState := (Store.AppState E).
Local Abbreviation Action := (Store.Action E).

Lemma act_invariant (action : Action) (state : AppState) :
  StoreInvariant state -> StoreInvariant (act E action state).
Proof.
  intros (Hh & Hs & Hp). unfold StoreInvariant.
  destruct action as [ mode | text | text | f | f | valid errs | valid errs
                     | newId now text f | | | | enabled | newId now label
                     | key | key | key label | ];
    cbn [act].
  1-7: now repeat split.
  - unfold addToHistory. destruct (privacyMode E state) eqn:Ep.
    + repeat split; auto.
    + cbn [setHistory history snapshots privacyMode]. repeat split; try assumption.
      * apply firstn_le_length.
      * congruence.
  - cbn. repeat split; try assumption. lia.
  - now repeat split.
  - now repeat split.
  - destruct enabled; cbn; repeat split; try assumption; try lia; discriminate.
  - unfold createSnapshot. destruct (privacyMode E state) eqn:Ep.
    + repeat split; auto.
    + cbn [setSnapshots history snapshots privacyMode]. repeat split; try assumption.
      * apply firstn_le_length.
      * congruence.
  - cbn. repeat split; try assumption.
    etransitivity; [ apply filter_length_le | exact Hs ].
  - unfold restoreSnapshot.
    destruct (find _ (snapshots E state)); now repeat split.
  - cbn. repeat split; try assumption. now rewrite length_map.
  - cbn. repeat split; try assumption. lia.
Qed.

Lemma run_invariant (actions : list Action) :
  forall state : AppState, StoreInvariant state -> StoreInvariant (run E actions state).
Proof.
  unfold run. induction actions as [ | a actions IH ]; intros state H;
    [ exact H | apply IH, act_invariant, H ].
Qed.

(** X23. After any sequence of actions from the initial state, the store
    holds at most 10 history items and at most 30 snapshots; in privacy
    mode it holds no history, adding to the history and creating a
    snapshot change nothing, and neither history nor snapshots are handed
    to storage. *)
Theorem store_invariants (actions : list Action) :
  let state := run E actions (initialState E) in
  List.length (history E state) <= 10
  /\ List.length (snapshots E state) <= 30
  /\ (privacyMode E state = true ->
      history E state = []
      /\ persisted E state = ([], [], true)
      /\ (forall newId now text f, addToHistory E newId now text f state = state)
      /\ (forall newId now label, createSnapshot E newId now label state = state)).
Proof.
  cbv zeta.
  assert (H : StoreInvariant (initialState E)).
  { unfold StoreInvariant. cbn. repeat split; try lia. }
  destruct (run_invariant actions _ H) as (Hh & Hs & Hp).
  repeat split; try assumption; try (now apply Hp).
  - unfold persisted. now rewrite H0.
  - unfold addToHistory. now rewrite H0.
  - unfold createSnapshot. now rewrite H0.
Qed.

(** X24. A snapshot brings back what it was taken of. When a snapshot is
    created outside privacy mode and later restored by its identifier, the
    snapshots being the same as just after the creation, the view mode
    and the text and format of the left editor are those of the time of
    creation, with the line count and size of that text; so are the text
    and format of the right editor when its text was not empty, and
    otherwise the right editor is left as it is at the time of
    restoring. *)
Theorem snapshot_round_trip newId now label (state later : AppState) :
  privacyMode E state = false ->
  snapshots E later = snapshots E (createSnapshot E newId now label state) ->
  let restored := restoreSnapshot E newId later in
  viewMode E restored = viewMode E state
  /\ content E (leftEditor E restored) = content E (leftEditor E state)
  /\ format E (leftEditor E restored) = format E (leftEditor E state)
  /\ lineCount E (leftEditor E restored) = countLines (content E (leftEditor E state))
  /\ size E (leftEditor E restored) = blobSize (content E (leftEditor E state))
  /\ (if JsString.isEmpty (content E (rightEditor E state))
      then rightEditor E restored = rightEditor E later
      else content E (rightEditor E restored) = content E (rightEditor E state)
           /\ format E (rightEditor E restored) = format E (rightEditor E state)
           /\ lineCount E (rightEditor E restored)
              = countLines (content E (rightEditor E state)))
  /\ history E restored = history E later
  /\ snapshots E restored = snapshots E later
  /\ privacyMode E restored = privacyMode E later.
Proof.
  intros Hp Hs. cbv zeta. unfold restoreSnapshot. rewrite Hs.
  unfold createSnapshot. rewrite Hp. cbn [setSnapshots snapshots firstn find Snapshot.id].
  rewrite String.eqb_refl.
  cbn [viewMode leftEditor rightEditor history snapshots privacyMode content format
       lineCount size Snapshot.viewMode Snapshot.leftContent Snapshot.leftFormat
       Snapshot.rightContent Snapshot.rightFormat].
  repeat split; try reflexivity; try (symmetry; exact Hs).
  unfold orUndefined, truthy.
  destruct (JsString.isEmpty (content E (rightEditor E state))) eqn:Ee.
  - reflexivity.
  - rewrite Ee. cbn. repeat split; reflexivity.
Qed.

End StoreFacts.

Lemma snapshot_round_trip_witness :
  Store.privacyMode nat twoTexts = false
  /\ Store.snapshots nat
       (Store.clearEditors nat (Store.createSnapshot nat "s1" 7%Z "first" twoTexts))
     = Store.snapshots nat (Store.createSnapshot nat "s1" 7%Z "first" twoTexts)
  /\ Store.content nat
       (Store.leftEditor nat
          (Store.restoreSnapshot nat "s1"
             (Store.clearEditors nat
                (Store.createSnapshot nat "s1" 7%Z "first" twoTexts))))
     = "[1]".
Proof.
  assert (H1 : Store.privacyMode nat twoTexts = false) by reflexivity.
  assert (H2 : Store.snapshots nat
                 (Store.clearEditors nat
                    (Store.createSnapshot nat "s1" 7%Z "first" twoTexts))
               = Store.snapshots nat (Store.createSnapshot nat "s1" 7%Z "first" twoTexts))
    by reflexivity.
  split; [ exact H1 | ]. split; [ exact H2 | ].
  exact (proj1 (proj2 (snapshot_round_trip nat "s1" 7%Z "first" twoTexts
                         (Store.clearEditors nat
                            (Store.createSnapshot nat "s1" 7%Z "first" twoTexts))
                         H1 H2))).
Defined.

Lemma store_invariants_witness :
  Store.privacyMode nat
    (Store.run nat [ Store.AddToHistory nat "h1" 1%Z "[1]" json; Store.SetPrivacyMode nat true;
                     Store.AddToHistory nat "h2" 2%Z "[2]" json ]
       (Store.initialState nat)) = true
  /\ Store.history nat
       (Store.run nat [ Store.AddToHistory nat "h1" 1%Z "[1]" json;
                        Store.SetPrivacyMode nat true;
                        Store.AddToHistory nat "h2" 2%Z "[2]" json ]
          (Store.initialState nat)) = [].
Proof.
  assert (H : Store.privacyMode nat
                (Store.run nat [ Store.AddToHistory nat "h1" 1%Z "[1]" json;
                                 Store.SetPrivacyMode nat true;
                                 Store.AddToHistory nat "h2" 2%Z "[2]" json ]
                   (Store.initialState nat)) = true) by reflexivity.
  split; [ exact H | ].
  exact (proj1 (proj2 (proj2 (store_invariants nat
                                [ Store.AddToHistory nat "h1" 1%Z "[1]" json;
                                  Store.SetPrivacyMode nat true;
                                  Store.AddToHistory nat "h2" 2%Z "[2]" json ])) H)).
Defined.

(** ** The order of array elements *)

Section ArrayOrder.
Import SemanticDiff.

Lemma string_compare_collation : collation String.compare.
Proof.
  split; [ exact string_compare_asym | ]. intros a b c. apply keyLe_trans.
Qed.

Lemma plainNumbers_nanFree v : plainNumbers v = true -> nanFree v = true.
Proof.
  induction v as [ | b | n | s | items IH | props IH ] using Value_induction;
    intros H; try reflexivity.
  - now destruct n.
  - cbn [plainNumbers nanFree] in *. rewrite forallb_forall in *.
    intros x Hx. rewrite Forall_forall in IH. apply (IH _ Hx), (H _ Hx).
  - cbn [plainNumbers nanFree] in *. rewrite forallb_forall in *.
    intros kv Hin. rewrite Forall_forall in IH. apply (IH _ Hin), (H _ Hin).
Qed.

Variable localeCompare : string -> string -> comparison.

Local Abbreviation sortArray := (SemanticDiff.sortArray localeCompare).
Local Abbreviation compareDeep := (SemanticDiff.compareDeep localeCompare).

Lemma sortArray_perm_unique (l l' : list Value) :
  collation localeCompare -> toldApart localeCompare l -> Permutation l l' ->
  sortArray l = sortArray l'.
Proof.
  intros (Hasym & Htrans) Hd Hp. unfold SemanticDiff.sortArray.
  set (cmp := fun a b : Value => localeCompare (Json.stringify a) (Json.stringify b)).
  set (le := fun a b : Value => cmp a b <> Gt).
  assert (Hcmp : forall a b, cmp a b = Gt -> cmp b a <> Gt)
    by (intros a b; apply Hasym).
  assert (Hle : Transitive le).
  { intros a b c. unfold le, cmp. apply Htrans. }
  assert (Hs : forall items, StronglySorted le (JsArray.sort cmp items)).
  { intros items. apply Sorted_StronglySorted; [ exact Hle | ].
    apply (ordered_Sorted cmp), sort_ordered, Hcmp. }
  apply (sorted_perm_unique le); try apply Hs.
  - etransitivity; [ apply sort_perm | ].
    etransitivity; [ apply Permutation_map, Hp | ]. apply Permutation_sym, sort_perm.
  - intros x y Hx Hy Hxy Hyx. apply sort_In, in_map_iff in Hx, Hy.
    destruct Hx as (x0 & <- & Hx0). destruct Hy as (y0 & <- & Hy0).
    now apply Hd.
Qed.

(** X25. With [ignoreArrayOrder], an array and a rearrangement of it
    compare without any record, provided the collation of texts is
    consistent, the elements of the array are told apart by the collation
    of the serialized forms of their key-sorted copies (elements that
    collate as equal have the same copy), no number is [NaN] or reaches
    [1e21], and the keys of the objects are ordinary ones. *)
Theorem compareDeep_array_order (l l' : list Value) path options :
  ignoreArrayOrder options = true ->
  collation localeCompare -> toldApart localeCompare l ->
  plainNumbers (VArray l) = true -> ordinaryKeys (VArray l) = true ->
  Permutation l l' ->
  compareDeep (VArray l) (VArray l') path options = [].
Proof.
  intros Ho Ht Hd Hn _ Hp. rewrite (compareDeep_arrays localeCompare), Ho.
  rewrite <- (sortArray_perm_unique l l' Ht Hd Hp).
  unfold pairByIndex. apply flat_map_nil. intros i _.
  destruct (nth_error _ i) as [ x | ] eqn:Ex; [ | reflexivity ].
  apply (compareDeep_same localeCompare). apply nth_error_In in Ex.
  unfold SemanticDiff.sortArray in Ex. apply sort_In, in_map_iff in Ex.
  destruct Ex as (y & <- & Hy).
  apply nanFree_sortObjectValue, (nanFree_item l); [ | exact Hy ].
  now apply plainNumbers_nanFree.
Qed.

End ArrayOrder.

Lemma compareDeep_reflexive_witness :
  nanFreeU (Val nested_ab) = true
  /\ SemanticDiff.compareDeep String.compare nested_ab nested_ab "doc" keyOrderIgnored = [].
Proof.
  assert (H : nanFreeU (Val nested_ab) = true) by reflexivity.
  split; [ exact H | ].
  exact (proj1 (compareDeep_reflexive String.compare JsonReader.parse JsonReader.load)
           (Val nested_ab) "doc" keyOrderIgnored H).
Defined.

Lemma compareDeep_array_order_witness :
  ignoreArrayOrder arrayOrderIgnored = true
  /\ collation String.compare
  /\ toldApart String.compare [ VNumber 3; VString "a"; VNull ]
  /\ plainNumbers (VArray [ VNumber 3; VString "a"; VNull ]) = true
  /\ ordinaryKeys (VArray [ VNumber 3; VString "a"; VNull ]) = true
  /\ Permutation [ VNumber 3; VString "a"; VNull ] [ VNull; VNumber 3; VString "a" ]
  /\ SemanticDiff.compareDeep String.compare
       (VArray [ VNumber 3; VString "a"; VNull ])
       (VArray [ VNull; VNumber 3; VString "a" ]) EmptyString arrayOrderIgnored
     = [].
Proof.
  assert (H1 : ignoreArrayOrder arrayOrderIgnored = true) by reflexivity.
  assert (H3 : toldApart String.compare [ VNumber 3; VString "a"; VNull ]).
  { intros x y Hx Hy Hxy Hyx. pose proof (keyLe_antisym _ _ Hxy Hyx) as E.
    clear Hxy Hyx. cbn in Hx, Hy.
    destruct Hx as [ <- | [ <- | [ <- | [] ] ] ];
      destruct Hy as [ <- | [ <- | [ <- | [] ] ] ];
      try reflexivity; vm_compute in E; discriminate E. }
  assert (H4 : Permutation [ VNumber 3; VString "a"; VNull ]
                           [ VNull; VNumber 3; VString "a" ]).
  { apply Permutation_sym.
    apply (Permutation_cons_app [ VNumber 3; VString "a" ] [] VNull).
    rewrite app_nil_r. apply Permutation_refl. }
  assert (H5 : plainNumbers (VArray [ VNumber 3; VString "a"; VNull ]) = true)
    by reflexivity.
  assert (H6 : ordinaryKeys (VArray [ VNumber 3; VString "a"; VNull ]) = true)
    by reflexivity.
  split; [ exact H1 | ]. split; [ exact string_compare_collation | ].
  split; [ exact H3 | ]. split; [ exact H5 | ]. split; [ exact H6 | ].
  split; [ exact H4 | ].
  exact (compareDeep_array_order String.compare [ VNumber 3; VString "a"; VNull ]
           [ VNull; VNumber 3; VString "a" ] EmptyString arrayOrderIgnored
           H1 string_compare_collation H3 H5 H6 H4).
Defined.

(** ** The canonical text read back

    The reader of JSON text gives back the value whose serialized form,
    indented by two spaces, it is given: strings through their escapes,
    numbers through their decimal digits, arrays and objects element by
    element, within the recursion depth [JsonReader.parse] allows. *)

Section ReadBack.
Import JsonReader.

Lemma append_assoc (a b c : string) : ((a ++ b) ++ c = a ++ (b ++ c))%string.
Proof. induction a as [ | x a IH ]; [ reflexivity | ]. cbn. now rewrite IH. Qed.

Lemma append_empty (a : string) : (a ++ EmptyString)%string = a.
Proof. induction a as [ | x a IH ]; [ reflexivity | ]. cbn. now rewrite IH. Qed.

Lemma skipSpace_blank ws s : blank ws = true -> skipSpace (ws ++ s) = skipSpace s.
Proof.
  induction ws as [ | c ws IH ]; [ reflexivity | ].
  cbn [blank append skipSpace]. intros H. apply andb_true_iff in H.
  destruct H as (Hc & Hws). rewrite Hc. now apply IH.
Qed.

(** *** Strings *)

Lemma readString_quoteChar c t :
  readString (Json.quoteChar c ++ t)
  = match readString t with
    | Some (body, after) => Some (String c body, after)
    | None => None
    end.
Proof.
  destruct c as [ [] [] [] [] [] [] [] [] ]; reflexivity.
Qed.

Lemma readString_quoteBody s rest :
  readString (Json.quoteBody s ++ Json.dquote ++ rest) = Some (s, rest).
Proof.
  induction s as [ | c s IH ]; [ reflexivity | ].
  cbn [Json.quoteBody]. rewrite append_assoc, readString_quoteChar, IH. reflexivity.
Qed.

(** *** Numbers *)

Lemma delimited_digits rest acc count :
  delimited rest = true -> readDigits acc count rest = (acc, count, rest).
Proof.
  destruct rest as [ | c rest ]; [ reflexivity | ].
  cbn [delimited readDigits]. intros H.
  replace (digit c) with (@None Z); [ reflexivity | ].
  destruct c as [ [] [] [] [] [] [] [] [] ]; try discriminate H; reflexivity.
Qed.

Lemma delimited_fraction rest : delimited rest = true -> startsFraction rest = false.
Proof.
  destruct rest as [ | c rest ]; [ reflexivity | ].
  cbn [delimited startsFraction]. intros H.
  destruct c as [ [] [] [] [] [] [] [] [] ]; try discriminate H; reflexivity.
Qed.

Ltac digit_step :=
  match goal with
  | |- context [ digit ?c ] =>
      let v := eval vm_compute in (digit c) in change (digit c) with v
  end.

Lemma readDigits_digits d : forall acc count rest,
  delimited rest = true ->
  readDigits acc count (NilEmpty.string_of_uint d ++ rest)
  = (digitsValue acc d, count + Decimal.nb_digits d, rest).
Proof.
  induction d as [ | d IH | d IH | d IH | d IH | d IH | d IH | d IH | d IH | d IH | d IH ];
    intros acc count rest Hrest;
    cbn [NilEmpty.string_of_uint append digitsValue Decimal.nb_digits];
    [ rewrite Nat.add_0_r; now apply delimited_digits | .. ];
    cbn [readDigits]; digit_step; cbv iota; rewrite (IH _ _ _ Hrest);
    rewrite Nat.add_succ_r; cbn [Nat.add]; rewrite ?Z.add_0_r; reflexivity.
Qed.

Lemma digitsValue_acc d : forall acc,
  digitsValue (Z.pos acc) d = Z.pos (Pos.of_uint_acc d acc).
Proof.
  induction d as [ | d IH | d IH | d IH | d IH | d IH | d IH | d IH | d IH | d IH | d IH ];
    intros acc; cbn [digitsValue Pos.of_uint_acc]; [ reflexivity | .. ];
    rewrite <- IH; f_equal; lia.
Qed.

Lemma digitsValue_of_uint d : digitsValue 0 d = Z.of_N (Pos.of_uint d).
Proof.
  induction d as [ | d IH | d IH | d IH | d IH | d IH | d IH | d IH | d IH | d IH | d IH ];
    cbn [digitsValue Pos.of_uint]; [ reflexivity | exact IH | .. ];
    cbn [Z.mul Z.add Z.of_N]; apply digitsValue_acc.
Qed.

Lemma digitsValue_to_uint p : digitsValue 0 (Pos.to_uint p) = Z.pos p.
Proof. now rewrite digitsValue_of_uint, DecimalPos.Unsigned.of_to. Qed.

Lemma to_uint_head p u : Pos.to_uint p <> Decimal.D0 u.
Proof.
  intros E.
  pose proof (DecimalPos.Unsigned.to_of (Pos.to_uint p)) as H.
  rewrite DecimalPos.Unsigned.of_to in H. cbn [N.to_uint] in H.
  rewrite E in H. unfold Decimal.unorm in H. cbn [Decimal.nzhead] in H.
  destruct (Decimal.nzhead u) eqn:En; try discriminate H.
  - injection H as Hu. subst u. now apply (DecimalPos.Unsigned.to_uint_nonzero p).
  - now apply (DecimalFacts.nzhead_nonzero u u0).
Qed.

Ltac code_step :=
  match goal with
  | |- context [ JsString.code ?c =? ?k ] =>
      let v := eval vm_compute in (JsString.code c =? k) in
      change (JsString.code c =? k) with v
  end.

Lemma readNumber_digits d rest :
  d <> Decimal.Nil -> (forall u, d <> Decimal.D0 u) -> delimited rest = true ->
  readNumber (NilEmpty.string_of_uint d ++ rest) = Some (digitsValue 0 d, rest)
  /\ readNumber (String "-" (NilEmpty.string_of_uint d ++ rest))
     = Some ((- digitsValue 0 d)%Z, rest).
Proof.
  intros Hnil Hhead Hrest.
  destruct d as [ | d | d | d | d | d | d | d | d | d | d ];
    [ now elim Hnil | now elim (Hhead d) | .. ];
    unfold readNumber;
    cbn [NilEmpty.string_of_uint append digitsValue];
    split.
  all: repeat code_step; cbv beta iota zeta.
  all: cbn [readDigits]; digit_step; cbv iota.
  all: rewrite (readDigits_digits d _ _ _ Hrest); cbv beta iota zeta.
  all: repeat code_step; cbn [Nat.add Nat.eqb andb orb].
  all: rewrite (delimited_fraction _ Hrest); reflexivity.
Qed.

Lemma readNumber_to_uint p rest :
  delimited rest = true ->
  readNumber (NilEmpty.string_of_uint (Pos.to_uint p) ++ rest) = Some (Z.pos p, rest)
  /\ readNumber (String "-" (NilEmpty.string_of_uint (Pos.to_uint p) ++ rest))
     = Some (Z.neg p, rest).
Proof.
  intros Hrest.
  destruct (readNumber_digits (Pos.to_uint p) rest
              (DecimalPos.Unsigned.to_uint_nonnil p) (to_uint_head p) Hrest) as [H1 H2].
  rewrite digitsValue_to_uint in H1, H2. split; [ exact H1 | exact H2 ].
Qed.

Lemma readNumber_ofZ z rest :
  delimited rest = true -> readNumber (JsString.ofZ z ++ rest) = Some (z, rest).
Proof.
  intros Hrest. unfold JsString.ofZ.
  destruct z as [ | p | p ]; cbn [Z.to_int NilZero.string_of_int].
  - unfold readNumber. cbn [NilZero.string_of_uint NilEmpty.string_of_uint append].
    repeat code_step. cbv beta iota zeta. cbn [readDigits]. digit_step. cbv iota.
    rewrite (delimited_digits _ _ _ Hrest). cbv beta iota zeta.
    repeat code_step. cbn [Nat.eqb Nat.ltb Nat.leb andb orb].
    rewrite (delimited_fraction _ Hrest). reflexivity.
  - destruct (readNumber_to_uint p rest Hrest) as [H _].
    unfold NilZero.string_of_uint.
    destruct (Pos.to_uint p) eqn:E;
      [ now elim (DecimalPos.Unsigned.to_uint_nonnil p) | exact H .. ].
  - destruct (readNumber_to_uint p rest Hrest) as [_ H].
    unfold NilZero.string_of_uint. cbn [append].
    destruct (Pos.to_uint p) eqn:E;
      [ now elim (DecimalPos.Unsigned.to_uint_nonnil p) | exact H .. ].
Qed.

(** *** Values *)

Lemma ofZ_head z : exists c t, JsString.ofZ z = String c t /\ numberHead c = true.
Proof.
  unfold JsString.ofZ.
  destruct z as [ | p | p ]; cbn [Z.to_int NilZero.string_of_int NilZero.string_of_uint].
  - now exists "0"%char, EmptyString.
  - pose proof (DecimalPos.Unsigned.to_uint_nonnil p) as Hnil.
    destruct (Pos.to_uint p); [ now elim Hnil | .. ];
      cbn [NilEmpty.string_of_uint]; eexists _, _; split; reflexivity.
  - eexists _, _; split; reflexivity.
Qed.

Lemma numberHead_opens c : numberHead c = true -> opens c = true.
Proof.
  intros H. destruct c as [ [] [] [] [] [] [] [] [] ]; try discriminate H; reflexivity.
Qed.

Lemma serialize_head gap indent v :
  exists c t, Json.serialize gap indent v = String c t /\ opens c = true.
Proof.
  destruct v as [ | [] | [ z | ] | s | [ | x l ] | [ | kv l ] ];
    try (eexists _, _; split; reflexivity).
  - destruct (ofZ_head z) as (c & t & E & H). exists c, t.
    split; [ exact E | now apply numberHead_opens ].
  - cbn [Json.serialize]. destruct (JsString.isEmpty gap);
      eexists _, _; split; reflexivity.
  - cbn [Json.serialize]. destruct (JsString.isEmpty gap);
      eexists _, _; split; reflexivity.
Qed.

Lemma opens_skipSpace c t : opens c = true -> skipSpace (String c t) = String c t.
Proof.
  unfold opens. intros H. cbn [skipSpace].
  destruct (isSpace c); [ discriminate H | reflexivity ].
Qed.

Lemma readValue_head fuel s c s' :
  skipSpace s = String c s' ->
  readValue (S fuel) s
  = let text := String c s' in
    let n := JsString.code c in
    if n =? 34 then
      match readString s' with
      | Some (body, rest) => Some (VString body, rest)
      | None => None
      end
    else if n =? 91 then
      match skipSpace s' with
      | String d rest as items =>
          if JsString.code d =? 93 then Some (VArray [], rest)
          else match readItems fuel items [] with
               | Some (vs, rest') => Some (VArray vs, rest')
               | None => None
               end
      | EmptyString => None
      end
    else if n =? 123 then
      match skipSpace s' with
      | String d rest as members =>
          if JsString.code d =? 125 then Some (VObject [], rest)
          else match readMembers fuel members [] with
               | Some (props, rest') => Some (VObject props, rest')
               | None => None
               end
      | EmptyString => None
      end
    else if n =? 110 then
      option_map (fun rest => (VNull, rest)) (expect "null" text)
    else if n =? 116 then
      option_map (fun rest => (VBool true, rest)) (expect "true" text)
    else if n =? 102 then
      option_map (fun rest => (VBool false, rest)) (expect "false" text)
    else
      match readNumber text with
      | Some (z, rest) => Some (VNumber z, rest)
      | None => None
      end.
Proof. intros H. cbn [readValue]. rewrite H. reflexivity. Qed.

Lemma readValue_number fuel s c t :
  skipSpace s = String c t -> numberHead c = true ->
  readValue (S fuel) s
  = match readNumber (String c t) with
    | Some (z, rest) => Some (VNumber z, rest)
    | None => None
    end.
Proof.
  intros Hs H. rewrite (readValue_head _ _ _ _ Hs).
  destruct c as [ [] [] [] [] [] [] [] [] ]; try discriminate H; reflexivity.
Qed.

Lemma readItems_eq fuel s acc :
  readItems (S fuel) s acc
  = match readValue fuel s with
    | Some (v, rest) =>
        match skipSpace rest with
        | String c rest' =>
            if JsString.code c =? 44 then readItems fuel rest' (acc ++ [v])
            else if JsString.code c =? 93 then Some (acc ++ [v], rest')
            else None
        | EmptyString => None
        end
    | None => None
    end.
Proof. reflexivity. Qed.

Lemma readMembers_eq fuel s acc :
  readMembers (S fuel) s acc
  = match skipSpace s with
    | String q s' =>
        if JsString.code q =? 34 then
          match readString s' with
          | Some (key, rest) =>
              match skipSpace rest with
              | String colon rest' =>
                  if JsString.code colon =? 58 then
                    match readValue fuel rest' with
                    | Some (v, rest'') =>
                        match skipSpace rest'' with
                        | String c after =>
                            if JsString.code c =? 44
                            then readMembers fuel after (JsObject.define acc key v)
                            else if JsString.code c =? 125
                            then Some (JsObject.define acc key v, after)
                            else None
                        | EmptyString => None
                        end
                    | None => None
                    end
                  else None
              | EmptyString => None
              end
          | None => None
          end
        else None
    | EmptyString => None
    end.
Proof. reflexivity. Qed.

Local Abbreviation gap := "  ".

Lemma serialize_array indent x l :
  Json.serialize gap indent (VArray (x :: l))
  = ("[" ++ JsString.newline ++ (indent ++ gap)
     ++ JsString.join ("," ++ JsString.newline ++ (indent ++ gap))
          (map (Json.serialize gap (indent ++ gap)) (x :: l))
     ++ JsString.newline ++ indent ++ "]")%string.
Proof. reflexivity. Qed.

Lemma serialize_object indent kv l :
  Json.serialize gap indent (VObject (kv :: l))
  = ("{" ++ JsString.newline ++ (indent ++ gap)
     ++ JsString.join ("," ++ JsString.newline ++ (indent ++ gap))
          (map (fun kv : string * Value =>
                  let (k, x) := kv in
                  (Json.quote k ++ ": " ++ Json.serialize gap (indent ++ gap) x)%string)
               (kv :: l))
     ++ JsString.newline ++ indent ++ "}")%string.
Proof. reflexivity. Qed.

Lemma blank_app a b : blank a = true -> blank b = true -> blank (a ++ b) = true.
Proof.
  induction a as [ | c a IH ]; [ auto | ].
  cbn [blank append]. intros H Hb. apply andb_true_iff in H. destruct H as (Hc & Ha).
  now rewrite Hc, IH.
Qed.

Lemma join_head sep p ps :
  (exists c t, p = String c t /\ opens c = true) ->
  exists c t, JsString.join sep (p :: ps) = String c t /\ opens c = true.
Proof.
  intros (c & t & -> & Hc). destruct ps as [ | q ps ]; cbn [JsString.join append];
    eexists _, _; split; try reflexivity; exact Hc.
Qed.

Lemma join_map_cons {A : Type} sep (f : A -> string) x y l :
  JsString.join sep (f x :: map f (y :: l))
  = (f x ++ sep ++ JsString.join sep (map f (y :: l)))%string.
Proof. reflexivity. Qed.

Lemma items_text (p sep J T : string) :
  ((p ++ ("," ++ sep) ++ J) ++ T)%string = (p ++ String "," (sep ++ J ++ T))%string.
Proof. rewrite !append_assoc. reflexivity. Qed.

(** The elements of an array, after the opening bracket. *)
Lemma readItems_serialize indent (l : list Value) :
  blank indent = true ->
  Forall (fun x => forall indent ws rest fuel,
            representable x = true -> blank indent = true -> blank ws = true ->
            delimited rest = true -> cost x <= fuel ->
            readValue fuel (ws ++ Json.serialize gap indent x ++ rest)
            = Some (reread x, rest)) l ->
  forall ws acc rest fuel,
    l <> [] -> blank ws = true -> forallb representable l = true ->
    fold_right (fun x c => S (Nat.max (cost x) c)) 0 l <= fuel ->
    readItems fuel
      (ws ++ JsString.join ("," ++ JsString.newline ++ (indent ++ gap))
               (map (Json.serialize gap (indent ++ gap)) l)
          ++ JsString.newline ++ indent ++ "]" ++ rest) acc
    = Some (acc ++ map reread l, rest).
Proof.
  intros Hindent IH.
  assert (Hinner : blank (indent ++ gap) = true) by now apply blank_app.
  induction IH as [ | x l Hx _ IHl ]; intros ws acc rest fuel Hne Hws Hp Hfuel;
    [ now elim Hne | ].
  cbn [fold_right] in Hfuel. destruct fuel as [ | fuel ]; [ lia | ].
  cbn [forallb] in Hp. apply andb_true_iff in Hp. destruct Hp as (Hpx & Hpl).
  assert (Hcx : cost x <= fuel) by lia.
  rewrite readItems_eq. cbn [map].
  destruct l as [ | y l ].
  - cbn [map JsString.join].
    match goal with
    | |- context [ readValue fuel (ws ++ Json.serialize _ _ x ++ ?r)%string ] =>
        rewrite (Hx _ ws r fuel Hpx Hinner Hws eq_refl Hcx)
    end.
    change (skipSpace (JsString.newline ++ indent ++ "]" ++ rest))
      with (skipSpace (indent ++ "]" ++ rest)).
    rewrite skipSpace_blank by exact Hindent. reflexivity.
  - rewrite join_map_cons, items_text.
    match goal with
    | |- context [ readValue fuel (ws ++ Json.serialize _ _ x ++ ?r)%string ] =>
        rewrite (Hx _ ws r fuel Hpx Hinner Hws eq_refl Hcx)
    end.
    rewrite opens_skipSpace by reflexivity. repeat code_step. cbv iota.
    rewrite (IHl (JsString.newline ++ (indent ++ gap))%string);
      [ now rewrite <- app_assoc | discriminate | | exact Hpl | lia ].
    apply (blank_app JsString.newline); [ reflexivity | exact Hinner ].
Qed.

Lemma member_text k (text rest : string) :
  ((Json.quote k ++ ": " ++ text) ++ rest)%string
  = String (ascii_of_nat 34)
      (Json.quoteBody k ++ Json.dquote ++ String ":" (String " " (text ++ rest)))%string.
Proof. unfold Json.quote. rewrite !append_assoc. reflexivity. Qed.

(** The properties of an object, after the opening brace. *)
Lemma readMembers_serialize indent (l : JsObject.Props) :
  blank indent = true ->
  Forall (fun kv : string * Value => forall indent ws rest fuel,
            representable (snd kv) = true -> blank indent = true -> blank ws = true ->
            delimited rest = true -> cost (snd kv) <= fuel ->
            readValue fuel (ws ++ Json.serialize gap indent (snd kv) ++ rest)
            = Some (reread (snd kv), rest)) l ->
  forall ws acc rest fuel,
    l <> [] -> blank ws = true ->
    NoDup (map fst acc ++ map fst l) ->
    forallb (fun kv : string * Value => representable (snd kv)) l = true ->
    fold_right (fun (kv : string * Value) c => S (Nat.max (cost (snd kv)) c)) 0 l <= fuel ->
    readMembers fuel
      (ws ++ JsString.join ("," ++ JsString.newline ++ (indent ++ gap))
               (map (fun kv : string * Value =>
                       let (k, x) := kv in
                       (Json.quote k ++ ": "
                        ++ Json.serialize gap (indent ++ gap) x)%string) l)
          ++ JsString.newline ++ indent ++ "}" ++ rest) acc
    = Some (acc ++ map (fun kv : string * Value => let (k, x) := kv in (k, reread x)) l,
            rest).
Proof.
  intros Hindent IH.
  assert (Hinner : blank (indent ++ gap) = true) by now apply blank_app.
  induction IH as [ | [k x] l Hx _ IHl ]; intros ws acc rest fuel Hne Hws Hnd Hp Hfuel;
    [ now elim Hne | ].
  cbn [fold_right snd] in Hfuel. destruct fuel as [ | fuel ]; [ lia | ].
  cbn [forallb snd] in Hp. apply andb_true_iff in Hp. destruct Hp as (Hpx & Hpl).
  cbn [snd] in Hx.
  assert (Hcx : cost x <= fuel) by lia.
  assert (Hk : ~ In k (map fst acc)).
  { cbn [map fst] in Hnd. apply NoDup_remove_2 in Hnd. intros Hin. apply Hnd.
    apply in_or_app. now left. }
  assert (Hnd' : NoDup (map fst (acc ++ [ (k, reread x) ]) ++ map fst l)).
  { rewrite map_app, <- app_assoc. exact Hnd. }
  rewrite readMembers_eq.
  assert (Hdefine : JsObject.define acc k (reread x) = acc ++ [ (k, reread x) ])
    by now apply define_fresh.
  destruct l as [ | [k' y] l ].
  - cbn [map JsString.join]. rewrite member_text.
    rewrite skipSpace_blank by exact Hws.
    rewrite opens_skipSpace by reflexivity. repeat code_step. cbv iota.
    rewrite readString_quoteBody. cbv iota.
    rewrite opens_skipSpace by reflexivity. repeat code_step. cbv iota.
    match goal with
    | |- context [ readValue fuel (String " " (?t ++ ?r))%string ] =>
        change (String " " (t ++ r)%string) with (" " ++ t ++ r)%string;
        rewrite (Hx _ " " r fuel Hpx Hinner eq_refl eq_refl Hcx)
    end.
    change (skipSpace (JsString.newline ++ indent ++ "}" ++ rest))
      with (skipSpace (indent ++ "}" ++ rest)).
    rewrite skipSpace_blank by exact Hindent.
    rewrite Hdefine. reflexivity.
  - set (part := fun kv : string * Value =>
                   let (k0, x0) := kv in
                   (Json.quote k0 ++ ": " ++ Json.serialize gap (indent ++ gap) x0)%string)
      in *.
    rewrite (join_map_cons _ part (k, x) (k', y) l).
    change (part (k, x))
      with (Json.quote k ++ ": " ++ Json.serialize gap (indent ++ gap) x)%string.
    rewrite items_text, member_text.
    rewrite skipSpace_blank by exact Hws.
    rewrite opens_skipSpace by reflexivity. repeat code_step. cbv iota.
    rewrite readString_quoteBody. cbv iota.
    rewrite opens_skipSpace by reflexivity. repeat code_step. cbv iota.
    match goal with
    | |- context [ readValue fuel (String " " (?t ++ ?r))%string ] =>
        change (String " " (t ++ r)%string) with (" " ++ t ++ r)%string;
        rewrite (Hx _ " " r fuel Hpx Hinner eq_refl eq_refl Hcx)
    end.
    rewrite opens_skipSpace by reflexivity. repeat code_step. cbv iota.
    rewrite Hdefine.
    rewrite (IHl (JsString.newline ++ (indent ++ gap))%string);
      [ now rewrite <- app_assoc | discriminate | | exact Hnd' | exact Hpl | lia ].
    apply (blank_app JsString.newline); [ reflexivity | exact Hinner ].
Qed.

(** The reader gives back what was serialized. *)
Lemma readValue_serialize v :
  forall indent ws rest fuel,
    representable v = true -> blank indent = true -> blank ws = true ->
    delimited rest = true -> cost v <= fuel ->
    readValue fuel (ws ++ Json.serialize gap indent v ++ rest) = Some (reread v, rest).
Proof.
  induction v as [ | b | n | s | items IH | props IH ] using Value_induction;
    intros indent ws rest fuel Hp Hindent Hws Hrest Hfuel;
    (destruct fuel as [ | fuel ]; [ cbn [cost] in Hfuel; lia | ]).
  - rewrite (readValue_head fuel _ "n" ("ull" ++ rest));
      [ reflexivity | now rewrite skipSpace_blank ].
  - destruct b.
    + rewrite (readValue_head fuel _ "t" ("rue" ++ rest));
        [ reflexivity | now rewrite skipSpace_blank ].
    + rewrite (readValue_head fuel _ "f" ("alse" ++ rest));
        [ reflexivity | now rewrite skipSpace_blank ].
  - destruct n as [ z | ].
    + cbn [Json.serialize reread].
      destruct (ofZ_head z) as (c & t & E & Hc).
      rewrite (readValue_number fuel _ c (t ++ rest)); [ | | exact Hc ].
      * change (String c (t ++ rest)) with (String c t ++ rest)%string.
        rewrite <- E, readNumber_ofZ by exact Hrest. reflexivity.
      * rewrite skipSpace_blank by exact Hws. rewrite E. cbn [append].
        apply opens_skipSpace, numberHead_opens, Hc.
    + rewrite (readValue_head fuel _ "n" ("ull" ++ rest));
        [ reflexivity | now rewrite skipSpace_blank ].
  - cbn [Json.serialize reread]. unfold Json.quote.
    rewrite (readValue_head fuel _ (ascii_of_nat 34)
               (Json.quoteBody s ++ Json.dquote ++ rest)).
    + cbv zeta. repeat code_step. cbv iota. now rewrite readString_quoteBody.
    + rewrite skipSpace_blank by exact Hws. rewrite !append_assoc. reflexivity.
  - destruct items as [ | x l ].
    + rewrite (readValue_head fuel _ "[" ("]" ++ rest));
        [ reflexivity | now rewrite skipSpace_blank ].
    + rewrite serialize_array.
      cbn [representable] in Hp. cbn [cost] in Hfuel.
      set (J := JsString.join _ _).
      rewrite (readValue_head fuel _ "["
                 ((JsString.newline ++ (indent ++ gap)) ++ J
                  ++ (JsString.newline ++ indent ++ "]") ++ rest)).
      * cbv zeta. repeat code_step. cbv iota.
        assert (Hinner : blank (JsString.newline ++ (indent ++ gap)) = true).
        { apply (blank_app JsString.newline); [ reflexivity | ].
          now apply blank_app. }
        assert (EJ : exists d t, J = String d t /\ opens d = true).
        { unfold J. cbn [map]. apply join_head, serialize_head. }
        destruct EJ as (d & t & EJ & Hd).
        rewrite skipSpace_blank by exact Hinner.
        rewrite EJ. cbn [append].
        rewrite opens_skipSpace by exact Hd.
        assert (Hd' : (JsString.code d =? 93) = false).
        { unfold opens in Hd. rewrite !andb_true_iff, !negb_true_iff in Hd. apply Hd. }
        rewrite Hd'.
        change (String d (t ++ (JsString.newline ++ indent ++ "]") ++ rest))
          with (EmptyString ++ String d t ++ (JsString.newline ++ indent ++ "]") ++ rest)%string.
        rewrite <- EJ. unfold J.
        rewrite !append_assoc.
        rewrite (readItems_serialize indent (x :: l) Hindent IH EmptyString [] rest fuel);
          [ reflexivity | discriminate | reflexivity | exact Hp | lia ].
      * rewrite skipSpace_blank by exact Hws.
        rewrite !append_assoc. reflexivity.
  - destruct props as [ | kv l ].
    + rewrite (readValue_head fuel _ "{" ("}" ++ rest));
        [ reflexivity | now rewrite skipSpace_blank ].
    + rewrite serialize_object.
      cbn [representable] in Hp. apply andb_true_iff in Hp. destruct Hp as (Hkeys & Hp).
      assert (Hp' : forallb (fun kv : string * Value => representable (snd kv)) (kv :: l)
                    = true).
      { rewrite forallb_forall in *. intros a Ha. specialize (Hp a Ha).
        now apply andb_true_iff in Hp. }
      cbn [cost] in Hfuel.
      set (J := JsString.join _ _).
      rewrite (readValue_head fuel _ "{"
                 ((JsString.newline ++ (indent ++ gap)) ++ J
                  ++ (JsString.newline ++ indent ++ "}") ++ rest)).
      * cbv zeta. repeat code_step. cbv iota.
        assert (Hinner : blank (JsString.newline ++ (indent ++ gap)) = true).
        { apply (blank_app JsString.newline); [ reflexivity | ].
          now apply blank_app. }
        assert (EJ : exists t, J = String (ascii_of_nat 34) t).
        { unfold J. destruct kv as [k x]. destruct l as [ | kv' l ];
            cbn [map JsString.join]; unfold Json.quote; cbn [append Json.dquote];
            eexists; reflexivity. }
        destruct EJ as (t & EJ).
        rewrite skipSpace_blank by exact Hinner.
        rewrite EJ. cbn [append].
        rewrite opens_skipSpace by reflexivity. repeat code_step. cbv iota.
        change (String (ascii_of_nat 34) (t ++ (JsString.newline ++ indent ++ "}") ++ rest))
          with (EmptyString ++ String (ascii_of_nat 34) t
                ++ (JsString.newline ++ indent ++ "}") ++ rest)%string.
        rewrite <- EJ. unfold J.
        rewrite !append_assoc.
        rewrite (readMembers_serialize indent (kv :: l) Hindent IH EmptyString [] rest fuel);
          [ reflexivity | discriminate | reflexivity | | exact Hp' | lia ].
        cbn [map app]. now apply distinctKeys_NoDup.
      * rewrite skipSpace_blank by exact Hws.
        rewrite !append_assoc. reflexivity.
Qed.

(** *** The recursion depth *)

Lemma costs_join {A : Type} (f : A -> nat) (g : A -> string) (sep : string) (l : list A) :
  1 <= String.length sep ->
  Forall (fun a => f a <= String.length (g a)) l ->
  fold_right (fun a c => S (Nat.max (f a) c)) 0 l
  <= String.length (JsString.join sep (map g l)) + 1.
Proof.
  intros Hsep. induction 1 as [ | a l Ha _ IH ]; [ cbn; lia | ].
  cbn [fold_right]. destruct l as [ | b l ].
  - cbn [map JsString.join fold_right]. lia.
  - change (map g (a :: b :: l)) with (g a :: map g (b :: l)).
    rewrite join_map_cons, !length_append. cbn [fold_right] in IH |- *. lia.
Qed.

Lemma cost_length v : forall indent, cost v <= String.length (Json.serialize gap indent v).
Proof.
  induction v as [ | b | n | s | items IH | props IH ] using Value_induction;
    intros indent.
  - cbn. lia.
  - destruct b; cbn; lia.
  - destruct n as [ z | ]; [ | cbn; lia ].
    cbn [Json.serialize cost]. destruct (ofZ_head z) as (c & t & -> & _). cbn. lia.
  - cbn [Json.serialize cost]. unfold Json.quote. cbn. lia.
  - destruct items as [ | x l ]; [ cbn; lia | ].
    rewrite serialize_array. cbn [cost]. rewrite !length_append.
    pose proof (costs_join cost (Json.serialize gap (indent ++ gap))
                  ("," ++ JsString.newline ++ (indent ++ gap)) (x :: l)) as H.
    cbn [append String.length] in H |- *.
    specialize (H ltac:(lia)).
    assert (Hall : Forall (fun a => cost a <= String.length
                                      (Json.serialize gap (indent ++ gap) a)) (x :: l)).
    { eapply Forall_impl; [ | exact IH ]. intros a Ha. apply Ha. }
    specialize (H Hall). lia.
  - destruct props as [ | kv l ]; [ cbn; lia | ].
    rewrite serialize_object. cbn [cost]. rewrite !length_append.
    pose proof (costs_join (fun kv : string * Value => cost (snd kv))
                  (fun kv : string * Value =>
                     let (k, x) := kv in
                     (Json.quote k ++ ": " ++ Json.serialize gap (indent ++ gap) x)%string)
                  ("," ++ JsString.newline ++ (indent ++ gap)) (kv :: l)) as H.
    cbn [append String.length] in H |- *.
    specialize (H ltac:(lia)).
    assert (Hall : Forall (fun kv : string * Value =>
                             cost (snd kv)
                             <= String.length
                                  (let (k, x) := kv in
                                   (Json.quote k ++ ": "
                                    ++ Json.serialize gap (indent ++ gap) x)%string))
                          (kv :: l)).
    { eapply Forall_impl; [ | exact IH ]. intros [k a] Ha. cbn [snd] in *.
      rewrite !length_append. specialize (Ha (indent ++ gap)%string). lia. }
    specialize (H Hall). lia.
Qed.

(** [JSON.parse(JSON.stringify(v, null, 2))] *)
Lemma parse_stringify2 v :
  representable v = true -> JsonReader.parse (Json.stringify2 v) = Normal (reread v).
Proof.
  intros Hp. unfold JsonReader.parse, Json.stringify2.
  pose proof (cost_length v EmptyString) as Hc.
  pose proof (readValue_serialize v EmptyString EmptyString EmptyString
                (2 * String.length (Json.serialize gap EmptyString v) + 2)
                Hp eq_refl eq_refl eq_refl ltac:(lia)) as H.
  cbn [append] in H. rewrite append_empty in H. rewrite H. reflexivity.
Qed.

Lemma stringify2_not_blank v :
  JsString.isEmpty (JsString.trim (Json.stringify2 v)) = false.
Proof.
  destruct (JsString.isEmpty (JsString.trim (Json.stringify2 v))) eqn:E; [ | reflexivity ].
  apply blank_iff in E. unfold Json.stringify2 in E.
  destruct (serialize_head gap EmptyString v) as (c & t & Et & Hc).
  rewrite Et in E. cbn [JsString.whiteSpaceOnly] in E.
  unfold opens in Hc. rewrite !andb_true_iff, !negb_true_iff in Hc.
  destruct Hc as ((_ & Hw) & _). rewrite Hw in E. discriminate E.
Qed.

(** [yaml.load] on the same text, for the stand-in of the examples. *)
Lemma load_stringify2 v :
  representable v = true -> JsonReader.load (Json.stringify2 v) = Normal (Some (reread v)).
Proof.
  intros Hp. unfold JsonReader.load.
  now rewrite stringify2_not_blank, parse_stringify2.
Qed.

End ReadBack.

Section RoundTrip.
Import TextDiff.

Lemma serialize_reread v : forall gap indent,
  Json.serialize gap indent (reread v) = Json.serialize gap indent v.
Proof.
  induction v as [ | b | n | s | items IH | props IH ] using Value_induction;
    intros gap indent; try reflexivity.
  - now destruct n.
  - destruct items as [ | x l ]; [ reflexivity | ].
    assert (E : forall inner,
               map (Json.serialize gap inner) (map reread (x :: l))
               = map (Json.serialize gap inner) (x :: l)).
    { intros inner. rewrite map_map. apply map_ext_in. intros a Ha.
      rewrite Forall_forall in IH. apply (IH _ Ha). }
    cbn [reread]. change (map reread (x :: l)) with (reread x :: map reread l) in *.
    cbn [Json.serialize]. now rewrite !E.
  - destruct props as [ | [k x] l ]; [ reflexivity | ].
    set (R := fun kv : string * Value => let (k0, x0) := kv in (k0, reread x0)).
    assert (E : forall inner sep,
               map (fun kv : string * Value =>
                      let (k0, x0) := kv in
                      (Json.quote k0 ++ sep ++ Json.serialize gap inner x0)%string)
                   (map R ((k, x) :: l))
               = map (fun kv : string * Value =>
                        let (k0, x0) := kv in
                        (Json.quote k0 ++ sep ++ Json.serialize gap inner x0)%string)
                     ((k, x) :: l)).
    { intros inner sep. rewrite map_map. apply map_ext_in. intros [k0 a] Ha.
      unfold R. rewrite Forall_forall in IH. now rewrite (IH _ Ha). }
    cbn [reread]. fold R.
    change (map R ((k, x) :: l)) with ((k, reread x) :: map R l) in *.
    cbn [Json.serialize]. now rewrite !E.
Qed.

Lemma ordered_map {A : Type} (cmp : A -> A -> comparison) (g : A -> A) l :
  (forall a b, cmp (g a) (g b) = cmp a b) ->
  JsArray.ordered cmp l -> JsArray.ordered cmp (map g l).
Proof.
  intros Hg. induction 1 as [ | x | x y l Hxy _ IH ]; cbn [map]; constructor.
  - now rewrite Hg.
  - exact IH.
Qed.

Lemma reread_keys props :
  map fst (map (fun kv : string * Value => let (k, x) := kv in (k, reread x)) props)
  = map fst props.
Proof. rewrite map_map. apply map_ext. now intros [k x]. Qed.

Section Collation.
Variable localeCompare : string -> string -> comparison.

Local Abbreviation Canon := (TextDiff.Canon localeCompare).
Local Abbreviation canonicalValue := (TextDiff.canonicalValue localeCompare).

Lemma reread_Canon ks sa v : Canon ks sa v -> Canon ks sa (reread v).
Proof.
  induction v as [ | b | n | s | items IH | props IH ] using Value_induction;
    intros Hc; try exact I.
  - now destruct n.
  - apply Canon_array in Hc. destruct Hc as (Hord & Hitems).
    cbn [reread]. apply Canon_array. split.
    + intros Hsa. apply ordered_map; [ | now apply Hord ].
      intros a b. unfold TextDiff.bySerializedForm, Json.stringify.
      now rewrite !serialize_reread.
    + rewrite Forall_map. rewrite Forall_forall in *. auto.
  - apply Canon_object in Hc. destruct Hc as (Hclean & Hord & Hvalues).
    cbn [reread]. apply Canon_object. rewrite reread_keys.
    split; [ exact Hclean | ]. split; [ exact Hord | ].
    rewrite Forall_map. rewrite Forall_forall in *.
    intros [k x] Hin. cbn [snd]. apply (IH _ Hin), (Hvalues _ Hin).
Qed.

Lemma sortObjectDeep_representable v :
  representable v = true -> representable (sortObjectDeep v) = true.
Proof.
  unfold sortObjectDeep.
  induction v as [ | b | n | s | items IH | props IH ] using Value_induction;
    intros Hp; try exact Hp.
  - cbn [SemanticDiff.sortObjectValue representable] in *. rewrite forallb_forall in *.
    intros y Hy. apply in_map_iff in Hy. destruct Hy as (x & <- & Hx).
    rewrite Forall_forall in IH. apply (IH _ Hx), (Hp _ Hx).
  - pose proof (sortObjectDeep_canon localeCompare (VObject props)) as Hc.
    unfold sortObjectDeep in Hc. cbn [SemanticDiff.sortObjectValue] in Hc |- *.
    apply Canon_object in Hc. destruct Hc as ((Hnd & _) & _).
    cbn [representable] in *. apply andb_true_iff in Hp. destruct Hp as (_ & Hp).
    apply andb_true_iff. split; [ now apply NoDup_distinctKeys | ].
    rewrite forallb_forall in *. intros [k y] Hin. cbn [fst snd].
    apply assignEach_In in Hin. destruct Hin as [ [] | (Hk & ->) ].
    apply sort_In, in_map_iff in Hk. destruct Hk as ([k' x] & Ek & Hx).
    cbn [fst] in Ek. subst k'.
    pose proof (Hp _ Hx) as Hkx. cbn [fst snd] in Hkx.
    apply andb_true_iff in Hkx. destruct Hkx as (Hk & _). rewrite Hk. cbn [andb].
    destruct (JsObject.own _ k) as [ y | ] eqn:E; [ | reflexivity ].
    apply own_In, in_map_iff in E. destruct E as ([k' z] & [= <- <-] & Hz).
    rewrite Forall_forall in IH. apply (IH _ Hz).
    specialize (Hp _ Hz). cbn [snd] in Hp. now apply andb_true_iff in Hp.
Qed.

Lemma sortArraysDeep_representable v :
  representable v = true -> representable (sortArraysDeep localeCompare v) = true.
Proof.
  induction v as [ | b | n | s | items IH | props IH ] using Value_induction;
    intros Hp; try exact Hp.
  - cbn [sortArraysDeep representable] in *. rewrite forallb_forall in *.
    intros y Hy. apply sort_In, in_map_iff in Hy. destruct Hy as (x & <- & Hx).
    rewrite Forall_forall in IH. apply (IH _ Hx), (Hp _ Hx).
  - cbn [sortArraysDeep]. fold (assignProps (sortArraysDeep localeCompare) props []).
    pose proof (assignProps_clean (sortArraysDeep localeCompare) props [] cleanKeys_nil)
      as (Hnd & _).
    cbn [representable] in *. apply andb_true_iff in Hp. destruct Hp as (_ & Hp).
    apply andb_true_iff. split; [ now apply NoDup_distinctKeys | ].
    rewrite forallb_forall in *. intros [k y] Hin. cbn [fst snd].
    apply assignProps_In in Hin. destruct Hin as [ [] | (x & Hx & ->) ].
    specialize (Hp _ Hx). cbn [fst snd] in Hp.
    apply andb_true_iff in Hp. destruct Hp as (Hk & Hpx). rewrite Hk. cbn [andb].
    rewrite Forall_forall in IH. apply (IH _ Hx), Hpx.
Qed.

Hypothesis localeCompare_asym :
  forall a b, localeCompare a b = Gt -> localeCompare b a <> Gt.

(** The value [normalizeContent] serializes is in canonical form for the
    passes that were applied. *)
Lemma canonicalValue_canon options v :
  representable v = true ->
  representable (canonicalValue options v) = true
  /\ canonicalValue options (reread (canonicalValue options v))
     = reread (canonicalValue options v).
Proof.
  intros Hp. rewrite (canonicalValue_passes localeCompare options v).
  rewrite (canonicalValue_passes localeCompare options (reread _)). cbv zeta.
  destruct (ignoreKeyOrder options) eqn:Ek; destruct (ignoreArrayOrder options) eqn:Ea.
  - assert (H : Canon true true (sortArraysDeep localeCompare (sortObjectDeep v))).
    { apply (sortArraysDeep_canon localeCompare localeCompare_asym true false).
      intros _. apply sortObjectDeep_canon. }
    split; [ now apply sortArraysDeep_representable, sortObjectDeep_representable | ].
    apply reread_Canon in H.
    rewrite (sortObjectDeep_fixed localeCompare true _ H).
    now apply (sortArraysDeep_fixed localeCompare true).
  - pose proof (sortObjectDeep_canon localeCompare v) as H.
    split; [ now apply sortObjectDeep_representable | ].
    apply reread_Canon in H. now apply (sortObjectDeep_fixed localeCompare false).
  - assert (H : Canon false true (sortArraysDeep localeCompare v)).
    { apply (sortArraysDeep_canon localeCompare localeCompare_asym false false).
      discriminate. }
    split; [ now apply sortArraysDeep_representable | ].
    apply reread_Canon in H. now apply (sortArraysDeep_fixed localeCompare false).
  - split; [ exact Hp | reflexivity ].
Qed.

End Collation.

(** The reader of JSON text reads the canonical text of a value back, in
    every format. *)
Lemma reader_parse v format :
  representable v = true ->
  TextDiff.parse JsonReader.parse JsonReader.load (Json.stringify2 v) format
  = Normal (Val (reread v)).
Proof.
  intros Hp. unfold TextDiff.parse.
  rewrite parse_stringify2, load_stringify2 by exact Hp.
  now destruct (match format with json => true | yaml => false | auto => _ end).
Qed.

End RoundTrip.

Section CanonicalText.
Import TextDiff.

Variable localeCompare : string -> string -> comparison.
Variable JSON_parse : string -> Completion Value.
Variable yaml_load : string -> Completion (option Value).

Local Abbreviation parse := (TextDiff.parse JSON_parse yaml_load).
Local Abbreviation canonicalValue := (TextDiff.canonicalValue localeCompare).
Local Abbreviation normalizeContent :=
  (TextDiff.normalizeContent localeCompare JSON_parse yaml_load).

Lemma normalizeContent_plain content format options :
  ignoreWhitespace options = false -> ignoreCase options = false ->
  normalizeContent content format options
  = match parse content format with
    | Normal (Val parsed) => Some (Json.stringify2 (canonicalValue options parsed))
    | Normal _ => None
    | Throw _ => Some content
    end.
Proof.
  intros Hw Hc. unfold TextDiff.normalizeContent, TextDiff.caught. rewrite Hw, Hc.
  destruct (parse content format) as [ [ | parsed | name | ] | message ]; reflexivity.
Qed.

(** C8, amended. With [ignoreWhitespace] and [ignoreCase] both unset, a
    canonical text that [normalizeContent] returns is a fixed point of it:
    either the text did not parse and is returned as it is both times, or
    its document was serialized, and reading the serialized form back and
    serializing again gives the same text. The document is taken to be
    a value the embedding represents, [localeCompare] never to put each of
    two texts after the other, and [JSON.parse] and [yaml.load] to read
    the text [JSON.stringify] prints of such a value as the reader of JSON
    text does, unless they reject it; that this reader gives back the
    value that was printed is [parse_stringify2]. *)
Theorem normalizeContent_stable content format options text :
  ignoreWhitespace options = false ->
  ignoreCase options = false ->
  (forall a b, localeCompare a b = Gt -> localeCompare b a <> Gt) ->
  (forall v : Value, parse content format = Normal (Val v) -> representable v = true) ->
  (forall v : Value,
      representable v = true ->
      (exists message, parse (Json.stringify2 v) format = Throw message)
      \/ parse (Json.stringify2 v) format
         = TextDiff.parse JsonReader.parse JsonReader.load (Json.stringify2 v) format) ->
  normalizeContent content format options = Some text ->
  normalizeContent text format options = Some text.
Proof.
  intros Hw Hc Hasym Hkeys Hread.
  rewrite (normalizeContent_plain content) by assumption.
  destruct (parse content format) as [ [ | parsed | name | ] | message ] eqn:E;
    try discriminate.
  - intros [= <-]. rewrite normalizeContent_plain by assumption.
    destruct (canonicalValue_canon localeCompare Hasym options parsed (Hkeys _ eq_refl))
      as (Hp & Hfix).
    destruct (Hread (canonicalValue options parsed) Hp) as [ (message & ->) | -> ];
      [ reflexivity | ].
    rewrite reader_parse by exact Hp. rewrite Hfix.
    unfold Json.stringify2. now rewrite serialize_reread.
  - intros [= <-]. rewrite normalizeContent_plain by assumption. now rewrite E.
Qed.

End CanonicalText.

(** C8 fails as stated. With [ignoreCase], the text [[TRUE]] does not parse
    and is returned in lower case, which parses and is then printed with
    indentation; with [ignoreWhitespace], collapsing the white space of the
    canonical text merges two keys, and the second pass prints one. With
    neither option, a blank text read as YAML has no canonical text at
    all: [normalizeContent] returns [undefined]. *)
Lemma canonical_text_not_stable :
  let normalize := TextDiff.normalizeContent String.compare JsonReader.parse JsonReader.load in
  (exists text,
      normalize "[TRUE]" json caseIgnored = Some text
      /\ normalize text json caseIgnored <> Some text)
  /\ (exists text,
         normalize twoSpacedKeys json whitespaceIgnored = Some text
         /\ normalize text json whitespaceIgnored <> Some text)
  /\ normalize " " yaml defaultOptions = None.
Proof.
  cbv zeta. split; [ | split; [ | reflexivity ] ];
    eexists; (split; [ vm_compute; reflexivity | ]); vm_compute; discriminate.
Qed.

Lemma normalizeContent_stable_witness :
  let normalize := TextDiff.normalizeContent String.compare JsonReader.parse JsonReader.load in
  ignoreWhitespace arrayOrderIgnored = false
  /\ ignoreCase arrayOrderIgnored = false
  /\ normalize "[3, 1, 2]" json arrayOrderIgnored
     = Some (Json.stringify2 (VArray [ VNumber 1; VNumber 2; VNumber 3 ]))
  /\ normalize (Json.stringify2 (VArray [ VNumber 1; VNumber 2; VNumber 3 ]))
       json arrayOrderIgnored
     = Some (Json.stringify2 (VArray [ VNumber 1; VNumber 2; VNumber 3 ])).
Proof.
  cbv zeta. split; [ reflexivity | ]. split; [ reflexivity | ].
  assert (H : TextDiff.normalizeContent String.compare JsonReader.parse JsonReader.load
                "[3, 1, 2]" json arrayOrderIgnored
              = Some (Json.stringify2 (VArray [ VNumber 1; VNumber 2; VNumber 3 ])))
    by reflexivity.
  split; [ exact H | ].
  apply (normalizeContent_stable String.compare JsonReader.parse JsonReader.load
           "[3, 1, 2]" json arrayOrderIgnored _ eq_refl eq_refl string_compare_asym);
    [ | | exact H ].
  - intros v Hv. vm_compute in Hv. injection Hv as <-. reflexivity.
  - intros v _. right. reflexivity.
Defined.
